(** * PeakiPy numerical core: peak profiles, baseline estimators,
      Levenberg-Marquardt and the fit orchestrator

    A shallow embedding of [src/lib/peakFitting.ts],
    [src/lib/levenbergMarquardt.ts] and [src/lib/peakInitializers.ts],
    with the gradient-descent fit of the earlier [peakFitting.ts].

    Numbers.  A JavaScript [number] is idealised as a real number: no
    rounding, no NaN.  [+Infinity] appears in the source as the seed of a
    running minimum and is kept as [None] in an [option R].  Arrays are
    lists; [a[i]] is [get a i] and [a[i] = v] is [set a i v].  Loops are
    folds over the index range they run through, or recursion on the
    number of remaining iterations when they can [break]. *)

From Stdlib Require Import Reals Zfloor Lra Lia List ZArith Bool Arith.
From Stdlib Require Import Sorted Permutation.
Import ListNotations.

#[local] Open Scope R_scope.

(** ** JavaScript primitives *)

Module JS.

(** [a[i]] for an index in range.  Out of range JavaScript yields
    [undefined]; every read below is in range under the length
    conditions of the function it belongs to. *)
Definition get {A} (d : A) (a : list A) (i : nat) : A := nth i a d.

(** [a[i] = v] for an index in range. *)
Fixpoint set {A} (a : list A) (i : nat) (v : A) : list A :=
  match a, i with
  | [], _ => []
  | _ :: t, O => v :: t
  | h :: t, S j => h :: set t j v
  end.

(** [new Array(n).fill(v)] *)
Definition fill {A} (n : nat) (v : A) : list A := repeat v n.

(** [v || d] on a number: [0] is falsy. *)
Definition orNum (v d : R) : R := if Req_dec_T v 0 then d else v.

(** [v || d] on an optional number: [undefined] and [0] are falsy. *)
Definition orElse (v : option R) (d : R) : R :=
  match v with
  | Some r => orNum r d
  | None => d
  end.

(** [v ?? d] on an optional number: only [undefined] is replaced. *)
Definition coalesce {A} (v : option A) (d : A) : A :=
  match v with
  | Some r => r
  | None => d
  end.

(** A running minimum seeded with [Infinity] ([None]) and stored in an
    array of numbers.  The seed survives only an empty loop; it has no
    real value and is read as [0]. *)
Definition finite (v : option R) : R :=
  match v with
  | Some r => r
  | None => 0
  end.

(** [v || d] on an optional count. *)
Definition orCount (v : option nat) (d : nat) : nat :=
  match v with
  | Some O | None => d
  | Some n => n
  end.

(** Comparisons as booleans. *)
Definition ltb (a b : R) : bool := if Rlt_dec a b then true else false.
Definition leb (a b : R) : bool := if Rle_dec a b then true else false.
Definition eqb (a b : R) : bool := if Req_dec_T a b then true else false.

(** [Math.round]: the nearest integer, halves upwards. *)
Definition round (v : R) : R := IZR (Zfloor (v + 1 / 2)).

(** [Math.min(...l)] and [Math.max(...l)] of a non-empty array. *)
Definition minList (l : list R) : R :=
  match l with
  | [] => 0
  | h :: t => fold_left Rmin t h
  end.
Definition maxList (l : list R) : R :=
  match l with
  | [] => 0
  | h :: t => fold_left Rmax t h
  end.

(** [l.reduce((s, v) => s + v, 0)] *)
Definition sum (l : list R) : R := fold_left Rplus l 0.

(** [a.map((v, i) => f v i)] *)
Definition mapi {A B} (f : A -> nat -> B) (a : list A) : list B :=
  map (fun iv => f (snd iv) (fst iv)) (combine (seq 0 (length a)) a).

(** The indices [lo, lo+1, ..., hi-1] of [for (i = lo; i < hi; i++)]. *)
Definition range (lo hi : nat) : list nat := seq lo (hi - lo).

End JS.

(** ** Data model *)

Record DataPoint := mkPoint { x : R; y : R }.

Inductive Profile := gaussianP | lorentzianP | voigtP.

(** [PeakComponent]: [sigma] and [gamma] are the optional overrides. *)
Record PeakComponent := mkComponent {
  id : Z;
  profile : Profile;
  center : R;
  amplitude : R;
  width : R;
  weight : R;
  sigma : option R;
  gamma : option R
}.

(** ** Peak profile model *)

Module Profiles.

Definition gaussian (x center amplitude sigma : R) : R :=
  let exponent := - ((x - center) ^ 2) / (2 * sigma ^ 2) in
  amplitude * exp exponent.

Definition lorentzian (x center amplitude gamma : R) : R :=
  amplitude * (gamma ^ 2) / ((x - center) ^ 2 + gamma ^ 2).

Definition voigt (x center amplitude sigma gamma : R) : R :=
  let eta := gamma / (sigma + gamma) in
  let g := gaussian x center 1 sigma in
  let l := lorentzian x center 1 gamma in
  amplitude * (eta * l + (1 - eta) * g).

(** [calculatePeak]: the interface makes [weight] a required number, so
    the [?? 1.0] of the source never fires on a typed component. *)
Definition calculatePeak (x : R) (component : PeakComponent) : R :=
  let sigma := JS.orElse (sigma component) (width component / 2.355) in
  let gamma := JS.orElse (gamma component) (width component / 2) in
  let effectiveAmp := amplitude component * weight component in
  match profile component with
  | gaussianP => gaussian x (center component) effectiveAmp sigma
  | lorentzianP => lorentzian x (center component) effectiveAmp gamma
  | voigtP => voigt x (center component) effectiveAmp sigma gamma
  end.

End Profiles.

(** ** Levenberg-Marquardt optimizer *)

Module LM.

Definition Matrix := list (list R).

Definition row (m : Matrix) (i : nat) : list R := JS.get [] m i.
Definition at_ (m : Matrix) (i j : nat) : R := JS.get 0 (row m i) j.
Definition setAt (m : Matrix) (i j : nat) (v : R) : Matrix :=
  JS.set m i (JS.set (row m i) j v).

(** [l.reduce((sum, r) => sum + r * r, 0)] *)
Definition sumSquares (l : list R) : R :=
  fold_left (fun sum r => sum + r * r) l 0.

(** One-sided finite differences: column [j] holds
    [(yPlus[i] - y0[i]) / epsilon] for the model at [params[j] + epsilon];
    row [i] of the result collects entry [i] of every column. *)
Definition calculateJacobian (x params : list R)
    (modelFunc : list R -> list R -> list R) : Matrix :=
  let n := length x in
  let p := length params in
  let y0 := modelFunc x params in
  let epsilon := 1e-8 in
  let column j :=
    let paramsPlus := JS.set params j (JS.get 0 params j + epsilon) in
    let yPlus := modelFunc x paramsPlus in
    map (fun i => (JS.get 0 yPlus i - JS.get 0 y0 i) / epsilon)
        (JS.range 0 n) in
  let columns := map column (JS.range 0 p) in
  map (fun i => map (fun col => JS.get 0 col i) columns) (JS.range 0 n).

(** [matrix[0].length] throws a TypeError on an empty matrix: [None]. *)
Definition transpose (matrix : Matrix) : option Matrix :=
  match matrix with
  | [] => None
  | row0 :: _ =>
      let rows := length matrix in
      let cols := length row0 in
      Some (map (fun j => map (fun i => at_ matrix i j) (JS.range 0 rows))
                (JS.range 0 cols))
  end.

Definition matrixMultiply (A B : Matrix) : option Matrix :=
  match A, B with
  | a0 :: _, b0 :: _ =>
      let rowsA := length A in
      let colsA := length a0 in
      let colsB := length b0 in
      Some (map (fun i =>
              map (fun j =>
                fold_left (fun sum k => sum + at_ A i k * at_ B k j)
                          (JS.range 0 colsA) 0)
                (JS.range 0 colsB))
              (JS.range 0 rowsA))
  | _, _ => None
  end.

(** *** Dense solve with partial pivoting *)

Definition findPivot (aug : Matrix) (i n : nat) : nat :=
  fold_left (fun maxRow k =>
               if Rgt_dec (Rabs (at_ aug k i)) (Rabs (at_ aug maxRow i))
               then k else maxRow)
            (JS.range (i + 1) n) i.

(** [[aug[i], aug[maxRow]] = [aug[maxRow], aug[i]]] *)
Definition swapRows (aug : Matrix) (i maxRow : nat) : Matrix :=
  let ri := row aug i in
  let rm := row aug maxRow in
  JS.set (JS.set aug i rm) maxRow ri.

Definition eliminateColumn (aug : Matrix) (i n : nat) : Matrix :=
  fold_left (fun aug k =>
               let factor := at_ aug k i / at_ aug i i in
               fold_left (fun aug j =>
                            setAt aug k j (at_ aug k j - factor * at_ aug i j))
                         (JS.range i (n + 1)) aug)
            (JS.range (i + 1) n) aug.

(** Forward elimination; [None] is the [return null] of a pivot below
    [1e-12]. *)
Fixpoint forwardEliminate (idx : list nat) (aug : Matrix) (n : nat)
    : option Matrix :=
  match idx with
  | [] => Some aug
  | i :: rest =>
      let aug1 := swapRows aug i (findPivot aug i n) in
      if Rlt_dec (Rabs (at_ aug1 i i)) 1e-12 then None
      else forwardEliminate rest (eliminateColumn aug1 i n) n
  end.

Definition backSubstitute (aug : Matrix) (n : nat) : list R :=
  fold_left (fun x i =>
               let x := JS.set x i (at_ aug i n) in
               let x := fold_left (fun x j =>
                          JS.set x i (JS.get 0 x i - at_ aug i j * JS.get 0 x j))
                          (JS.range (i + 1) n) x in
               JS.set x i (JS.get 0 x i / at_ aug i i))
            (rev (JS.range 0 n)) (JS.fill n 0).

Definition solveLinear (A : Matrix) (b : list R) : option (list R) :=
  let n := length A in
  let aug := JS.mapi (fun row i => row ++ [JS.get 0 b i]) A in
  match forwardEliminate (JS.range 0 n) aug n with
  | None => None
  | Some aug => Some (backSubstitute aug n)
  end.

(** *** The optimizer *)

Record LMOptions := mkLMOptions {
  maxIterations : option nat;
  tolerance : option R;
  lambdaInit : option R;
  lambdaUp : option R;
  lambdaDown : option R
}.

Definition noOptions : LMOptions := mkLMOptions None None None None None.

Record LMResult := mkLMResult {
  params : list R;
  residuals : list R;
  chiSquared : R;
  iterations : nat;
  converged : bool
}.

(** The variables the loop of [levenbergMarquardt] updates. *)
Record LMState := mkLMState {
  st_params : list R;
  st_lambda : R;
  st_yPred : list R;
  st_residuals : list R;
  st_chiSquared : R;
  st_iterations : nat;
  st_converged : bool
}.

(** What one pass through the loop body did, in program order: the
    Jacobian it computed (with the parameters it was computed at) and how
    the pass ended. *)
Inductive Event :=
| JacobianComputed (at_params : list R)
| SolveFailed
| StepAccepted
| StepRejected.

Inductive Flow := Continue | Break.

Section Optimizer.

Variables (x y : list R).
Variable modelFunc : list R -> list R -> list R.
Variables (tolerance_ lambdaUp_ lambdaDown_ : R).

(** The damped normal equations of the current state. *)
Definition normalEquations (st : LMState)
    : option (Matrix * list R) :=
  let n := length x in
  let p := length (st_params st) in
  let J := calculateJacobian x (st_params st) modelFunc in
  match transpose J with
  | None => None
  | Some Jt =>
      match matrixMultiply Jt J with
      | None => None
      | Some JtJ =>
          let JtR :=
            map (fun j =>
                   fold_left (fun s i =>
                                s + at_ J i j * JS.get 0 (st_residuals st) i)
                             (JS.range 0 n) 0)
                (JS.range 0 p) in
          let H :=
            JS.mapi (fun row i =>
                    JS.mapi (fun val j =>
                            if Nat.eqb i j
                            then val + st_lambda st * Rmax val 1e-10
                            else val) row) JtJ in
          Some (H, JtR)
      end
  end.

(** The body of the [for] loop at counter [iter]; [None] is a thrown
    TypeError. *)
Definition iteration (st : LMState) (iter : nat)
    : option (LMState * Flow * list Event) :=
  let st := mkLMState (st_params st) (st_lambda st) (st_yPred st)
                      (st_residuals st) (st_chiSquared st)
                      (iter + 1) (st_converged st) in
  match normalEquations st with
  | None => None
  | Some (H, JtR) =>
      let jac := JacobianComputed (st_params st) in
      match solveLinear H JtR with
      | None =>
          Some (mkLMState (st_params st) (st_lambda st * lambdaUp_)
                          (st_yPred st) (st_residuals st)
                          (st_chiSquared st) (st_iterations st)
                          (st_converged st),
                Continue, [jac; SolveFailed])
      | Some delta =>
          let newParams :=
            JS.mapi (fun p i => p + JS.get 0 delta i) (st_params st) in
          let newYPred := modelFunc x newParams in
          let newResiduals :=
            JS.mapi (fun yi i => yi - JS.get 0 newYPred i) y in
          let newChiSquared := sumSquares newResiduals in
          if Rlt_dec newChiSquared (st_chiSquared st) then
            let relChange :=
              (st_chiSquared st - newChiSquared)
              / (st_chiSquared st + 1e-10) in
            if Rlt_dec relChange tolerance_ then
              Some (mkLMState newParams (st_lambda st) newYPred
                              newResiduals newChiSquared
                              (st_iterations st) true,
                    Break, [jac; StepAccepted])
            else
              Some (mkLMState newParams (st_lambda st * lambdaDown_)
                              newYPred newResiduals newChiSquared
                              (st_iterations st) (st_converged st),
                    Continue, [jac; StepAccepted])
          else
            let lambda := st_lambda st * lambdaUp_ in
            Some (mkLMState (st_params st) lambda (st_yPred st)
                            (st_residuals st) (st_chiSquared st)
                            (st_iterations st) (st_converged st),
                  (if Rgt_dec lambda 1e10 then Break else Continue),
                  [jac; StepRejected])
      end
  end.

(** [for (let iter = ...; iter < maxIterations; iter++)] with
    [remaining = maxIterations - iter]. *)
Fixpoint loop (remaining iter : nat) (st : LMState)
    : option (LMState * list Event) :=
  match remaining with
  | O => Some (st, [])
  | S remaining' =>
      match iteration st iter with
      | None => None
      | Some (st', Break, evs) => Some (st', evs)
      | Some (st', Continue, evs) =>
          match loop remaining' (iter + 1) st' with
          | None => None
          | Some (st'', evs') => Some (st'', evs ++ evs')
          end
      end
  end.

End Optimizer.

Definition initialState (x y initialParams : list R)
    (modelFunc : list R -> list R -> list R) (lambdaInit_ : R) : LMState :=
  let params := initialParams in
  let yPred := modelFunc x params in
  let residuals := JS.mapi (fun yi i => yi - JS.get 0 yPred i) y in
  let chiSquared := sumSquares residuals in
  mkLMState params lambdaInit_ yPred residuals chiSquared 0 false.

(** The optimizer together with the trace of its loop. *)
Definition run (x y initialParams : list R)
    (modelFunc : list R -> list R -> list R) (options : LMOptions)
    : option (LMState * list Event) :=
  let maxIterations := JS.coalesce (maxIterations options) 200%nat in
  let tolerance := JS.coalesce (tolerance options) 1e-8 in
  let lambdaInit := JS.coalesce (lambdaInit options) 0.001 in
  let lambdaUp := JS.coalesce (lambdaUp options) 10 in
  let lambdaDown := JS.coalesce (lambdaDown options) 0.1 in
  loop x y modelFunc tolerance lambdaUp lambdaDown maxIterations 0
       (initialState x y initialParams modelFunc lambdaInit).

Definition levenbergMarquardt (x y initialParams : list R)
    (modelFunc : list R -> list R -> list R) (options : LMOptions)
    : option LMResult :=
  match run x y initialParams modelFunc options with
  | None => None
  | Some (st, _) =>
      Some (mkLMResult (st_params st) (st_residuals st) (st_chiSquared st)
                       (st_iterations st) (st_converged st))
  end.

End LM.

(** ** Divisions on record

    The banded solver is written against a writer that records every
    divisor, in program order, next to the value it computes. *)

Module Div.

Definition M (A : Type) : Type := (A * list R)%type.

Definition ret {A} (a : A) : M A := (a, []).

Definition bind {A B} (m : M A) (f : A -> M B) : M B :=
  let (a, l1) := m in
  let (b, l2) := f a in
  (b, l1 ++ l2).

(** [a / b], with [b] put on record. *)
Definition div (a b : R) : M R := (a / b, [b]).

Definition value {A} (m : M A) : A := fst m.
Definition divisors {A} (m : M A) : list R := snd m.

(** A loop over [idx] whose body divides. *)
Fixpoint foldM {S I} (body : S -> I -> M S) (idx : list I) (s : S) : M S :=
  match idx with
  | [] => ret s
  | i :: rest => bind (body s i) (foldM body rest)
  end.

End Div.

Declare Scope div_scope.
Delimit Scope div_scope with div.
Notation "v <- m ;; k" := (Div.bind m (fun v => k))
  (at level 61, m at next level, right associativity) : div_scope.

(** ** Baseline estimators *)

Module Baseline.

Definition origin : DataPoint := mkPoint 0 0.

(** [data.map(d => ({ x: d.x, y: 0 }))] *)
Definition zeroBaseline (data : list DataPoint) : list DataPoint :=
  map (fun d => mkPoint (x d) 0) data.

(** [data.map((d, i) => ({ x: d.x, y: v[i] }))] *)
Definition withY (data : list DataPoint) (v : list R) : list DataPoint :=
  JS.mapi (fun d i => mkPoint (x d) (JS.get 0 v i)) data.

(** *** Linear *)

Definition linearBaseline (data : list DataPoint)
    (slope intercept : option R) : list DataPoint :=
  if (length data <? 2)%nat then zeroBaseline data
  else
    let mb :=
      match slope, intercept with
      | Some slope, Some intercept => (slope, intercept)
      | _, _ =>
          let x1 := x (JS.get origin data 0) in
          let y1 := y (JS.get origin data 0) in
          let x2 := x (JS.get origin data (length data - 1)) in
          let y2 := y (JS.get origin data (length data - 1)) in
          let m := (y2 - y1) / (x2 - x1) in
          (m, y1 - m * x1)
      end in
    map (fun d => mkPoint (x d) (fst mb * x d + snd mb)) data.

(** *** Robust polynomial *)

Definition solveLinearSystem (matrix : LM.Matrix) (vector : list R)
    : list R :=
  let n := length vector in
  let ab :=
    fold_left (fun (ab : LM.Matrix * list R) i =>
      let (a, b) := ab in
      let maxRow := LM.findPivot a i n in
      let a := LM.swapRows a i maxRow in
      let b := JS.set (JS.set b i (JS.get 0 b maxRow)) maxRow (JS.get 0 b i) in
      fold_left (fun (ab : LM.Matrix * list R) k =>
        let (a, b) := ab in
        let factor := LM.at_ a k i / LM.at_ a i i in
        let a := fold_left (fun a j =>
                   LM.setAt a k j (LM.at_ a k j - factor * LM.at_ a i j))
                   (JS.range i n) a in
        (a, JS.set b k (JS.get 0 b k - factor * JS.get 0 b i)))
        (JS.range (i + 1) n) (a, b))
      (JS.range 0 n) (matrix, vector) in
  let (a, b) := ab in
  fold_left (fun x i =>
    let sum := fold_left (fun sum j => sum - LM.at_ a i j * JS.get 0 x j)
                         (JS.range (i + 1) n) (JS.get 0 b i) in
    JS.set x i (sum / LM.at_ a i i))
    (rev (JS.range 0 n)) (JS.fill n 0).

(** [let y = 0; for (i = 0; i <= degree; i++) y += coeffs[i] * x^i] *)
Definition evalPoly (coeffs : list R) (degree : nat) (x : R) : R :=
  fold_left (fun y i => y + JS.get 0 coeffs i * x ^ i)
            (JS.range 0 (degree + 1)) 0.

(** [a.filter((_, i) => mask[i])] *)
Definition masked {A} (a : list A) (mask : list bool) : list A :=
  map fst (filter snd (combine a mask)).

(** One pass of the sigma-clipping loop: the new coefficients, and the
    new mask unless the loop breaks. *)
Definition clipOnce (xNorm yValues : list R) (degree : nat) (sigma : R)
    (mask : list bool) (coeffs : list R)
    : list R * option (list bool) :=
  let maskedX := masked xNorm mask in
  let maskedY := masked yValues mask in
  if (length maskedX <? degree + 1)%nat then (coeffs, None)
  else
    let matrix :=
      map (fun i =>
             map (fun j => fold_left (fun sum x => sum + x ^ (i + j)) maskedX 0)
                 (JS.range 0 (degree + 1)))
          (JS.range 0 (degree + 1)) in
    let vector :=
      map (fun i =>
             fold_left (fun sum xy => sum + fst xy ^ i * snd xy)
                       (combine maskedX maskedY) 0)
          (JS.range 0 (degree + 1)) in
    let coeffs := solveLinearSystem matrix vector in
    let baseline := map (evalPoly coeffs degree) xNorm in
    let residuals := JS.mapi (fun y i => y - JS.get 0 baseline i) yValues in
    let maskedResiduals := masked residuals mask in
    let std := sqrt (LM.sumSquares maskedResiduals
                     / INR (length maskedResiduals)) in
    let threshold := sigma * std in
    let newMask := map (fun r => JS.ltb r threshold) residuals in
    if forallb (fun mm => Bool.eqb (fst mm) (snd mm)) (combine newMask mask)
    then (coeffs, None)
    else (coeffs, Some newMask).

Fixpoint clipLoop (remaining : nat) (xNorm yValues : list R) (degree : nat)
    (sigma : R) (mask : list bool) (coeffs : list R) : list R :=
  match remaining with
  | O => coeffs
  | S remaining' =>
      match clipOnce xNorm yValues degree sigma mask coeffs with
      | (coeffs', None) => coeffs'
      | (coeffs', Some mask') =>
          clipLoop remaining' xNorm yValues degree sigma mask' coeffs'
      end
  end.

Definition polynomialBaseline (data : list DataPoint) (degree maxIter : nat)
    (sigma : R) : list DataPoint :=
  if (length data <? degree + 1)%nat then linearBaseline data None None
  else
    let n := length data in
    let xValues := map x data in
    let yValues := map y data in
    let xMin := JS.minList xValues in
    let xMax := JS.maxList xValues in
    let xRange := JS.orNum (xMax - xMin) 1 in
    let xNorm := map (fun x => (x - xMin) / xRange) xValues in
    let mask := JS.fill n true in
    let coeffs := clipLoop maxIter xNorm yValues degree sigma mask [] in
    map (fun d =>
           let xn := (x d - xMin) / xRange in
           mkPoint (x d) (evalPoly coeffs degree xn))
        data.

(** *** AsLS: Whittaker smoother on a pentadiagonal system *)

#[local] Open Scope div_scope.

(** [if (Math.abs(diagD[i]) < 1e-14) diagD[i] = 1e-14] *)
Definition guardDiag (diagD : list R) (i : nat) : list R :=
  if Rlt_dec (Rabs (JS.get 0 diagD i)) 1e-14 then JS.set diagD i 1e-14
  else diagD.

(** The working arrays of the factorization. *)
Record Factor := mkFactor {
  diagD : list R;
  subL1 : list R;
  subL2 : list R
}.

(** The first two rows of the forward pass. *)
Definition factorHead (b c d e : list R) (n : nat) : Div.M Factor :=
  let g := JS.get 0 in
  let diagD := JS.fill n 0 in
  let subL1 := JS.fill n 0 in
  let subL2 := JS.fill n 0 in
  let diagD := JS.set diagD 0 (g c 0%nat) in
  let diagD := guardDiag diagD 0 in
  q <- Div.div (g d 0%nat) (g diagD 0%nat) ;;
  let subL1 := JS.set subL1 0 q in
  q <- Div.div (g e 0%nat) (g diagD 0%nat) ;;
  let subL2 := JS.set subL2 0 q in
  let diagD := JS.set diagD 1 (g c 1%nat - g b 1%nat * g subL1 0%nat) in
  let diagD := guardDiag diagD 1 in
  q <- Div.div (g d 1%nat - g b 1%nat * g subL2 0%nat) (g diagD 1%nat) ;;
  let subL1 := JS.set subL1 1 q in
  q <- Div.div (g e 1%nat) (g diagD 1%nat) ;;
  let subL2 := JS.set subL2 1 q in
  Div.ret (mkFactor diagD subL1 subL2).

(** The body of [for (let i = 2; i < n; i++)] in the forward pass. *)
Definition factorStep (a b c d e : list R) (n : nat) (f : Factor) (i : nat)
    : Div.M Factor :=
  let g := JS.get 0 in
  let diagD := diagD f in
  let subL1 := subL1 f in
  let subL2 := subL2 f in
  li2 <- Div.div (g a i) (g diagD (i - 2)%nat) ;;
  let tmp := g b i - li2 * g diagD (i - 2)%nat * g subL1 (i - 2)%nat in
  li1 <- Div.div tmp (g diagD (i - 1)%nat) ;;
  let diagD :=
    JS.set diagD i
      (g c i - li2 * g diagD (i - 2)%nat * g subL2 (i - 2)%nat
             - li1 * g diagD (i - 1)%nat * g subL1 (i - 1)%nat) in
  let diagD := guardDiag diagD i in
  subL1 <-
    (if (i <? n - 1)%nat then
       q <- Div.div (g d i - li1 * g diagD (i - 1)%nat * g subL2 (i - 1)%nat)
                    (g diagD i) ;;
       Div.ret (JS.set subL1 i q)
     else Div.ret subL1) ;;
  subL2 <-
    (if (i <? n - 2)%nat then
       q <- Div.div (g e i) (g diagD i) ;;
       Div.ret (JS.set subL2 i q)
     else Div.ret subL2) ;;
  let subL2 := JS.set subL2 (i - 2) li2 in
  let subL1 := JS.set subL1 (i - 1) li1 in
  Div.ret (mkFactor diagD subL1 subL2).

Definition solvePentadiagonal (a b c d e rhs : list R) : Div.M (list R) :=
  let g := JS.get 0 in
  let n := length rhs in
  if (n <? 3)%nat then Div.ret rhs
  else
    f <- factorHead b c d e n ;;
    f <- Div.foldM (factorStep a b c d e n) (JS.range 2 n) f ;;
    let z := JS.fill n 0 in
    let x := JS.fill n 0 in
    (* forward substitution *)
    let z := JS.set z 0 (g rhs 0%nat) in
    let z := JS.set z 1 (g rhs 1%nat - g (subL1 f) 0%nat * g z 0%nat) in
    let z :=
      fold_left (fun z i =>
                   JS.set z i (g rhs i - g (subL2 f) (i - 2)%nat * g z (i - 2)%nat
                                       - g (subL1 f) (i - 1)%nat * g z (i - 1)%nat))
                (JS.range 2 n) z in
    (* scale by the diagonal *)
    z <- Div.foldM (fun z i =>
                      q <- Div.div (g z i) (g (diagD f) i) ;;
                      Div.ret (JS.set z i q))
                   (JS.range 0 n) z ;;
    (* back substitution *)
    let x := JS.set x (n - 1) (g z (n - 1)%nat) in
    let x := JS.set x (n - 2)
               (g z (n - 2)%nat - g (subL1 f) (n - 2)%nat * g x (n - 1)%nat) in
    let x :=
      fold_left (fun x i =>
                   JS.set x i (g z i - g (subL1 f) i * g x (i + 1)%nat
                                     - g (subL2 f) i * g x (i + 2)%nat))
                (rev (JS.range 0 (n - 2))) x in
    Div.ret x.

(** The five diagonals of [W + lambda D2^T D2] and the right-hand side. *)
Definition whittakerSmooth (y w : list R) (lambda : R) : Div.M (list R) :=
  let n := length y in
  if (n <? 3)%nat then Div.ret y
  else
    let zero := JS.fill n 0 in
    let build (abcde : list R * list R * list R * list R * list R) i :=
      let '(a, b, c, d, e) := abcde in
      let wi := JS.get 0 w i in
      if (i =? 0)%nat then
        (a, b, JS.set c i (wi + lambda), JS.set d i (-2 * lambda),
         JS.set e i lambda)
      else if (i =? 1)%nat then
        (a, JS.set b i (-2 * lambda), JS.set c i (wi + 5 * lambda),
         JS.set d i (-4 * lambda), JS.set e i lambda)
      else if (i =? n - 2)%nat then
        (JS.set a i lambda, JS.set b i (-4 * lambda),
         JS.set c i (wi + 5 * lambda), JS.set d i (-2 * lambda), e)
      else if (i =? n - 1)%nat then
        (JS.set a i lambda, JS.set b i (-2 * lambda),
         JS.set c i (wi + lambda), d, e)
      else
        (JS.set a i lambda, JS.set b i (-4 * lambda),
         JS.set c i (wi + 6 * lambda), JS.set d i (-4 * lambda),
         JS.set e i lambda) in
    let '(a, b, c, d, e) :=
      fold_left build (JS.range 0 n) (zero, zero, zero, zero, zero) in
    let rhs := JS.mapi (fun yi i => JS.get 0 w i * yi) y in
    solvePentadiagonal a b c d e rhs.

(** The reweighting pass: [w[i] = y[i] > z[i] ? p : 1 - p]. *)
Definition reweight (y z : list R) (p : R) (w : list R) : list R :=
  fold_left (fun w i =>
               JS.set w i (if Rgt_dec (JS.get 0 y i) (JS.get 0 z i)
                           then p else 1 - p))
            (JS.range 0 (length y)) w.

Definition aslsBaseline (data : list DataPoint) (lambda p : R)
    (iterations : nat) : Div.M (list DataPoint) :=
  let n := length data in
  if (n <? 3)%nat then Div.ret (zeroBaseline data)
  else
    let y := map y data in
    zw <- Div.foldM (fun (zw : list R * list R) (_ : nat) =>
                       let (_, w) := zw in
                       z <- whittakerSmooth y w lambda ;;
                       Div.ret (z, reweight y z p w))
                    (JS.range 0 iterations) (y, JS.fill n 1) ;;
    Div.ret (withY data (fst zw)).

#[local] Close Scope div_scope.

(** *** Rolling ball *)

(** [let minVal = Infinity; for (j = start; j < end; j++)
     if (y[j] < minVal) minVal = y[j]] *)
Definition windowMin (y : list R) (start stop : nat) : option R :=
  fold_left (fun minVal j =>
               match minVal with
               | None => Some (JS.get 0 y j)
               | Some m =>
                   if Rlt_dec (JS.get 0 y j) m then Some (JS.get 0 y j)
                   else minVal
               end)
            (JS.range start stop) None.

Definition windowStart (halfWindow : Z) (i : nat) : nat :=
  Z.to_nat (Z.max 0 (Z.of_nat i - halfWindow)).
Definition windowStop (halfWindow : Z) (n i : nat) : nat :=
  Z.to_nat (Z.min (Z.of_nat n) (Z.of_nat i + halfWindow + 1)).

(** The array [baseline]: the minimum in the rolling window. *)
Definition rollingMin (y : list R) (radius : R) : list R :=
  let n := length y in
  let halfWindow := Zceil radius in
  fold_left (fun baseline i =>
               let start := windowStart halfWindow i in
               let stop := windowStop halfWindow n i in
               JS.set baseline i (JS.finite (windowMin y start stop)))
            (JS.range 0 n) (JS.fill n 0).

(** The array [smoothed]: every pass writes the average of three
    neighbours of [baseline] into [smoothed]. *)
Definition smoothPasses (baseline : list R) : list R :=
  let n := length baseline in
  fold_left (fun smoothed (pass : nat) =>
               fold_left (fun smoothed i =>
                            JS.set smoothed i
                              ((JS.get 0 baseline (i - 1)
                                + JS.get 0 baseline i
                                + JS.get 0 baseline (i + 1)) / 3))
                         (JS.range 1 (n - 1)) smoothed)
            (JS.range 0 3) baseline.

Definition rollingBallBaseline (data : list DataPoint) (radius : R)
    : list DataPoint :=
  let n := length data in
  if (n <? 3)%nat then zeroBaseline data
  else
    let y := map y data in
    let baseline := rollingMin y radius in
    let smoothed := smoothPasses baseline in
    withY data smoothed.

(** *** Shirley *)

(** [Math.max(0, y[i] - baseline[i])] summed over [i = from .. n-1]. *)
Definition areaFrom (y baseline : list R) (from n : nat) : R :=
  fold_left (fun area i =>
               area + Rmax 0 (JS.get 0 y i - JS.get 0 baseline i))
            (JS.range from n) 0.

(** One pass of the Shirley loop: [None] when the total area is zero,
    else the new baseline and whether the loop breaks after it. *)
Definition shirleyOnce (y baseline : list R) (yStart yEnd tolerance : R)
    : option (list R * bool) :=
  let n := length y in
  let totalArea := areaFrom y baseline 0 n in
  if Req_dec_T totalArea 0 then None
  else
    let newBaseline :=
      map (fun i =>
             let areaRight := areaFrom y baseline i n in
             let ratio := areaRight / totalArea in
             yEnd + (yStart - yEnd) * ratio)
          (JS.range 0 n) in
    let maxChange :=
      fold_left (fun maxChange i =>
                   Rmax maxChange
                        (Rabs (JS.get 0 newBaseline i - JS.get 0 baseline i)))
                (JS.range 0 n) 0 in
    Some (newBaseline,
          JS.ltb maxChange (tolerance * (Rabs (yStart - yEnd) + 1e-10))).

Fixpoint shirleyLoop (remaining : nat) (y baseline : list R)
    (yStart yEnd tolerance : R) : list R :=
  match remaining with
  | O => baseline
  | S remaining' =>
      match shirleyOnce y baseline yStart yEnd tolerance with
      | None => baseline
      | Some (newBaseline, true) => newBaseline
      | Some (newBaseline, false) =>
          shirleyLoop remaining' y newBaseline yStart yEnd tolerance
      end
  end.

Definition shirleyBaseline (data : list DataPoint) (maxIterations : nat)
    (tolerance : R) : list DataPoint :=
  let n := length data in
  if (n <? 3)%nat then zeroBaseline data
  else
    let y := map y data in
    let yStart := JS.get 0 y 0 in
    let yEnd := JS.get 0 y (n - 1) in
    let baseline :=
      map (fun i =>
             let t := INR i / INR (n - 1) in
             yStart * (1 - t) + yEnd * t)
          (JS.range 0 n) in
    withY data (shirleyLoop maxIterations y baseline yStart yEnd tolerance).

(** *** Manual *)

Inductive Interp := linearI | cubicI.

(** The first segment [px[i] <= x <= px[i+1]], as the [for] loop with an
    early [return] finds it. *)
Fixpoint findSegment (px : list R) (x : R) (idx : list nat) : option nat :=
  match idx with
  | [] => None
  | i :: rest =>
      if Rge_dec x (JS.get 0 px i) then
        if Rle_dec x (JS.get 0 px (i + 1)) then Some i
        else findSegment px x rest
      else findSegment px x rest
  end.

Definition linearInterpolate (px py : list R) (x : R) : R :=
  let n := length px in
  if Rle_dec x (JS.get 0 px 0) then JS.get 0 py 0
  else if Rge_dec x (JS.get 0 px (n - 1)) then JS.get 0 py (n - 1)
  else
    match findSegment px x (JS.range 0 (n - 1)) with
    | Some i =>
        let t := (x - JS.get 0 px i) / (JS.get 0 px (i + 1) - JS.get 0 px i) in
        JS.get 0 py i + t * (JS.get 0 py (i + 1) - JS.get 0 py i)
    | None => JS.get 0 py (n - 1)
    end.

(** The coefficient arrays [b], [c], [d] of the natural cubic spline. *)
Definition splineCoefficients (px py : list R)
    : list R * list R * list R :=
  let g := JS.get 0 in
  let n := length px in
  let h := map (fun i => g px (i + 1)%nat - g px i) (JS.range 0 (n - 1)) in
  let alpha :=
    fold_left (fun alpha i =>
                 JS.set alpha i
                   ((3 / g h i) * (g py (i + 1)%nat - g py i)
                    - (3 / g h (i - 1)%nat) * (g py i - g py (i - 1)%nat)))
              (JS.range 1 (n - 1)) (JS.fill n 0) in
  let '(l, mu, z) :=
    fold_left (fun (lmz : list R * list R * list R) i =>
                 let '(l, mu, z) := lmz in
                 let l := JS.set l i
                            (2 * (g px (i + 1)%nat - g px (i - 1)%nat)
                             - g h (i - 1)%nat * g mu (i - 1)%nat) in
                 let mu := JS.set mu i (g h i / g l i) in
                 let z := JS.set z i
                            ((g alpha i - g h (i - 1)%nat * g z (i - 1)%nat)
                             / g l i) in
                 (l, mu, z))
              (JS.range 1 (n - 1)) (JS.fill n 1, JS.fill n 0, JS.fill n 0) in
  fold_left (fun (bcd : list R * list R * list R) j =>
               let '(b, c, d) := bcd in
               let c := JS.set c j (g z j - g mu j * g c (j + 1)%nat) in
               let b := JS.set b j
                          ((g py (j + 1)%nat - g py j) / g h j
                           - g h j * (g c (j + 1)%nat + 2 * g c j) / 3) in
               let d := JS.set d j
                          ((g c (j + 1)%nat - g c j) / (3 * g h j)) in
               (b, c, d))
            (rev (JS.range 0 (n - 1)))
            (JS.fill (n - 1) 0, JS.fill n 0, JS.fill (n - 1) 0).

Definition cubicSplineInterpolate (px py : list R) (x : R) : R :=
  let g := JS.get 0 in
  let n := length px in
  if (n <? 3)%nat then linearInterpolate px py x
  else if Rle_dec x (g px 0%nat) then
    let slope := (g py 1%nat - g py 0%nat) / (g px 1%nat - g px 0%nat) in
    g py 0%nat + slope * (x - g px 0%nat)
  else if Rge_dec x (g px (n - 1)%nat) then
    let slope := (g py (n - 1)%nat - g py (n - 2)%nat)
                 / (g px (n - 1)%nat - g px (n - 2)%nat) in
    g py (n - 1)%nat + slope * (x - g px (n - 1)%nat)
  else
    let '(b, c, d) := splineCoefficients px py in
    match findSegment px x (JS.range 0 (n - 1)) with
    | Some i =>
        let dx := x - g px i in
        g py i + g b i * dx + g c i * dx * dx + g d i * dx * dx * dx
    | None => g py (n - 1)%nat
    end.

(** [[...points].sort((a, b) => a.x - b.x)]: the stable ascending sort,
    as insertion behind every point whose [x] is not larger. *)
Fixpoint insertByX (p : DataPoint) (sorted : list DataPoint)
    : list DataPoint :=
  match sorted with
  | [] => [p]
  | h :: t =>
      if Rlt_dec (x p) (x h) then p :: h :: t else h :: insertByX p t
  end.

Definition sortByX (points : list DataPoint) : list DataPoint :=
  fold_left (fun sorted p => insertByX p sorted) points [].

Definition manualBaseline (data points : list DataPoint) (interp : Interp)
    : list DataPoint :=
  if (length points <? 2)%nat then zeroBaseline data
  else
    let sortedPoints := sortByX points in
    let px := map x sortedPoints in
    let py := map y sortedPoints in
    map (fun d =>
           let y :=
             match interp with
             | cubicI =>
                 if (3 <=? length sortedPoints)%nat
                 then cubicSplineInterpolate px py (x d)
                 else linearInterpolate px py (x d)
             | linearI => linearInterpolate px py (x d)
             end in
           mkPoint (x d) y)
        data.

(** *** Dispatch and calc-range *)

Inductive Method :=
| Mnone | Mlinear | Mpolynomial | Masls | Mrolling_ball | Mshirley | Mmanual.

(** [BaselineOptions], with the [coeffs] the dispatcher reads through
    [(options as any).coeffs]; the two fields that only drive the point
    editor ([manualMaxPoints], [manualEditMode]) are left out. *)
Record BaselineOptions := mkOptions {
  method : Method;
  autoBaseline : option bool;
  optimizeSimultaneously : option bool;
  degree : option nat;
  lambda : option R;
  p : option R;
  radius : option R;
  shirleyIterations : option nat;
  shirleyTolerance : option R;
  slope : option R;
  intercept : option R;
  calcRangeMin : option R;
  calcRangeMax : option R;
  manualPoints : option (list DataPoint);
  manualInterp : option Interp;
  coeffs : option (list R)
}.

Definition isDefined {A} (v : option A) : bool :=
  match v with Some _ => true | None => false end.

(** [options.autoBaseline === false] *)
Definition autoOff (options : BaselineOptions) : bool :=
  match autoBaseline options with Some false => true | _ => false end.

Definition hasRange (options : BaselineOptions) : bool :=
  isDefined (calcRangeMin options) || isDefined (calcRangeMax options).

Definition inRange (options : BaselineOptions) (x : R) : bool :=
  match calcRangeMin options with
  | None => true
  | Some calcMin => if Rge_dec x calcMin then true else false
  end
  &&
  match calcRangeMax options with
  | None => true
  | Some calcMax => if Rle_dec x calcMax then true else false
  end.

(** The points of the calc-range with their indices in [data]. *)
Definition selectRange (data : list DataPoint) (options : BaselineOptions)
    : list (nat * DataPoint) :=
  filter (fun id => inRange options (x (snd id)))
         (combine (seq 0 (length data)) data).

(** [rangeData] and [rangeIndices] as they stand before the [switch]. *)
Definition rangeOf (data : list DataPoint) (options : BaselineOptions)
    : list DataPoint * list nat :=
  if hasRange options then
    let sel := selectRange data options in
    if (length sel <? 2)%nat then (data, seq 0 (length data))
    else (map snd sel, map fst sel)
  else (data, []).

(** The [switch] on the method. *)
Definition methodBaseline (rangeData : list DataPoint)
    (options : BaselineOptions) : list DataPoint :=
  match method options with
  | Mlinear =>
      match autoOff options, slope options, intercept options with
      | true, Some slope, Some intercept =>
          linearBaseline rangeData (Some slope) (Some intercept)
      | _, _, _ => linearBaseline rangeData None None
      end
  | Mpolynomial =>
      match autoOff options, coeffs options with
      | true, Some coeffs =>
          map (fun d =>
                 mkPoint (x d)
                   (fold_left (fun y i => y + JS.get 0 coeffs i * x d ^ i)
                              (JS.range 0 (length coeffs)) 0))
              rangeData
      | _, _ =>
          polynomialBaseline rangeData (JS.orCount (degree options) 2) 10 1.5
      end
  | Masls =>
      Div.value (aslsBaseline rangeData (JS.orElse (lambda options) 1e5)
                              (JS.orElse (p options) 0.01) 10)
  | Mrolling_ball =>
      rollingBallBaseline rangeData (JS.orElse (radius options) 10)
  | Mshirley =>
      shirleyBaseline rangeData (JS.orCount (shirleyIterations options) 50)
                      (JS.orElse (shirleyTolerance options) 1e-5)
  | Mmanual =>
      match manualPoints options with
      | Some points =>
          if (2 <=? length points)%nat then
            manualBaseline rangeData points
                           (JS.coalesce (manualInterp options) linearI)
          else zeroBaseline rangeData
      | None => zeroBaseline rangeData
      end
  | Mnone => zeroBaseline rangeData
  end.

Definition boundaryLeft (rangeBaseline : list DataPoint) : R :=
  if (0 <? length rangeBaseline)%nat then y (JS.get origin rangeBaseline 0)
  else 0.
Definition boundaryRight (rangeBaseline : list DataPoint) : R :=
  if (0 <? length rangeBaseline)%nat
  then y (JS.get origin rangeBaseline (length rangeBaseline - 1))
  else 0.

(** The loop that extends the baseline flat outside the calc range. *)
Definition extendFlat (data : list DataPoint) (rangeIndices : list nat)
    (rangeBaseline : list DataPoint) : list DataPoint :=
  let leftBoundaryY := boundaryLeft rangeBaseline in
  let rightBoundaryY := boundaryRight rangeBaseline in
  fst (fold_left
         (fun (st : list DataPoint * nat) i =>
            let (fullBaseline, rangeIdx) := st in
            let xi := x (JS.get origin data i) in
            if (rangeIdx <? length rangeIndices)%nat
               && (i =? JS.get 0%nat rangeIndices rangeIdx)%nat
            then (fullBaseline
                    ++ [mkPoint xi (y (JS.get origin rangeBaseline rangeIdx))],
                  (rangeIdx + 1)%nat)
            else if (i <? JS.get 0%nat rangeIndices 0)%nat
            then (fullBaseline ++ [mkPoint xi leftBoundaryY], rangeIdx)
            else (fullBaseline ++ [mkPoint xi rightBoundaryY], rangeIdx))
         (JS.range 0 (length data)) ([], 0%nat)).

Definition calculateBaseline (data : list DataPoint)
    (options : BaselineOptions) : list DataPoint :=
  match method options with
  | Mnone => zeroBaseline data
  | _ =>
      let (rangeData, rangeIndices) := rangeOf data options in
      let rangeBaseline := methodBaseline rangeData options in
      if negb (hasRange options)
         || (length rangeIndices =? length data)%nat
      then rangeBaseline
      else extendFlat data rangeIndices rangeBaseline
  end.

End Baseline.

(** ** Fit orchestrator *)

Module Fit.

Import Baseline.

Record BaselineParams := mkBaselineParams {
  bp_slope : option R;
  bp_intercept : option R;
  bp_coeffs : option (list R);
  bp_lambda : option R;
  bp_p : option R;
  bp_radius : option R
}.

Definition noBaselineParams : BaselineParams :=
  mkBaselineParams None None None None None None.

Record FitResult := mkFitResult {
  fittedData : list DataPoint;
  residuals : list DataPoint;
  components : list (list DataPoint);
  baseline : list DataPoint;
  baselineCorrectedData : list DataPoint;
  rSquared : R;
  adjustedRSquared : R;
  rmse : R;
  chiSquared : R;
  reducedChiSquared : R;
  aic : R;
  bic : R;
  parameters : list PeakComponent;
  iterations : nat;
  converged : bool;
  optimizedBaseline : option (list DataPoint);
  baselineParams : option BaselineParams
}.

(** The fields of a result that stay finite when its baseline does not. *)
Record FinitePart := mkFinitePart {
  fp_fittedData : list DataPoint;
  fp_components : list (list DataPoint);
  fp_rSquared : R;
  fp_chiSquared : R;
  fp_reducedChiSquared : R;
  fp_parameters : list PeakComponent;
  fp_iterations : nat;
  fp_converged : bool
}.

(** What a call does: it returns a result, it throws, or it returns a
    result some of whose numbers are infinite. *)
Inductive Outcome :=
| Returns (r : FitResult)
| Throws
| NonFinite (r : FinitePart).

(** *** [Map<number, number>] *)

Definition NumMap := list (R * R).

Fixpoint mapSet (m : NumMap) (k v : R) : NumMap :=
  match m with
  | [] => [(k, v)]
  | (k', v') :: t =>
      if Req_dec_T k' k then (k', v) :: t else (k', v') :: mapSet t k v
  end.

Definition mapGet (m : NumMap) (k : R) : option R :=
  match find (fun kv => JS.eqb (fst kv) k) m with
  | Some kv => Some (snd kv)
  | None => None
  end.

(** [baseline.forEach(b => map.set(b.x, b.y))] *)
Definition baselineLookup (baseline : list DataPoint) : NumMap :=
  fold_left (fun m b => mapSet m (x b) (y b)) baseline [].

(** *** Packing *)

Definition normFactor : R := 1.0.

Definition optimizeBaseline (baselineOptions : option BaselineOptions)
    : bool :=
  match baselineOptions with
  | Some o =>
      match optimizeSimultaneously o, method o with
      | Some true, Mnone => false
      | Some true, _ => true
      | _, _ => false
      end
  | None => false
  end.

Definition packComponents (components : list PeakComponent) : list R :=
  flat_map (fun comp =>
              let effectiveAmp := amplitude comp * weight comp in
              [center comp; effectiveAmp; width comp])
           components.

Definition log10 (v : R) : R := ln v / ln 10.

(** The baseline parameters pushed behind the peaks, and
    [numBaselineParams]. *)
Definition packBaseline (o : BaselineOptions) : list R * nat :=
  match method o with
  | Mlinear =>
      let initialSlope := JS.coalesce (slope o) 0 / normFactor in
      let initialIntercept := JS.coalesce (intercept o) 0 / normFactor in
      ([initialSlope; initialIntercept], 2%nat)
  | Mpolynomial =>
      let degree := JS.coalesce (degree o) 2%nat in
      (repeat 0 (degree + 1), (degree + 1)%nat)
  | Masls =>
      let initLogLam := log10 (JS.coalesce (lambda o) 1e5) in
      let initP := JS.coalesce (p o) 0.01 in
      ([initLogLam; initP], 2%nat)
  | Mrolling_ball =>
      let initRadius := JS.coalesce (radius o) 10 in
      ([initRadius], 1%nat)
  | Mshirley => ([0; 0], 2%nat)
  | _ => ([], 0%nat)
  end.

(** *** The model function *)

Section Model.

Variable components : list PeakComponent.
Variable baselineOptions : option BaselineOptions.
Variable yVals : list R.
Variable numBaselineParams : nat.

Definition defaultComponent : PeakComponent :=
  mkComponent 0 gaussianP 0 0 0 0 None None.

(** The loop that adds every component's profile to every point. *)
Definition peakContributions (x params : list R) : list R :=
  let nComps := length components in
  fold_left (fun result c =>
               let center := JS.get 0 params (c * 3) in
               let amplitude := JS.get 0 params (c * 3 + 1) in
               let width := JS.get 0 params (c * 3 + 2) in
               let sigma := width / 2.355 in
               let gamma := width / 2 in
               let profile := profile (JS.get defaultComponent components c) in
               JS.mapi (fun r i =>
                          let xi := JS.get 0 x i in
                          match profile with
                          | gaussianP =>
                              r + Profiles.gaussian xi center amplitude sigma
                          | lorentzianP =>
                              r + Profiles.lorentzian xi center amplitude gamma
                          | voigtP =>
                              r + Profiles.voigt xi center amplitude sigma gamma
                          end)
                       result)
            (JS.range 0 nComps) (JS.fill (length x) 0).

(** [x.map((xi, i) => ({ x: xi, y: v[i] }))] *)
Definition pointsOf (x v : list R) : list DataPoint :=
  JS.mapi (fun xi i => mkPoint xi (JS.get 0 v i)) x.

(** [x.map((_, i) => peakOnly[i] + (bl[i]?.y || 0))] *)
Definition plusBaseline (x peakOnly : list R) (bl : list DataPoint)
    : list R :=
  JS.mapi (fun _ i => JS.get 0 peakOnly i + y (JS.get origin bl i)) x.

(** [yMinusPeaks] with the Shirley offsets on its first and last
    entry. *)
Definition adjustEnds (yMinusPeaks : list R) (startOffset endOffset : R)
    : list R :=
  JS.mapi (fun y i =>
             if (i =? 0)%nat then y + startOffset
             else if (i =? length yMinusPeaks - 1)%nat then y + endOffset
             else y)
          yMinusPeaks.

(** [modelFunc], on a parameter vector of full length (the optimizer
    passes no other). *)
Definition modelFunc (x params : list R) : list R :=
  let result := peakContributions x params in
  let nComps := length components in
  match baselineOptions with
  | Some o =>
      if optimizeBaseline baselineOptions && (0 <? numBaselineParams)%nat
      then
        let blParamsStart := (nComps * 3)%nat in
        match method o with
        | Mlinear =>
            let slope := JS.get 0 params blParamsStart in
            let intercept := JS.get 0 params (blParamsStart + 1) in
            JS.mapi (fun r i => r + (slope * JS.get 0 x i + intercept))
                    result
        | Mpolynomial =>
            let degree := JS.coalesce (degree o) 2%nat in
            JS.mapi (fun r i =>
                       let bl :=
                         fold_left (fun bl d =>
                                      bl + JS.get 0 params (blParamsStart + d)
                                           * JS.get 0 x i ^ d)
                                   (JS.range 0 (degree + 1)) 0 in
                       r + bl)
                    result
        | Masls =>
            let logLam := JS.get 0 params blParamsStart in
            let p := Rmax 0.0001
                       (Rmin 0.5 (JS.get 0 params (blParamsStart + 1))) in
            let lambda := Rpower 10 (Rmax 2 (Rmin 10 logLam)) in
            let peakOnly := peakContributions x params in
            let yMinusPeaks :=
              JS.mapi (fun y i => y - JS.get 0 peakOnly i) yVals in
            let aslsData := pointsOf x yMinusPeaks in
            let aslsBl := Div.value (aslsBaseline aslsData lambda p 5) in
            plusBaseline x peakOnly aslsBl
        | Mrolling_ball =>
            let radius := Rmax 1 (JS.round (JS.get 0 params blParamsStart)) in
            let peakOnly := peakContributions x params in
            let yMinusPeaks :=
              JS.mapi (fun y i => y - JS.get 0 peakOnly i) yVals in
            let rbData := pointsOf x yMinusPeaks in
            let rbBl := rollingBallBaseline rbData radius in
            plusBaseline x peakOnly rbBl
        | Mshirley =>
            let startOffset := JS.get 0 params blParamsStart in
            let endOffset := JS.get 0 params (blParamsStart + 1) in
            let peakOnly := peakContributions x params in
            let yMinusPeaks :=
              JS.mapi (fun y i => y - JS.get 0 peakOnly i) yVals in
            let adjustedData := adjustEnds yMinusPeaks startOffset endOffset in
            let shirleyData := pointsOf x adjustedData in
            let shirleyBl :=
              shirleyBaseline shirleyData
                (JS.coalesce (shirleyIterations o) 50%nat)
                (JS.coalesce (shirleyTolerance o) 1e-5) in
            plusBaseline x peakOnly shirleyBl
        | _ => result
        end
      else result
  | None => result
  end.

End Model.

(** *** Unpacking *)

(** [components.map((comp, i) => ({ ...comp, center: ..., amplitude:
    Math.max(0, ...), width: Math.max(0.01, ...), weight: 1.0 }))] *)
Definition unpack (components : list PeakComponent) (params : list R)
    : list PeakComponent :=
  JS.mapi (fun comp i =>
             mkComponent (id comp) (profile comp)
               (JS.get 0 params (i * 3))
               (Rmax 0 (JS.get 0 params (i * 3 + 1)))
               (Rmax 0.01 (JS.get 0 params (i * 3 + 2)))
               1.0
               (sigma comp) (gamma comp))
          components.

(** [modelFunc(xVals, lmResult.params.slice(0, 3 * nComps))] as the
    three non-parametric methods call it once the optimizer is done.
    The closure is still in simultaneous mode and reads its baseline
    parameters behind the end of the slice, as [undefined].  For AsLS
    and Shirley the NaN this makes runs through the whole estimate and
    [|| 0] turns it into [0], so the call returns the peak sum.  For the
    rolling ball on three or more points the window bounds are NaN, no
    window is visited, the estimate is [Infinity] at every point and so
    is the value of the call ([None]). *)
Definition peakModel (components : list PeakComponent) (o : BaselineOptions)
    (xVals params : list R) : option (list R) :=
  let peakOnly :=
    peakContributions components xVals
                      (firstn (length components * 3) params) in
  match method o with
  | Mrolling_ball =>
      if (length xVals <? 3)%nat then Some peakOnly else None
  | _ => Some peakOnly
  end.

(** The optimized baseline and its parameters; [None] when the baseline
    is infinite. *)
Definition optimizedBaselineOf (components : list PeakComponent)
    (o : BaselineOptions) (xVals yVals params : list R)
    : option (option (list DataPoint) * option BaselineParams) :=
  let blParamsStart := (length components * 3)%nat in
  let minusPeaks peakModel :=
    JS.mapi (fun y i => y - JS.get 0 peakModel i) yVals in
  match method o with
  | Mlinear =>
      let slope := JS.get 0 params blParamsStart in
      let intercept := JS.get 0 params (blParamsStart + 1) in
      Some (Some (map (fun x => mkPoint x (slope * x + intercept)) xVals),
            Some (mkBaselineParams (Some slope) (Some intercept)
                                   None None None None))
  | Mpolynomial =>
      let degree := JS.coalesce (degree o) 2%nat in
      let coeffs :=
        map (fun d => JS.get 0 params (blParamsStart + d))
            (JS.range 0 (degree + 1)) in
      Some (Some (map (fun x => mkPoint x (evalPoly coeffs degree x)) xVals),
            Some (mkBaselineParams None None (Some coeffs) None None None))
  | Masls =>
      let logLam := JS.get 0 params blParamsStart in
      let p := JS.get 0 params (blParamsStart + 1) in
      let lambda := Rpower 10 logLam in
      match peakModel components o xVals params with
      | None => None
      | Some peakModel =>
          let aslsData := pointsOf xVals (minusPeaks peakModel) in
          Some (Some (Div.value (aslsBaseline aslsData lambda p 10)),
                Some (mkBaselineParams None None None (Some lambda) (Some p)
                                       None))
      end
  | Mrolling_ball =>
      let radius := Rmax 1 (JS.round (JS.get 0 params blParamsStart)) in
      match peakModel components o xVals params with
      | None => None
      | Some peakModel =>
          let rbData := pointsOf xVals (minusPeaks peakModel) in
          Some (Some (rollingBallBaseline rbData radius),
                Some (mkBaselineParams None None None None None
                                       (Some radius)))
      end
  | Mshirley =>
      let startOffset := JS.get 0 params blParamsStart in
      let endOffset := JS.get 0 params (blParamsStart + 1) in
      match peakModel components o xVals params with
      | None => None
      | Some peakModel =>
          let adjustedData :=
            adjustEnds (minusPeaks peakModel) startOffset endOffset in
          let shirleyData := pointsOf xVals adjustedData in
          Some (Some (shirleyBaseline shirleyData
                        (JS.coalesce (shirleyIterations o) 50%nat)
                        (JS.coalesce (shirleyTolerance o) 1e-5)),
                None)
      end
  | _ => Some (None, None)
  end.

(** *** Curves and statistics *)

(** What the loop over [data] builds up. *)
Record Curves := mkCurves {
  c_fittedData : list DataPoint;
  c_residuals : list DataPoint;
  c_baselineCorrectedData : list DataPoint;
  c_componentData : list (list DataPoint);
  c_sumSquaredResiduals : R;
  c_sumSquaredTotal : R
}.

Definition curvesStep (finalBaselineMap : NumMap)
    (optimizedParams : list PeakComponent) (meanY : R)
    (acc : Curves) (d : DataPoint) : Curves :=
  let baselineY := JS.orElse (mapGet finalBaselineMap (x d)) 0 in
  let correctedY := y d - baselineY in
  let fittedY :=
    fold_left (fun fittedY comp => fittedY + Profiles.calculatePeak (x d) comp)
              optimizedParams 0 in
  let componentData :=
    map (fun cc =>
           fst cc ++ [mkPoint (x d) (Profiles.calculatePeak (x d) (snd cc))])
        (combine (c_componentData acc) optimizedParams) in
  let correctedYNorm := correctedY / normFactor in
  let fittedYNorm := fittedY / normFactor in
  mkCurves
    (c_fittedData acc ++ [mkPoint (x d) fittedY])
    (c_residuals acc ++ [mkPoint (x d) (correctedY - fittedY)])
    (c_baselineCorrectedData acc ++ [mkPoint (x d) correctedY])
    componentData
    (c_sumSquaredResiduals acc + (correctedYNorm - fittedYNorm) ^ 2)
    (c_sumSquaredTotal acc + (y d / normFactor - meanY / normFactor) ^ 2).

Definition curvesOf (data : list DataPoint) (finalBaseline : list DataPoint)
    (optimizedParams : list PeakComponent) : Curves :=
  let finalBaselineMap := baselineLookup finalBaseline in
  let meanY := fold_left (fun sum d => sum + y d) data 0 / INR (length data) in
  fold_left (curvesStep finalBaselineMap optimizedParams meanY) data
            (mkCurves [] [] [] (map (fun _ => []) optimizedParams) 0 0).

Definition emptyResult (components : list PeakComponent) : FitResult :=
  mkFitResult [] [] [] [] [] 0 0 0 0 0 0 0 components 0 false None None.

(** Everything [fitPeaks] needs from its arguments to run the
    optimizer and to read its result. *)
Record Setup := mkSetup {
  s_xVals : list R;
  s_yVals : list R;
  s_targetYVals : list R;
  s_initialParams : list R;
  s_numBaselineParams : nat;
  s_modelFunc : list R -> list R -> list R
}.

Definition setup (data : list DataPoint) (components : list PeakComponent)
    (baseline : list DataPoint) (baselineOptions : option BaselineOptions)
    : Setup :=
  let xVals := map x data in
  let yVals := map y data in
  let baselineMap := baselineLookup baseline in
  let optimizeBaseline := optimizeBaseline baselineOptions in
  let initialBaselineYVals :=
    map (fun x => JS.orElse (mapGet baselineMap x) 0) xVals in
  let packed :=
    match baselineOptions with
    | Some o => if optimizeBaseline then packBaseline o else ([], 0%nat)
    | None => ([], 0%nat)
    end in
  let initialParams := packComponents components ++ fst packed in
  let numBaselineParams := snd packed in
  let modelFunc :=
    modelFunc components baselineOptions yVals numBaselineParams in
  let targetYVals :=
    if optimizeBaseline then yVals
    else JS.mapi (fun y i => y - JS.get 0 initialBaselineYVals i) yVals in
  mkSetup xVals yVals targetYVals initialParams numBaselineParams modelFunc.

(** The call of the optimizer inside [fitPeaks]. *)
Definition optimize (data : list DataPoint) (components : list PeakComponent)
    (baseline : list DataPoint) (baselineOptions : option BaselineOptions)
    (maxIterations : nat) : option LM.LMResult :=
  let s := setup data components baseline baselineOptions in
  LM.levenbergMarquardt (s_xVals s) (s_targetYVals s) (s_initialParams s)
    (s_modelFunc s)
    (LM.mkLMOptions (Some maxIterations) (Some 1e-8) None None None).

Definition fitPeaks (data : list DataPoint) (components : list PeakComponent)
    (baseline : list DataPoint) (baselineOptions : option BaselineOptions)
    (maxIterations : nat) : Outcome :=
  if ((length data =? 0) || (length components =? 0))%nat
  then Returns (emptyResult components)
  else
    let s := setup data components baseline baselineOptions in
    let xVals := s_xVals s in
    let yVals := s_yVals s in
    let numBaselineParams := s_numBaselineParams s in
    let optimizeBaseline := optimizeBaseline baselineOptions in
    match optimize data components baseline baselineOptions maxIterations
    with
    | None => Throws
    | Some lmResult =>
        let optimizedParams := unpack components (LM.params lmResult) in
        let n := INR (length data) in
        let p := INR (length optimizedParams * 3 + numBaselineParams) in
        let chiSquared := LM.chiSquared lmResult in
        let dof := Rmax 1 (n - p) in
        let reducedChiSquared := chiSquared / dof in
        let optimized :=
          match baselineOptions with
          | Some o =>
              if optimizeBaseline && (0 <? numBaselineParams)%nat
              then optimizedBaselineOf components o xVals yVals
                                       (LM.params lmResult)
              else Some (None, None)
          | None => Some (None, None)
          end in
        match optimized with
        | None =>
            let c := curvesOf data [] optimizedParams in
            NonFinite (mkFinitePart (c_fittedData c) (c_componentData c) 0
                                    chiSquared reducedChiSquared
                                    optimizedParams
                                    (LM.iterations lmResult)
                                    (LM.converged lmResult))
        | Some (optimizedBaseline, optimizedBaselineParams) =>
            let finalBaseline := JS.coalesce optimizedBaseline baseline in
            let c := curvesOf data finalBaseline optimizedParams in
            let sumSquaredResiduals := c_sumSquaredResiduals c in
            let sumSquaredTotal := c_sumSquaredTotal c in
            let rSquared :=
              1 - sumSquaredResiduals / JS.orNum sumSquaredTotal 1 in
            let adjustedRSquared :=
              1 - (1 - rSquared) * (n - 1) / (n - p - 1) in
            let rmse := sqrt (sumSquaredResiduals / n) in
            let logLikelihood := - n / 2 * ln (sumSquaredResiduals / n) in
            let aic := 2 * p - 2 * logLikelihood in
            let bic := p * ln n - 2 * logLikelihood in
            Returns (mkFitResult
                       (c_fittedData c) (c_residuals c) (c_componentData c)
                       finalBaseline (c_baselineCorrectedData c)
                       (Rmax 0 rSquared) (Rmax 0 adjustedRSquared) rmse
                       chiSquared reducedChiSquared aic bic
                       optimizedParams
                       (LM.iterations lmResult) (LM.converged lmResult)
                       optimizedBaseline optimizedBaselineParams)
        end
    end.

End Fit.

(** ** Initial guesses ([src/lib/peakInitializers.ts])

    [nPeaks] is a count: an integer-valued number, kept as an integer. *)

Module Initializers.

Import Baseline.

(** [a.sort(cmp)], the stable sort: every element is inserted behind the
    elements it does not come strictly before ([cmp(p, h) < 0] is
    [before p h]). *)
Fixpoint insertBy {A} (before : A -> A -> bool) (p : A) (sorted : list A)
    : list A :=
  match sorted with
  | [] => [p]
  | h :: t => if before p h then p :: h :: t else h :: insertBy before p t
  end.

Definition sortBy {A} (before : A -> A -> bool) (l : list A) : list A :=
  fold_left (fun sorted p => insertBy before p sorted) l [].

Definition initEvenlySpaced (data : list DataPoint) (nPeaks : Z)
    (profile : Profile) : list PeakComponent :=
  if (length data =? 0)%nat || (nPeaks <? 1)%Z then []
  else
    let xMin := JS.minList (map x data) in
    let xMax := JS.maxList (map x data) in
    let xRange := JS.orNum (xMax - xMin) 1 in
    let yMax := JS.maxList (map y data) in
    let yMin := JS.minList (map y data) in
    let baseAmplitude := Rmax ((yMax - yMin) / IZR nPeaks) (yMax * 0.5) in
    let defaultWidth := xRange / (4 * IZR nPeaks) in
    map (fun i =>
           let center := xMin + ((INR i + 1) / (IZR nPeaks + 1)) * xRange in
           mkComponent (Z.of_nat i + 1) profile center baseAmplitude
                       defaultWidth 1.0 None None)
        (JS.range 0 (Z.to_nat nPeaks)).

(** The index of the sample closest to [center]: the first one at the
    smallest distance. *)
Definition closestIndex (data : list DataPoint) (center : R) : nat :=
  fst (fold_left
         (fun (st : nat * option R) i =>
            let dist := Rabs (x (JS.get origin data i) - center) in
            match snd st with
            | None => (i, Some dist)
            | Some minDist =>
                if Rlt_dec dist minDist then (i, Some dist) else st
            end)
         (JS.range 0 (length data)) (0%nat, None)).

(** [estimateWidth], on a non-empty array (on an empty one the source
    throws at [data[centerIdx].y]; its one caller passes three samples
    or more).  Each of the two searches stops at the first sample at or
    below half of the centre's intensity. *)
Definition estimateWidth (data : list DataPoint) (center : R) : R :=
  let xRange := JS.maxList (map x data) - JS.minList (map x data) in
  let centerIdx := closestIndex data center in
  let centerY := y (JS.get origin data centerIdx) in
  let halfMax := centerY / 2 in
  let atOrBelow i := JS.leb (y (JS.get origin data i)) halfMax in
  let leftWidth :=
    match find atOrBelow (rev (JS.range 0 centerIdx)) with
    | Some i => center - x (JS.get origin data i)
    | None => xRange / 20
    end in
  let rightWidth :=
    match find atOrBelow (JS.range (centerIdx + 1) (length data)) with
    | Some i => x (JS.get origin data i) - center
    | None => xRange / 20
    end in
  Rmax (leftWidth + rightWidth) (xRange / (INR (length data) / 10)).

(** A local maximum: [{ x, y, prominence }]. *)
Record Candidate := mkCandidate {
  cx : R;
  cy : R;
  prominence : R
}.

(** The lowest intensity met on the walk along [idx] away from a
    maximum of height [yi]; the walk ends behind the first sample
    higher than the maximum. *)
Fixpoint valley (y : list R) (yi : R) (idx : list nat) (lowest : R) : R :=
  match idx with
  | [] => lowest
  | j :: rest =>
      let lowest :=
        if Rlt_dec (JS.get 0 y j) lowest then JS.get 0 y j else lowest in
      if Rgt_dec (JS.get 0 y j) yi then lowest
      else valley y yi rest lowest
  end.

(** The local maxima of more than 5% prominence, from left to right. *)
Definition findPeaks (x y : list R) (yRange : R) : list Candidate :=
  fold_left
    (fun peaks i =>
       let yi := JS.get 0 y i in
       if Rgt_dec yi (JS.get 0 y (i - 1))
       then if Rgt_dec yi (JS.get 0 y (i + 1))
            then
              let leftValley := valley y yi (rev (JS.range 0 i)) yi in
              let rightValley :=
                valley y yi (JS.range (i + 1) (length y)) yi in
              let prominence := yi - Rmax leftValley rightValley in
              if Rgt_dec prominence (yRange * 0.05)
              then peaks ++ [mkCandidate (JS.get 0 x i) yi prominence]
              else peaks
            else peaks
       else peaks)
    (JS.range 1 (length y - 1)) [].

(** [{ id, profile, center: peak.x, amplitude: peak.y,
       width: estimateWidth(data, peak.x), weight: 1.0 }] *)
Definition fromCandidate (data : list DataPoint) (profile : Profile)
    (id : Z) (peak : Candidate) : PeakComponent :=
  mkComponent id profile (cx peak) (cy peak) (estimateWidth data (cx peak))
              1.0 None None.

(** [{ ...c, id }] *)
Definition withId (c : PeakComponent) (i : Z) : PeakComponent :=
  mkComponent i (profile c) (center c) (amplitude c) (width c) (weight c)
              (sigma c) (gamma c).

Definition initWithGMM (data : list DataPoint) (nPeaks : Z)
    (profile : Profile) : list PeakComponent :=
  if (length data <? 3)%nat || (nPeaks <? 1)%Z
  then initEvenlySpaced data nPeaks profile
  else
    let y := map y data in
    let x := map x data in
    let yMax := JS.maxList y in
    let yMin := JS.minList y in
    let yRange := yMax - yMin in
    if Req_dec_T yRange 0 then initEvenlySpaced data nPeaks profile
    else
      let peaks := findPeaks x y yRange in
      let peaks :=
        sortBy (fun a b => JS.ltb (prominence b) (prominence a)) peaks in
      let selectedPeaks := firstn (Z.to_nat nPeaks) peaks in
      let selectedPeaks :=
        sortBy (fun a b => JS.ltb (cx a) (cx b)) selectedPeaks in
      if (Z.of_nat (length selectedPeaks) <? nPeaks)%Z then
        let evenlySpaced :=
          initEvenlySpaced data (nPeaks - Z.of_nat (length selectedPeaks))
                           profile in
        let found :=
          JS.mapi (fun peak i => fromCandidate data profile (Z.of_nat i + 1) peak)
                  selectedPeaks in
        let spaced :=
          JS.mapi (fun comp i =>
                     withId comp (Z.of_nat (length selectedPeaks + i) + 1))
                  evenlySpaced in
        let result := found ++ spaced in
        JS.mapi (fun c i => withId c (Z.of_nat i + 1))
                (sortBy (fun a b => JS.ltb (center a) (center b)) result)
      else
        JS.mapi (fun peak i => fromCandidate data profile (Z.of_nat i + 1) peak)
                selectedPeaks.

End Initializers.

(** ** Preprocessing ([processData] and its helpers)

    Window length and polynomial order are counts, kept as natural
    numbers.  The resampling loop runs its abscissa through
    [interpMin, interpMin + step, ...]; it is written on the number of
    passes left, and [gridSize] is the number of passes the loop makes. *)

Module Processing.

Import Baseline Initializers.

Record Smoothing := mkSmoothing {
  enabled : bool;
  windowLength : nat;
  polyOrder : nat
}.

Inductive OutlierMethod := Onone | Ozscore | Oiqr.

Record OutlierRemoval := mkOutlierRemoval {
  outlierMethod : OutlierMethod;
  threshold : R
}.

Record ProcessingOptions := mkProcessing {
  xMin : option R;
  xMax : option R;
  interpolationStep : option R;
  normalize : bool;
  smoothing : option Smoothing;
  outlierRemoval : option OutlierRemoval
}.

(** *** Outliers *)

Definition removeOutliersZScore (data : list DataPoint) (threshold : R)
    : list DataPoint :=
  if (length data <? 3)%nat then data
  else
    let ys := map y data in
    let mean := JS.sum ys / INR (length ys) in
    let std :=
      sqrt (fold_left (fun sum val => sum + (val - mean) ^ 2) ys 0
            / INR (length ys)) in
    if Req_dec_T std 0 then data
    else filter (fun d => JS.ltb (Rabs ((y d - mean) / std)) threshold)
                data.

(** [Math.floor(n * q)] as an index. *)
Definition quantileIndex (n : nat) (q : R) : nat :=
  Z.to_nat (Zfloor (INR n * q)).

Definition removeOutliersIQR (data : list DataPoint) (factor : R)
    : list DataPoint :=
  if (length data <? 4)%nat then data
  else
    let sorted := sortBy (fun a b => JS.ltb a b) (map y data) in
    let n := length sorted in
    let q1 := JS.get 0 sorted (quantileIndex n 0.25) in
    let q3 := JS.get 0 sorted (quantileIndex n 0.75) in
    let iqr := q3 - q1 in
    let lowerBound := q1 - factor * iqr in
    let upperBound := q3 + factor * iqr in
    filter (fun d => (if Rge_dec (y d) lowerBound then true else false)
                     && JS.leb (y d) upperBound)
           data.

(** *** Savitzky-Golay *)

(** The integers [lo, lo + 1, ..., hi - 1]. *)
Definition zrange (lo hi : Z) : list Z :=
  map (fun k => (lo + Z.of_nat k)%Z) (seq 0 (Z.to_nat (hi - lo))).

(** A sample of the window, reflected at either end of the array. *)
Definition reflected (y : list R) (n : nat) (j : Z) : R :=
  if (j <? 0)%Z then JS.get 0 y (Z.to_nat (- j))
  else if (j >=? Z.of_nat n)%Z
       then JS.get 0 y (Z.to_nat (2 * Z.of_nat n - j - 2))
       else JS.get 0 y (Z.to_nat j).

Definition savitzkyGolaySmooth (y : list R) (windowLength polyOrder : nat)
    : list R :=
  let n := length y in
  if (n <? windowLength)%nat then y
  else
    let windowLength :=
      if (windowLength mod 2 =? 0)%nat then (windowLength + 1)%nat
      else windowLength in
    let polyOrder :=
      if (windowLength <=? polyOrder)%nat then (windowLength - 1)%nat
      else polyOrder in
    let halfWindow := (windowLength / 2)%nat in
    map (fun i =>
           let start := (Z.of_nat i - Z.of_nat halfWindow)%Z in
           let stop := (Z.of_nat i + Z.of_nat halfWindow)%Z in
           let windowY := map (reflected y n) (zrange start (stop + 1)) in
           let m := length windowY in
           let x :=
             map (fun k => IZR (Z.of_nat k - Z.of_nat halfWindow))
                 (JS.range 0 m) in
           let V :=
             map (fun k => map (fun p => JS.get 0 x k ^ p)
                               (JS.range 0 (polyOrder + 1)))
                 (JS.range 0 m) in
           let VtV :=
             map (fun r =>
                    map (fun c =>
                           fold_left (fun sum k =>
                                        sum + LM.at_ V k r * LM.at_ V k c)
                                     (JS.range 0 m) 0)
                        (JS.range 0 (polyOrder + 1)))
                 (JS.range 0 (polyOrder + 1)) in
           let VtY :=
             map (fun r =>
                    fold_left (fun sumY k =>
                                 sumY + LM.at_ V k r * JS.get 0 windowY k)
                              (JS.range 0 m) 0)
                 (JS.range 0 (polyOrder + 1)) in
           let coeffs := solveLinearSystem VtV VtY in
           JS.get 0 coeffs 0)
        (JS.range 0 n).

(** *** Resampling *)

(** The value on the new grid at [xi]: the line through the first two
    samples left of the data, the line through the last two right of it,
    the chord of the first segment that does not end before [xi]
    inside. *)
Definition interpolateAt (processed : list DataPoint) (xi : R) : R :=
  let g := JS.get origin processed in
  let n := length processed in
  let dataXMin := x (g 0%nat) in
  let dataXMax := x (g (n - 1)%nat) in
  if Rle_dec xi dataXMin then
    let slope := (y (g 1%nat) - y (g 0%nat))
                 / (x (g 1%nat) - x (g 0%nat)) in
    y (g 0%nat) + slope * (xi - x (g 0%nat))
  else if Rge_dec xi dataXMax then
    let slope := (y (g (n - 1)%nat) - y (g (n - 2)%nat))
                 / (x (g (n - 1)%nat) - x (g (n - 2)%nat)) in
    y (g (n - 1)%nat) + slope * (xi - x (g (n - 1)%nat))
  else
    match find (fun i => negb (JS.ltb (x (g (i + 1)%nat)) xi))
               (JS.range 0 (n - 1)) with
    | Some i =>
        let x1 := x (g i) in
        let y1 := y (g i) in
        let x2 := x (g (i + 1)%nat) in
        let y2 := y (g (i + 1)%nat) in
        let t := (xi - x1) / (x2 - x1) in
        y1 + t * (y2 - y1)
    | None => y (g (n - 1)%nat)
    end.

(** [for (let x = ...; x <= bound; x += step) newData.push(...)], with
    [remaining] passes to go. *)
Fixpoint resample (remaining : nat) (processed : list DataPoint)
    (step bound x : R) (newData : list DataPoint) : list DataPoint :=
  match remaining with
  | O => newData
  | S remaining' =>
      if Rle_dec x bound
      then resample remaining' processed step bound (x + step)
                    (newData ++ [mkPoint x (interpolateAt processed x)])
      else newData
  end.

(** The number of grid points [interpMin + k * step] up to [bound]. *)
Definition gridSize (interpMin bound step : R) : nat :=
  Z.to_nat (Zfloor ((bound - interpMin) / step) + 1).

(** *** The pipeline *)

Definition removeOutliers (options : ProcessingOptions)
    (processed : list DataPoint) : list DataPoint :=
  match outlierRemoval options with
  | Some o =>
      match outlierMethod o with
      | Ozscore => removeOutliersZScore processed (threshold o)
      | Oiqr => removeOutliersIQR processed (threshold o)
      | Onone => processed
      end
  | None => processed
  end.

Definition crop (options : ProcessingOptions) (processed : list DataPoint)
    : list DataPoint :=
  match xMin options, xMax options with
  | None, None => processed
  | _, _ =>
      filter (fun d =>
                let aboveMin :=
                  match xMin options with
                  | None => true
                  | Some lo => if Rge_dec (x d) lo then true else false
                  end in
                let belowMax :=
                  match xMax options with
                  | None => true
                  | Some hi => JS.leb (x d) hi
                  end in
                aboveMin && belowMax)
             processed
  end.

Definition interpolate (options : ProcessingOptions)
    (processed : list DataPoint) : list DataPoint :=
  match interpolationStep options with
  | Some step =>
      if Rgt_dec step 0 then
        if (2 <=? length processed)%nat then
          let dataXMin := x (JS.get origin processed 0) in
          let dataXMax :=
            x (JS.get origin processed (length processed - 1)) in
          let interpMin := JS.coalesce (xMin options) dataXMin in
          let interpMax := JS.coalesce (xMax options) dataXMax in
          let bound := interpMax + step * 0.001 in
          resample (gridSize interpMin bound step) processed step bound
                   interpMin []
        else processed
      else processed
  | None => processed
  end.

Definition smooth (options : ProcessingOptions) (processed : list DataPoint)
    : list DataPoint :=
  match smoothing options with
  | Some s =>
      let windowLength := JS.orCount (Some (windowLength s)) 11 in
      if enabled s && (windowLength <=? length processed)%nat then
        let yValues := map y processed in
        let polyOrder := JS.orCount (Some (polyOrder s)) 3 in
        let smoothed := savitzkyGolaySmooth yValues windowLength polyOrder in
        withY processed smoothed
      else processed
  | None => processed
  end.

Definition normalized (options : ProcessingOptions)
    (processed : list DataPoint) : list DataPoint :=
  if normalize options && (0 <? length processed)%nat then
    let maxY := JS.maxList (map (fun d => Rabs (y d)) processed) in
    if Rgt_dec maxY 0
    then map (fun d => mkPoint (x d) (y d / maxY)) processed
    else processed
  else processed.

Definition processData (data : list DataPoint) (options : ProcessingOptions)
    : list DataPoint :=
  let processed := data in
  let processed := removeOutliers options processed in
  let processed := crop options processed in
  let processed := interpolate options processed in
  let processed := smooth options processed in
  normalized options processed.

End Processing.

(** ** The gradient-descent fit (the earlier [src/lib/peakFitting.ts])

    The earlier version of the module fits by coordinate-wise gradient
    descent.  Its components carry no [weight]; its three profile
    functions are those of the current version. *)

Module Legacy.

Record PeakComponent := mkComponent {
  id : Z;
  profile : Profile;
  center : R;
  amplitude : R;
  width : R;
  sigma : option R;
  gamma : option R
}.

Record FitResult := mkFitResult {
  fittedData : list DataPoint;
  residuals : list DataPoint;
  components : list (list DataPoint);
  baseline : list DataPoint;
  rSquared : R;
  rmse : R;
  parameters : list PeakComponent
}.

Definition calculatePeak (x : R) (component : PeakComponent) : R :=
  let sigma := JS.orElse (sigma component) (width component / 2.355) in
  let gamma := JS.orElse (gamma component) (width component / 2) in
  match profile component with
  | gaussianP =>
      Profiles.gaussian x (center component) (amplitude component) sigma
  | lorentzianP =>
      Profiles.lorentzian x (center component) (amplitude component) gamma
  | voigtP =>
      Profiles.voigt x (center component) (amplitude component) sigma gamma
  end.

Definition calculateTotalError (data : list DataPoint)
    (params : list PeakComponent) (baselineMap : Fit.NumMap) : R :=
  fold_left
    (fun totalError d =>
       let baselineY := JS.orElse (Fit.mapGet baselineMap (x d)) 0 in
       let correctedY := y d - baselineY in
       let fittedY :=
         fold_left (fun fittedY comp => fittedY + calculatePeak (x d) comp)
                   params 0 in
       totalError + (correctedY - fittedY) ^ 2)
    data 0.

(** Assignments to the fields of [param]. *)
Definition withCenter (c : PeakComponent) (v : R) : PeakComponent :=
  mkComponent (id c) (profile c) v (amplitude c) (width c) (sigma c) (gamma c).
Definition withAmplitude (c : PeakComponent) (v : R) : PeakComponent :=
  mkComponent (id c) (profile c) (center c) v (width c) (sigma c) (gamma c).
Definition withWidth (c : PeakComponent) (v : R) : PeakComponent :=
  mkComponent (id c) (profile c) (center c) (amplitude c) v (sigma c) (gamma c).

Definition noComponent : PeakComponent :=
  mkComponent 0 gaussianP 0 0 0 None None.

(** The body of [for (const param of params)], for the component at
    index [j].  [param] is an element of [params]: every assignment to
    one of its fields is seen by the next [calculateTotalError]. *)
Definition descend (data : list DataPoint) (baselineMap : Fit.NumMap)
    (params : list PeakComponent) (j : nat) : list PeakComponent :=
  let learningRate := 0.01 in
  let param params := JS.get noComponent params j in
  let assign params c := JS.set params j c in
  let currentError := calculateTotalError data params baselineMap in
  let delta := 0.01 in
  (* center *)
  let params :=
    assign params
      (withCenter (param params) (center (param params) + delta)) in
  let errorAfterCenter := calculateTotalError data params baselineMap in
  let gradCenter := (errorAfterCenter - currentError) / delta in
  let params :=
    assign params
      (withCenter (param params)
         (center (param params) - (delta + learningRate * gradCenter))) in
  (* amplitude *)
  let params :=
    assign params
      (withAmplitude (param params) (amplitude (param params) + delta)) in
  let errorAfterAmp := calculateTotalError data params baselineMap in
  let gradAmp := (errorAfterAmp - currentError) / delta in
  let params :=
    assign params
      (withAmplitude (param params)
         (amplitude (param params) - (delta + learningRate * gradAmp))) in
  let params :=
    assign params
      (withAmplitude (param params) (Rmax 0 (amplitude (param params)))) in
  (* width *)
  let params :=
    assign params
      (withWidth (param params) (width (param params) + delta)) in
  let errorAfterWidth := calculateTotalError data params baselineMap in
  let gradWidth := (errorAfterWidth - currentError) / delta in
  let params :=
    assign params
      (withWidth (param params)
         (width (param params) - (delta + learningRate * gradWidth))) in
  assign params (withWidth (param params) (Rmax 0.1 (width (param params)))).

(** One pass over all components, and [iterations] passes. *)
Definition sweep (data : list DataPoint) (baselineMap : Fit.NumMap)
    (params : list PeakComponent) : list PeakComponent :=
  fold_left (descend data baselineMap) (JS.range 0 (length params)) params.

Definition descentLoop (data : list DataPoint) (baselineMap : Fit.NumMap)
    (params : list PeakComponent) (iterations : nat) : list PeakComponent :=
  fold_left (fun params (_ : nat) => sweep data baselineMap params)
            (JS.range 0 iterations) params.

(** What the loop over [data] builds up. *)
Record Results := mkResults {
  r_fittedData : list DataPoint;
  r_residuals : list DataPoint;
  r_componentData : list (list DataPoint);
  r_sumSquaredResiduals : R;
  r_sumSquaredTotal : R
}.

Definition resultsStep (baselineMap : Fit.NumMap)
    (params : list PeakComponent) (meanY : R) (acc : Results) (d : DataPoint)
    : Results :=
  let baselineY := JS.orElse (Fit.mapGet baselineMap (x d)) 0 in
  let correctedY := y d - baselineY in
  let fittedY :=
    fold_left (fun fittedY comp => fittedY + calculatePeak (x d) comp)
              params 0 in
  let componentData :=
    map (fun cc => fst cc ++ [mkPoint (x d) (calculatePeak (x d) (snd cc))])
        (combine (r_componentData acc) params) in
  mkResults
    (r_fittedData acc ++ [mkPoint (x d) (fittedY + baselineY)])
    (r_residuals acc ++ [mkPoint (x d) (correctedY - fittedY)])
    componentData
    (r_sumSquaredResiduals acc + (correctedY - fittedY) ^ 2)
    (r_sumSquaredTotal acc + (y d - meanY) ^ 2).

Definition fitPeaks (data : list DataPoint) (components : list PeakComponent)
    (baseline : list DataPoint) (iterations : nat) : FitResult :=
  if (length data =? 0)%nat
  then mkFitResult [] [] [] [] 0 0 components
  else
    let baselineMap := Fit.baselineLookup baseline in
    let params := descentLoop data baselineMap components iterations in
    let meanY :=
      fold_left (fun sum d => sum + y d) data 0 / INR (length data) in
    let c :=
      fold_left (resultsStep baselineMap params meanY) data
                (mkResults [] [] (map (fun _ => []) params) 0 0) in
    let rSquared :=
      1 - r_sumSquaredResiduals c / JS.orNum (r_sumSquaredTotal c) 1 in
    let rmse := sqrt (r_sumSquaredResiduals c / INR (length data)) in
    mkFitResult (r_fittedData c) (r_residuals c) (r_componentData c)
                baseline (Rmax 0 rSquared) rmse params.

End Legacy.

(** ** The rolling ball in the words of the specification

    "Sliding-window minimum with window radius r (inclusive [i-r, i+r]),
    followed by 3 passes of a 3-point moving average": each pass averages
    the output of the pass before it and leaves the two endpoints as they
    are. *)

Module Spec.

Definition movingAverage (v : list R) : list R :=
  JS.mapi (fun vi i =>
             if ((1 <=? i) && (i <? length v - 1))%nat
             then (JS.get 0 v (i - 1) + vi + JS.get 0 v (i + 1)) / 3
             else vi)
          v.

Definition rollingBall (data : list DataPoint) (radius : R)
    : list DataPoint :=
  if (length data <? 3)%nat then Baseline.zeroBaseline data
  else
    let envelope := Baseline.rollingMin (map y data) radius in
    Baseline.withY data
      (movingAverage (movingAverage (movingAverage envelope))).

End Spec.

(** * Properties *)

(** ** Arrays and comparisons *)

Module JSFacts.

Import JS.

Lemma ltb_true a b : ltb a b = true <-> a < b.
Proof. unfold ltb. destruct (Rlt_dec a b); split; intros; try easy. Qed.

Lemma ltb_false a b : ltb a b = false <-> b <= a.
Proof.
  unfold ltb. destruct (Rlt_dec a b); split; intros; try easy; lra.
Qed.

Lemma leb_true a b : leb a b = true <-> a <= b.
Proof. unfold leb. destruct (Rle_dec a b); split; intros; try easy. Qed.

Lemma leb_false a b : leb a b = false <-> b < a.
Proof.
  unfold leb. destruct (Rle_dec a b); split; intros; try easy; lra.
Qed.

Lemma length_set {A} (a : list A) i v : length (set a i v) = length a.
Proof.
  revert i. induction a as [|h t IH]; intros [|j]; simpl; auto.
Qed.

Lemma get_set_same {A} (d : A) a i v :
  (i < length a)%nat -> get d (set a i v) i = v.
Proof.
  unfold get. revert i.
  induction a as [|h t IH]; intros [|j] H; simpl in *; try lia; auto.
  apply IH. lia.
Qed.

Lemma get_set_other {A} (d : A) a i j v :
  i <> j -> get d (set a i v) j = get d a j.
Proof.
  unfold get. revert i j.
  induction a as [|h t IH]; intros [|i] [|j] H; simpl; auto; try easy.
Qed.

Lemma length_fill {A} n (v : A) : length (fill n v) = n.
Proof. apply repeat_length. Qed.

End JSFacts.

(** ** Peak profiles *)

Module ProfilesFacts.

Import Profiles.

Lemma gaussian_at_center c a s : gaussian c c a s = a.
Proof.
  unfold gaussian.
  replace (- (c - c) ^ 2 / (2 * s ^ 2)) with 0.
  - rewrite exp_0. ring.
  - unfold Rdiv. replace (c - c) with 0 by ring. simpl. ring.
Qed.

Lemma lorentzian_at_center c a g : g <> 0 -> lorentzian c c a g = a.
Proof.
  intros Hg. unfold lorentzian. field.
  replace (c - c) with 0 by ring. simpl.
  nra.
Qed.

End ProfilesFacts.

(** ** Claims about the peak profile model *)

Module ProfileClaims.

Import Profiles ProfilesFacts.

(** C1.  A component with FWHM [width > 0], [weight] in [[0, 2]] and no
    [sigma]/[gamma] override evaluates, at [x = center], to
    [amplitude * weight], whichever of the three profiles it has. *)
Theorem C1_peak_value_at_center (c : PeakComponent) :
  0 < width c ->
  0 <= weight c <= 2 ->
  sigma c = None ->
  gamma c = None ->
  calculatePeak (center c) c = amplitude c * weight c.
Proof.
  intros Hw _ Hs Hg. unfold calculatePeak. rewrite Hs, Hg. simpl.
  destruct (profile c).
  - apply gaussian_at_center.
  - apply lorentzian_at_center. lra.
  - unfold voigt. rewrite gaussian_at_center.
    rewrite lorentzian_at_center by lra. ring.
Qed.

Definition sampleVoigt : PeakComponent :=
  mkComponent 1 voigtP 3 5 2 (1 / 2) None None.

Lemma C1_witness :
  calculatePeak (center sampleVoigt) sampleVoigt
  = amplitude sampleVoigt * weight sampleVoigt.
Proof.
  apply (C1_peak_value_at_center sampleVoigt); simpl; try reflexivity; lra.
Defined.

End ProfileClaims.

(** ** The banded solver divides by guarded diagonals only *)

Module DivFacts.

Import Div.

Lemma divisors_bind {A B} (m : M A) (f : A -> M B) :
  divisors (bind m f) = divisors m ++ divisors (f (value m)).
Proof.
  unfold bind, divisors, value. destruct m as [a l1]. simpl.
  destruct (f a) as [b l2]. reflexivity.
Qed.

Lemma value_bind {A B} (m : M A) (f : A -> M B) :
  value (bind m f) = value (f (value m)).
Proof.
  unfold bind, value. destruct m as [a l1]. simpl.
  destruct (f a) as [b l2]. reflexivity.
Qed.

(** A loop keeps a property of its divisors when every pass does, under
    an invariant on the state and the indices still to run. *)
Lemma foldM_invariant {S I} (Q : R -> Prop) (Inv : S -> list I -> Prop)
    (body : S -> I -> M S) :
  (forall s i rest,
      Inv s (i :: rest) ->
      Forall Q (divisors (body s i)) /\ Inv (value (body s i)) rest) ->
  forall idx s,
    Inv s idx ->
    Forall Q (divisors (foldM body idx s)) /\ Inv (value (foldM body idx s)) [].
Proof.
  intros Hbody idx. induction idx as [|i rest IH]; intros s Hinv; simpl.
  - split; [constructor | exact Hinv].
  - destruct (Hbody s i rest Hinv) as [Hq Hnext].
    destruct (IH _ Hnext) as [Hq' Hend].
    rewrite divisors_bind, value_bind. split; [|exact Hend].
    apply Forall_app. split; assumption.
Qed.

End DivFacts.

Module PentadiagonalClaims.

Import JS JSFacts Div DivFacts Baseline.

(** A divisor the solver may use: magnitude at least [1e-14]. *)
Definition guarded (v : R) : Prop := 1e-14 <= Rabs v.

(** The entries of [diagD] below [k] have been through the guard. *)
Definition guardedBelow (diagD : list R) (k : nat) : Prop :=
  forall j, (j < k)%nat -> guarded (get 0 diagD j).

Lemma guarded_nonzero v : guarded v -> v <> 0.
Proof.
  unfold guarded. intros H Hv. subst v. rewrite Rabs_R0 in H. lra.
Qed.

Lemma length_guardDiag diagD i : length (guardDiag diagD i) = length diagD.
Proof.
  unfold guardDiag. destruct (Rlt_dec _ _); auto using length_set.
Qed.

Lemma guardDiag_at diagD i :
  (i < length diagD)%nat -> guarded (get 0 (guardDiag diagD i) i).
Proof.
  intros Hi. unfold guardDiag, guarded.
  destruct (Rlt_dec (Rabs (get 0 diagD i)) 1e-14) as [Hlt|Hge].
  - rewrite get_set_same by assumption.
    rewrite Rabs_pos_eq; lra.
  - lra.
Qed.

Lemma guardDiag_other diagD i j :
  i <> j -> get 0 (guardDiag diagD i) j = get 0 diagD j.
Proof.
  intros Hij. unfold guardDiag.
  destruct (Rlt_dec _ _); auto using get_set_other.
Qed.

(** Writing entry [i] and guarding it extends the guarded prefix. *)
Lemma guardedBelow_extend diagD i v :
  (i < length diagD)%nat ->
  guardedBelow diagD i ->
  guardedBelow (guardDiag (set diagD i v) i) (i + 1).
Proof.
  intros Hi Hbelow j Hj.
  destruct (Nat.eq_dec j i) as [->|Hne].
  - apply guardDiag_at. now rewrite length_set.
  - rewrite guardDiag_other, get_set_other by congruence.
    apply Hbelow. lia.
Qed.

Lemma factorHead_guarded b c d e n :
  (3 <= n)%nat ->
  let m := factorHead b c d e n in
  Forall guarded (divisors m)
  /\ guardedBelow (diagD (value m)) 2
  /\ length (diagD (value m)) = n.
Proof.
  intros Hn. unfold factorHead.
  set (d0 := guardDiag (set (fill n 0) 0 (get 0 c 0%nat)) 0).
  assert (Hlen0 : length d0 = n).
  { unfold d0. now rewrite length_guardDiag, length_set, length_fill. }
  assert (Hg0 : guardedBelow d0 1).
  { apply (guardedBelow_extend (fill n 0) 0).
    - rewrite length_fill. lia.
    - intros j Hj. lia. }
  set (q1 := get 0 d 0%nat / get 0 d0 0%nat).
  set (l1 := set (fill n 0) 0 q1).
  set (q2 := get 0 e 0%nat / get 0 d0 0%nat).
  set (d1 := guardDiag (set d0 1 (get 0 c 1%nat - get 0 b 1%nat * get 0 l1 0%nat)) 1).
  assert (Hg1 : guardedBelow d1 2).
  { apply (guardedBelow_extend d0 1); [lia | exact Hg0]. }
  assert (Hlen1 : length d1 = n).
  { unfold d1. now rewrite length_guardDiag, length_set. }
  cbv zeta. unfold div, bind, ret, divisors, value. simpl.
  fold d0. fold q1. fold l1. fold d1.
  split; [|split; assumption].
  repeat (apply Forall_cons; [first [apply Hg0; lia | apply Hg1; lia]|]).
  apply Forall_nil.
Qed.

Lemma factorStep_guarded a b c d e n f i :
  (2 <= i < n)%nat ->
  guardedBelow (diagD f) i ->
  length (diagD f) = n ->
  let m := factorStep a b c d e n f i in
  Forall guarded (divisors m)
  /\ guardedBelow (diagD (value m)) (i + 1)
  /\ length (diagD (value m)) = n.
Proof.
  intros Hi Hbelow Hlen. unfold factorStep.
  set (li2 := get 0 a i / get 0 (diagD f) (i - 2)).
  set (li1 := (get 0 b i - li2 * get 0 (diagD f) (i - 2)
                             * get 0 (subL1 f) (i - 2))
              / get 0 (diagD f) (i - 1)).
  set (di := guardDiag (set (diagD f) i
               (get 0 c i - li2 * get 0 (diagD f) (i - 2) * get 0 (subL2 f) (i - 2)
                - li1 * get 0 (diagD f) (i - 1) * get 0 (subL1 f) (i - 1))) i).
  assert (Hgi : guardedBelow di (i + 1)).
  { apply guardedBelow_extend; [lia | exact Hbelow]. }
  assert (Hleni : length di = n).
  { unfold di. now rewrite length_guardDiag, length_set. }
  cbv zeta. unfold div at 1 2.
  unfold bind at 1 2. fold li2. fold li1. fold di.
  assert (Hd2 : guarded (get 0 (diagD f) (i - 2))) by (apply Hbelow; lia).
  assert (Hd1 : guarded (get 0 (diagD f) (i - 1))) by (apply Hbelow; lia).
  assert (Hdi : guarded (get 0 di i)) by (apply Hgi; lia).
  destruct (i <? n - 1)%nat, (i <? n - 2)%nat;
    unfold div, bind, ret, divisors, value; simpl;
    (split; [|split; assumption]);
    repeat (apply Forall_cons; [assumption|]); apply Forall_nil.
Qed.

Lemma solvePentadiagonal_guarded a b c d e rhs :
  Forall guarded (divisors (solvePentadiagonal a b c d e rhs)).
Proof.
  unfold solvePentadiagonal.
  destruct (length rhs <? 3)%nat eqn:Hn.
  - constructor.
  - apply Nat.ltb_ge in Hn. set (n := length rhs) in *.
    destruct (factorHead_guarded b c d e n Hn) as (Hq0 & Hg0 & Hl0).
    cbv zeta. rewrite divisors_bind. apply Forall_app. split; [exact Hq0|].
    set (f0 := value (factorHead b c d e n)) in *.
    pose (Inv := fun (f : Factor) (rest : list nat) =>
                   exists i, rest = seq i (n - i) /\ (2 <= i <= n)%nat
                             /\ guardedBelow (diagD f) i
                             /\ length (diagD f) = n).
    assert (Hloop :
      Forall guarded (divisors (foldM (factorStep a b c d e n) (range 2 n) f0))
      /\ Inv (value (foldM (factorStep a b c d e n) (range 2 n) f0)) []).
    { apply foldM_invariant.
      - intros s i rest (k & Hrest & Hk & Hgk & Hlk).
        assert (Hkn : (k < n)%nat).
        { destruct (Nat.eq_dec k n) as [->|]; [|lia].
          rewrite Nat.sub_diag in Hrest. discriminate. }
        replace (n - k)%nat with (S (n - S k)) in Hrest by lia.
        simpl in Hrest. injection Hrest as -> ->.
        destruct (factorStep_guarded a b c d e n s k) as (Hq & Hg & Hl);
          auto; [lia|].
        split; [exact Hq|]. exists (S k).
        rewrite Nat.add_1_r in Hg. repeat split; auto; lia.
      - exists 2%nat. unfold range. repeat split; auto; lia. }
    destruct Hloop as [Hq1 (k & Hrest & Hk & Hgk & Hlk)].
    assert (k = n) as ->.
    { destruct (Nat.eq_dec k n); [assumption|].
      replace (n - k)%nat with (S (n - S k)) in Hrest by lia. discriminate. }
    rewrite divisors_bind. apply Forall_app. split; [exact Hq1|].
    set (f1 := value (foldM (factorStep a b c d e n) (range 2 n) f0)) in *.
    rewrite divisors_bind. rewrite app_nil_r.
    match goal with
    | |- Forall _ (divisors (foldM ?body ?l ?z0)) =>
        apply (fun H1 H2 =>
                 proj1 (foldM_invariant guarded
                          (fun (_ : list R) (rest : list nat) =>
                             forall i, In i rest -> (i < n)%nat)
                          body H1 l z0 H2))
    end.
    + intros z i rest Hin. split.
      * unfold div, bind, ret, divisors. simpl.
        apply Forall_cons; [|apply Forall_nil].
        apply Hgk. apply Hin. now left.
      * intros j Hj. apply Hin. now right.
    + intros i Hi. unfold range in Hi. apply in_seq in Hi. lia.
Qed.

Lemma whittakerSmooth_guarded y w lambda :
  Forall guarded (divisors (whittakerSmooth y w lambda)).
Proof.
  unfold whittakerSmooth.
  destruct (length y <? 3)%nat; [constructor|].
  cbv zeta.
  destruct (fold_left _ _ _) as [[[[a b] c] d] e].
  apply solvePentadiagonal_guarded.
Qed.

Lemma aslsBaseline_guarded data lambda p iterations :
  Forall guarded (divisors (aslsBaseline data lambda p iterations)).
Proof.
  unfold aslsBaseline.
  destruct (length data <? 3)%nat; [constructor|].
  cbv zeta. rewrite divisors_bind, app_nil_r.
  match goal with
  | |- Forall _ (divisors (foldM ?body ?l ?s0)) =>
      apply (fun H1 =>
               proj1 (foldM_invariant guarded (fun _ _ => True) body H1 l s0 I))
  end.
  intros [z w] i rest _. split; [|exact I].
  rewrite divisors_bind, app_nil_r. apply whittakerSmooth_guarded.
Qed.

(** C10.  Every divisor the pentadiagonal solver uses has magnitude at
    least [1e-14], for all diagonals and right-hand sides; hence
    [whittakerSmooth] and [aslsBaseline] divide by no zero, whatever
    [lambda], [p] and the iteration count are. *)
Theorem C10_no_division_by_zero :
  (forall a b c d e rhs,
      Forall (fun v => 1e-14 <= Rabs v)
             (Div.divisors (solvePentadiagonal a b c d e rhs)))
  /\ (forall data lambda p iterations,
        Forall (fun v => 1e-14 <= Rabs v /\ v <> 0)
               (Div.divisors (aslsBaseline data lambda p iterations))).
Proof.
  split.
  - intros. apply solvePentadiagonal_guarded.
  - intros. eapply Forall_impl; [|apply aslsBaseline_guarded].
    intros v Hv. split; [exact Hv | now apply guarded_nonzero].
Qed.

End PentadiagonalClaims.

(** ** Loops that fill an array *)

Module ArrayFacts.

Import JS JSFacts.

Lemma length_mapi {A B} (f : A -> nat -> B) a : length (mapi f a) = length a.
Proof.
  unfold mapi. rewrite length_map, length_combine, length_seq. lia.
Qed.

Lemma get_mapi {A B} (da : A) (db : B) (f : A -> nat -> B) a i :
  (i < length a)%nat -> get db (mapi f a) i = f (get da a i) i.
Proof.
  intros Hi. unfold get, mapi.
  rewrite nth_indep with (d' := f da 0%nat)
    by (rewrite length_map, length_combine, length_seq; lia).
  change (f da 0%nat) with ((fun iv => f (snd iv) (fst iv)) (0%nat, da)).
  rewrite map_nth, combine_nth by (now rewrite length_seq).
  simpl. now rewrite seq_nth.
Qed.

Lemma get_map {A B} (da : A) (db : B) (f : A -> B) a i :
  (i < length a)%nat -> get db (map f a) i = f (get da a i).
Proof.
  intros Hi. unfold get.
  rewrite nth_indep with (d' := f da) by (now rewrite length_map).
  apply map_nth.
Qed.

Lemma mapi_ext {A B} (f g : A -> nat -> B) a :
  (forall v i, f v i = g v i) -> mapi f a = mapi g a.
Proof.
  intros H. unfold mapi. apply map_ext. intros [i v]. apply H.
Qed.

Lemma in_range lo hi i : In i (range lo hi) <-> (lo <= i < hi)%nat.
Proof. unfold range. rewrite in_seq. lia. Qed.

Lemma length_range lo hi : length (range lo hi) = (hi - lo)%nat.
Proof. unfold range. apply length_seq. Qed.

(** A loop [for i in idx: a[i] = f i] whose right-hand side does not read
    [a]: afterwards [a[j]] is [f j] on the indices visited and untouched
    elsewhere. *)
Lemma fold_set_length {A} (f : nat -> A) idx a :
  length (fold_left (fun a i => set a i (f i)) idx a) = length a.
Proof.
  revert a. induction idx as [|i rest IH]; intros a; simpl; [reflexivity|].
  now rewrite IH, length_set.
Qed.

Lemma fold_set_get {A} (d : A) (f : nat -> A) idx a j :
  (forall i, In i idx -> (i < length a)%nat) ->
  get d (fold_left (fun a i => set a i (f i)) idx a) j
  = if existsb (Nat.eqb j) idx then f j else get d a j.
Proof.
  revert a. induction idx as [|i rest IH]; intros a Hin; simpl; [reflexivity|].
  rewrite IH.
  - destruct (existsb (Nat.eqb j) rest) eqn:Hrest.
    + now rewrite orb_true_r.
    + rewrite orb_false_r. destruct (Nat.eqb_spec j i) as [->|Hne].
      * apply get_set_same. apply Hin. now left.
      * apply get_set_other. congruence.
  - intros k Hk. rewrite length_set. apply Hin. now right.
Qed.

Lemma existsb_range j lo hi :
  existsb (Nat.eqb j) (range lo hi) = ((lo <=? j) && (j <? hi))%nat.
Proof.
  destruct (existsb (Nat.eqb j) (range lo hi)) eqn:H.
  - apply existsb_exists in H. destruct H as (k & Hk & Hjk).
    apply Nat.eqb_eq in Hjk. subst k. apply in_range in Hk.
    symmetry. apply andb_true_iff. split;
      [apply Nat.leb_le | apply Nat.ltb_lt]; lia.
  - symmetry. apply not_true_is_false. intros Hc.
    apply andb_true_iff in Hc. destruct Hc as [H1 H2].
    apply Nat.leb_le in H1. apply Nat.ltb_lt in H2.
    assert (Hex : existsb (Nat.eqb j) (range lo hi) = true).
    { apply existsb_exists. exists j. split.
      - apply in_range. lia.
      - apply Nat.eqb_refl. }
    congruence.
Qed.

Lemma get_fill {A} (d : A) n i : get d (fill n d) i = d.
Proof.
  unfold get, fill. destruct (Nat.lt_ge_cases i n).
  - now apply nth_repeat_lt.
  - apply nth_overflow. now rewrite repeat_length.
Qed.

Lemma list_eq_get {A} (d : A) (a b : list A) :
  length a = length b ->
  (forall i, (i < length a)%nat -> get d a i = get d b i) ->
  a = b.
Proof.
  intros Hlen Hget. apply nth_ext with (d := d) (d' := d); assumption.
Qed.

End ArrayFacts.

(** ** Rolling ball *)

Module RollingBallFacts.

Import JS JSFacts ArrayFacts Baseline.

(** The running minimum from a seed [m0] over the indices [idx]. *)
Lemma windowMin_from (y : list R) idx m0 :
  exists m,
    fold_left (fun minVal j =>
                 match minVal with
                 | None => Some (get 0 y j)
                 | Some m =>
                     if Rlt_dec (get 0 y j) m then Some (get 0 y j) else minVal
                 end) idx (Some m0) = Some m
    /\ m <= m0
    /\ (forall j, In j idx -> m <= get 0 y j)
    /\ (m = m0 \/ exists j, In j idx /\ m = get 0 y j).
Proof.
  revert m0. induction idx as [|i rest IH]; intros m0; simpl.
  - exists m0. split; [reflexivity|]. split; [lra|]. split; [easy | now left].
  - destruct (Rlt_dec (get 0 y i) m0) as [Hlt|Hge].
    + destruct (IH (get 0 y i)) as (m & Hm & Hle & Hall & Hwit).
      exists m. split; [exact Hm|]. split; [lra|]. split.
      * intros j [<-|Hj]; [lra | now apply Hall].
      * right. destruct Hwit as [->|(j & Hj & ->)].
        -- exists i. split; [now left | reflexivity].
        -- exists j. split; [now right | reflexivity].
    + destruct (IH m0) as (m & Hm & Hle & Hall & Hwit).
      exists m. split; [exact Hm|]. split; [lra|]. split.
      * intros j [<-|Hj]; [lra | now apply Hall].
      * destruct Hwit as [->|(j & Hj & ->)]; [now left|].
        right. exists j. split; [now right | reflexivity].
Qed.

(** A non-empty window has a minimum, attained inside the window. *)
Lemma windowMin_spec (y : list R) start stop :
  (start < stop)%nat ->
  exists m,
    windowMin y start stop = Some m
    /\ (forall j, (start <= j < stop)%nat -> m <= get 0 y j)
    /\ (exists j, (start <= j < stop)%nat /\ m = get 0 y j).
Proof.
  intros Hlt. unfold windowMin, range.
  replace (stop - start)%nat with (S (stop - S start)) by lia. simpl.
  destruct (windowMin_from y (seq (S start) (stop - S start)) (get 0 y start))
    as (m & Hm & Hle & Hall & Hwit).
  exists m. split; [exact Hm|]. split.
  - intros j Hj. destruct (Nat.eq_dec j start) as [->|Hne]; [exact Hle|].
    apply Hall. apply in_seq. lia.
  - destruct Hwit as [->|(j & Hj & ->)].
    + exists start. split; [lia | reflexivity].
    + exists j. apply in_seq in Hj. split; [lia | reflexivity].
Qed.

Lemma window_nonempty h n i :
  (0 <= h)%Z -> (i < n)%nat ->
  (windowStart h i <= i < windowStop h n i)%nat.
Proof. unfold windowStart, windowStop. lia. Qed.

Lemma window_grows h1 h2 n i :
  (h1 <= h2)%Z ->
  (windowStart h2 i <= windowStart h1 i)%nat
  /\ (windowStop h1 n i <= windowStop h2 n i)%nat.
Proof. unfold windowStart, windowStop. lia. Qed.

Lemma length_rollingMin y radius : length (rollingMin y radius) = length y.
Proof.
  unfold rollingMin.
  rewrite (fold_set_length
             (fun i => finite (windowMin y (windowStart (Zceil radius) i)
                                         (windowStop (Zceil radius) (length y) i)))).
  apply length_fill.
Qed.

Lemma get_rollingMin y radius i :
  (i < length y)%nat ->
  get 0 (rollingMin y radius) i
  = finite (windowMin y (windowStart (Zceil radius) i)
                      (windowStop (Zceil radius) (length y) i)).
Proof.
  intros Hi. unfold rollingMin.
  rewrite (fold_set_get 0
             (fun i => finite (windowMin y (windowStart (Zceil radius) i)
                                         (windowStop (Zceil radius) (length y) i)))).
  - rewrite existsb_range.
    replace (0 <=? i)%nat with true by (symmetry; apply Nat.leb_le; lia).
    replace (i <? length y)%nat with true by (symmetry; apply Nat.ltb_lt; lia).
    reflexivity.
  - intros k Hk. apply in_range in Hk. rewrite length_fill. lia.
Qed.

(** The envelope never exceeds a value of its window. *)
Lemma rollingMin_lower y radius i j :
  (0 <= Zceil radius)%Z -> (i < length y)%nat ->
  (windowStart (Zceil radius) i <= j
   < windowStop (Zceil radius) (length y) i)%nat ->
  get 0 (rollingMin y radius) i <= get 0 y j.
Proof.
  intros Hh Hi Hj. rewrite get_rollingMin by assumption.
  destruct (windowMin_spec y (windowStart (Zceil radius) i)
                           (windowStop (Zceil radius) (length y) i))
    as (m & Hm & Hall & _); [lia|].
  rewrite Hm. simpl. now apply Hall.
Qed.

(** A wider window has a smaller minimum. *)
Lemma rollingMin_antitone y r1 r2 i :
  (0 <= Zceil r1)%Z -> r1 <= r2 -> (i < length y)%nat ->
  get 0 (rollingMin y r2) i <= get 0 (rollingMin y r1) i.
Proof.
  intros Hh Hr Hi.
  pose proof (Zceil_le _ _ Hr) as Hc.
  rewrite (get_rollingMin y r1) by assumption.
  destruct (windowMin_spec y (windowStart (Zceil r1) i)
                           (windowStop (Zceil r1) (length y) i))
    as (m & Hm & _ & (j & Hj & ->)).
  { pose proof (window_nonempty (Zceil r1) (length y) i Hh Hi). lia. }
  rewrite Hm. simpl. apply rollingMin_lower; try assumption; try lia.
  destruct (window_grows (Zceil r1) (Zceil r2) (length y) i Hc). lia.
Qed.

(** One smoothing pass, written out entry by entry. *)
Definition averaged (baseline : list R) (i : nat) : R :=
  (get 0 baseline (i - 1) + get 0 baseline i + get 0 baseline (i + 1)) / 3.

Lemma length_smoothPasses baseline :
  length (smoothPasses baseline) = length baseline.
Proof.
  unfold smoothPasses. change (range 0 3) with [0; 1; 2]%nat.
  cbn [fold_left].
  now rewrite !(fold_set_length (averaged baseline)).
Qed.

(** The three passes of the source all write the same averages of
    [baseline]: what they leave is one pass. *)
Lemma get_smoothPasses baseline i :
  get 0 (smoothPasses baseline) i
  = if ((1 <=? i) && (i <? length baseline - 1))%nat
    then averaged baseline i else get 0 baseline i.
Proof.
  unfold smoothPasses. change (range 0 3) with [0; 1; 2]%nat.
  cbn [fold_left].
  change (fun smoothed i0 =>
            set smoothed i0
              ((get 0 baseline (i0 - 1) + get 0 baseline i0
                + get 0 baseline (i0 + 1)) / 3))
    with (fun smoothed i0 => set smoothed i0 (averaged baseline i0)).
  assert (Hin : forall a : list R, length a = length baseline ->
                  forall k, In k (range 1 (length baseline - 1)) ->
                            (k < length a)%nat).
  { intros a Ha k Hk. apply in_range in Hk. lia. }
  rewrite !(fold_set_get 0 (averaged baseline)), existsb_range.
  - destruct ((1 <=? i) && (i <? length baseline - 1))%nat; reflexivity.
  - now apply Hin.
  - apply Hin. now rewrite fold_set_length.
  - apply Hin. now rewrite !fold_set_length.
Qed.

Lemma smoothPasses_is_one_pass baseline :
  smoothPasses baseline = Spec.movingAverage baseline.
Proof.
  unfold Spec.movingAverage. apply (list_eq_get 0).
  - now rewrite length_smoothPasses, length_mapi.
  - intros i Hi. rewrite length_smoothPasses in Hi.
    rewrite get_smoothPasses.
    rewrite (get_mapi 0 0) by assumption. reflexivity.
Qed.

Lemma length_rollingBall data radius :
  length (rollingBallBaseline data radius) = length data.
Proof.
  unfold rollingBallBaseline, zeroBaseline, withY.
  destruct (length data <? 3)%nat; [apply length_map | apply length_mapi].
Qed.

(** The value of the baseline at index [i] of a dataset of three or more
    points. *)
Lemma y_rollingBall data radius i :
  (3 <= length data)%nat -> (i < length data)%nat ->
  y (get origin (rollingBallBaseline data radius) i)
  = get 0 (smoothPasses (rollingMin (map y data) radius)) i.
Proof.
  intros Hn Hi. unfold rollingBallBaseline.
  replace (length data <? 3)%nat with false
    by (symmetry; apply Nat.ltb_ge; lia).
  unfold withY. now rewrite (get_mapi origin origin).
Qed.

Lemma y_zeroBaseline data i : y (get origin (zeroBaseline data) i) = 0.
Proof.
  unfold zeroBaseline.
  destruct (Nat.lt_ge_cases i (length data)) as [Hi|Hi].
  - now rewrite (get_map origin origin).
  - unfold get. rewrite nth_overflow by (now rewrite length_map). reflexivity.
Qed.

End RollingBallFacts.

(** ** Evaluating the arrays of a concrete run *)

(** Runs the list and index code of a closed term and leaves the real
    arithmetic folded. *)
Ltac run_arrays :=
  cbv - [Rlt_dec Rle_dec Rgt_dec Rge_dec Req_dec_T Rplus Rminus Rmult Rdiv
         Rinv Ropp IZR Rabs Rmax Rmin exp ln sqrt Rpower Zceil Zfloor INR pow].

(** A real expression with no comparison left inside. *)
Ltac no_comparison t :=
  lazymatch t with
  | context [Rlt_dec _ _] => fail
  | context [Rle_dec _ _] => fail
  | context [Rgt_dec _ _] => fail
  | context [Rge_dec _ _] => fail
  | context [Req_dec_T _ _] => fail
  | context [Rcase_abs _] => fail
  | _ => idtac
  end.

Ltac settle_by_lra := first [exfalso; lra | idtac].

(** Settles one innermost comparison of closed real expressions. *)
Ltac settle_comparison :=
  match goal with
  | |- context [Rlt_dec ?a ?b] =>
      no_comparison a; no_comparison b;
      destruct (Rlt_dec a b); settle_by_lra
  | |- context [Rle_dec ?a ?b] =>
      no_comparison a; no_comparison b;
      destruct (Rle_dec a b); settle_by_lra
  | |- context [Rgt_dec ?a ?b] =>
      no_comparison a; no_comparison b;
      destruct (Rgt_dec a b); settle_by_lra
  | |- context [Rge_dec ?a ?b] =>
      no_comparison a; no_comparison b;
      destruct (Rge_dec a b); settle_by_lra
  | |- context [Req_dec_T ?a ?b] =>
      no_comparison a; no_comparison b;
      destruct (Req_dec_T a b); settle_by_lra
  | |- context [Rcase_abs ?a] =>
      no_comparison a;
      destruct (Rcase_abs a); settle_by_lra
  end.

(** Settles every comparison in the goal, those of [Math.abs],
    [Math.max] and [Math.min] included, from the inside out. *)
Ltac settle_comparisons :=
  unfold Rabs, Rmax, Rmin; repeat settle_comparison.

Module RollingBallClaims.

Import JS JSFacts ArrayFacts Baseline RollingBallFacts.

Lemma Zceil_IZR z : Zceil (IZR z) = z.
Proof. apply Zceil_eq. lra. Qed.

Lemma Zceil_nonneg r : 0 <= r -> (0 <= Zceil r)%Z.
Proof.
  intros Hr. rewrite <- (Zceil_IZR 0). now apply Zceil_le.
Qed.

(** Five samples: a plateau of height 6 that drops to 0. *)
Definition plateau : list DataPoint :=
  [mkPoint 0 6; mkPoint 1 6; mkPoint 2 6; mkPoint 3 6; mkPoint 4 0].

Lemma rollingMin_plateau :
  rollingMin (map y plateau) 1 = [6; 6; 6; 0; 0].
Proof.
  unfold rollingMin. rewrite Zceil_IZR. run_arrays.
  settle_comparisons. reflexivity.
Qed.

(** The source's rolling ball is the window minimum followed by a single
    pass of the moving average. *)
Lemma rollingBall_single_pass data radius :
  rollingBallBaseline data radius
  = if (length data <? 3)%nat then zeroBaseline data
    else withY data (Spec.movingAverage (rollingMin (map y data) radius)).
Proof.
  unfold rollingBallBaseline. now rewrite smoothPasses_is_one_pass.
Qed.

(** C7.  On the plateau with radius 1 the source returns the envelope
    smoothed once, [6, 6, 4, 2, 0]; three successive passes, each over
    the output of the one before, give [6, 46/9, 34/9, 2, 0]. *)
Theorem C7_three_passes_smooth_once :
  map y (rollingBallBaseline plateau 1) = [6; 6; 4; 2; 0]
  /\ map y (Spec.rollingBall plateau 1) = [6; 46 / 9; 34 / 9; 2; 0]
  /\ rollingBallBaseline plateau 1 <> Spec.rollingBall plateau 1.
Proof.
  assert (Hcode : map y (rollingBallBaseline plateau 1) = [6; 6; 4; 2; 0]).
  { rewrite rollingBall_single_pass.
    change (length plateau <? 3)%nat with false. cbv iota.
    rewrite rollingMin_plateau. run_arrays.
    repeat (f_equal; try lra). }
  assert (Hspec : map y (Spec.rollingBall plateau 1)
                  = [6; 46 / 9; 34 / 9; 2; 0]).
  { unfold Spec.rollingBall.
    change (length plateau <? 3)%nat with false. cbv iota zeta.
    rewrite rollingMin_plateau. run_arrays.
    repeat (f_equal; try lra). }
  repeat split; try assumption.
  intros Heq. rewrite Heq, Hspec in Hcode.
  injection Hcode as H1 H2. lra.
Qed.

(** Four samples with a single dip. *)
Definition dip : list DataPoint :=
  [mkPoint 0 9; mkPoint 1 9; mkPoint 2 0; mkPoint 3 9].

(** The second half of the claim as it is stated: at every index the
    baseline stays at or below every value of the window it was computed
    from. *)
Definition belowItsWindow (data : list DataPoint) (radius : R) : Prop :=
  forall i j,
    (i < length data)%nat ->
    (windowStart (Zceil radius) i <= j
     < windowStop (Zceil radius) (length data) i)%nat ->
    y (get origin (rollingBallBaseline data radius) i)
    <= y (get origin data j).

(** C8, as stated, fails: with radius 1 the baseline of the dip is 3 at
    index 1, above the 0 at index 2 of its window. *)
Lemma C8_counterexample : ~ belowItsWindow dip 1.
Proof.
  intros H. specialize (H 1%nat 2%nat).
  rewrite Zceil_IZR in H.
  assert (Hb : y (get origin (rollingBallBaseline dip 1) 1) = 3).
  { rewrite rollingBall_single_pass.
    change (length dip <? 3)%nat with false. cbv iota.
    unfold rollingMin. rewrite Zceil_IZR. run_arrays.
    settle_comparisons. lra. }
  rewrite Hb in H. simpl in H.
  assert (3 <= 0); [|lra].
  apply H; unfold windowStart, windowStop; simpl; lia.
Qed.

(** C8, amended.  For radii [0 <= r1 <= r2] the baseline with [r2] is
    pointwise at or below the baseline with [r1]; and the window-minimum
    envelope, before it is smoothed, is at or below every value of its
    window. *)
Theorem C8_monotone_in_radius (data : list DataPoint) (r1 r2 : R) :
  0 <= r1 -> r1 <= r2 ->
  (forall i, (i < length data)%nat ->
     y (get origin (rollingBallBaseline data r2) i)
     <= y (get origin (rollingBallBaseline data r1) i))
  /\ (forall i j, (i < length data)%nat ->
        (windowStart (Zceil r1) i <= j
         < windowStop (Zceil r1) (length data) i)%nat ->
        get 0 (rollingMin (map y data) r1) i <= y (get origin data j)).
Proof.
  intros H0 Hr. pose proof (Zceil_nonneg r1 H0) as Hc. split.
  - intros i Hi. destruct (Nat.lt_ge_cases (length data) 3) as [Hn|Hn].
    + unfold rollingBallBaseline.
      replace (length data <? 3)%nat with true
        by (symmetry; apply Nat.ltb_lt; lia).
      rewrite y_zeroBaseline. lra.
    + rewrite !y_rollingBall, !get_smoothPasses, !length_rollingMin
        by assumption.
      assert (Hmono : forall k, (k < length data)%nat ->
                get 0 (rollingMin (map y data) r2) k
                <= get 0 (rollingMin (map y data) r1) k).
      { intros k Hk. apply rollingMin_antitone; try assumption.
        now rewrite length_map. }
      rewrite length_map.
      destruct ((1 <=? i) && (i <? length data - 1))%nat eqn:Hmid.
      * apply andb_true_iff in Hmid. destruct Hmid as [H1 H2].
        apply Nat.leb_le in H1. apply Nat.ltb_lt in H2.
        unfold averaged.
        pose proof (Hmono (i - 1)%nat ltac:(lia)).
        pose proof (Hmono i ltac:(lia)).
        pose proof (Hmono (i + 1)%nat ltac:(lia)).
        lra.
      * now apply Hmono.
  - intros i j Hi Hj.
    assert (Hj' : (j < length data)%nat).
    { unfold windowStop in Hj. lia. }
    rewrite <- (get_map origin 0 y) by assumption.
    apply rollingMin_lower; rewrite ?length_map; assumption.
Qed.

Lemma C8_witness :
  (forall i, (i < length dip)%nat ->
     y (get origin (rollingBallBaseline dip 2) i)
     <= y (get origin (rollingBallBaseline dip 1) i))
  /\ (forall i j, (i < length dip)%nat ->
        (windowStart (Zceil 1) i <= j
         < windowStop (Zceil 1) (length dip) i)%nat ->
        get 0 (rollingMin (map y dip) 1) i <= y (get origin dip j)).
Proof.
  apply (C8_monotone_in_radius dip 1 2); lra.
Defined.

End RollingBallClaims.

(** ** Manual baseline *)

Module ManualFacts.

Import JS JSFacts ArrayFacts Baseline.

(** Ascending in [x]: every point sits at or left of every later one. *)
Definition ascending (l : list DataPoint) : Prop :=
  forall i j, (i <= j < length l)%nat ->
              x (get origin l i) <= x (get origin l j).

Lemma ascending_cons p l :
  ascending l -> (forall q, In q l -> x p <= x q) -> ascending (p :: l).
Proof.
  intros Hl Hp [|i] [|j] Hij; simpl in *; try lia.
  - lra.
  - apply Hp. apply nth_In. lia.
  - apply Hl. lia.
Qed.

Lemma ascending_tail p l : ascending (p :: l) -> ascending l.
Proof.
  intros H i j Hij. apply (H (S i) (S j)). simpl. lia.
Qed.

Lemma ascending_head p l q : ascending (p :: l) -> In q l -> x p <= x q.
Proof.
  intros H Hq. destruct (In_nth l q origin Hq) as (k & Hk & <-).
  apply (H 0%nat (S k)). simpl. lia.
Qed.

Lemma in_insertByX p l q : In q (insertByX p l) -> q = p \/ In q l.
Proof.
  induction l as [|h t IH]; simpl.
  - intros [<-|[]]. now left.
  - destruct (Rlt_dec (x p) (x h)); simpl.
    + intros [<-|[<-|H]]; auto.
    + intros [<-|H]; auto. destruct (IH H); auto.
Qed.

Lemma length_insertByX p l : length (insertByX p l) = S (length l).
Proof.
  induction l as [|h t IH]; simpl; [reflexivity|].
  destruct (Rlt_dec (x p) (x h)); simpl; now rewrite ?IH.
Qed.

Lemma ascending_insertByX p l : ascending l -> ascending (insertByX p l).
Proof.
  induction l as [|h t IH]; intros Hl; simpl.
  - apply ascending_cons; [exact Hl | intros q []].
  - destruct (Rlt_dec (x p) (x h)) as [Hlt|Hge].
    + apply ascending_cons; [exact Hl|].
      intros q [<-|Hq]; [lra|].
      pose proof (ascending_head h t q Hl Hq). lra.
    + apply ascending_cons.
      * apply IH. now apply ascending_tail in Hl.
      * intros q Hq. apply in_insertByX in Hq. destruct Hq as [->|Hq].
        -- lra.
        -- now apply (ascending_head h t).
Qed.

Lemma sortByX_from acc points :
  ascending acc ->
  ascending (fold_left (fun sorted p => insertByX p sorted) points acc)
  /\ length (fold_left (fun sorted p => insertByX p sorted) points acc)
     = (length acc + length points)%nat.
Proof.
  revert acc. induction points as [|p rest IH]; intros acc Hacc; simpl.
  - split; [exact Hacc | lia].
  - destruct (IH (insertByX p acc) (ascending_insertByX p acc Hacc))
      as [Hs Hl].
    split; [exact Hs|]. rewrite Hl, length_insertByX. lia.
Qed.

Lemma ascending_sortByX points : ascending (sortByX points).
Proof.
  apply sortByX_from. intros i j Hij. simpl in Hij. lia.
Qed.

Lemma length_sortByX points : length (sortByX points) = length points.
Proof.
  unfold sortByX.
  destruct (sortByX_from [] points) as [_ H]; [|exact H].
  intros i j Hij. simpl in Hij. lia.
Qed.

End ManualFacts.

Module ManualClaims.

Import JS JSFacts ArrayFacts Baseline ManualFacts.

Section Extrapolation.

(** The control points in ascending order and a query abscissa. *)
Variable sorted : list DataPoint.
Variable q : R.

Let n := length sorted.
Let px k := x (get origin sorted k).
Let py k := y (get origin sorted k).

(** The straight line through the first two control points, at [q]. *)
Definition lineLeft : R :=
  py 0%nat + (py 1%nat - py 0%nat) / (px 1%nat - px 0%nat) * (q - px 0%nat).

(** The straight line through the last two control points, at [q]. *)
Definition lineRight : R :=
  py (n - 1)%nat
  + (py (n - 1)%nat - py (n - 2)%nat) / (px (n - 1)%nat - px (n - 2)%nat)
    * (q - px (n - 1)%nat).

Definition flatLeft : R := py 0%nat.
Definition flatRight : R := py (n - 1)%nat.

End Extrapolation.

(** The spline branch of [manualBaseline] is taken. *)
Definition usesSpline (interp : Interp) (n : nat) : bool :=
  match interp with
  | cubicI => (3 <=? n)%nat
  | linearI => false
  end.

(** The manual baseline at the abscissa of sample [i]. *)
Definition manualAt (data points : list DataPoint) (interp : Interp)
    (i : nat) : R :=
  y (get origin (manualBaseline data points interp) i).

(** The claim as it is stated: outside the span of the control points the
    value is the linear extrapolation of the boundary segment. *)
Definition extrapolatesLinearly (data points : list DataPoint)
    (interp : Interp) : Prop :=
  forall i, (i < length data)%nat ->
    let sorted := sortByX points in
    let q := x (get origin data i) in
    (q < x (get origin sorted 0) ->
     manualAt data points interp i = lineLeft sorted q)
    /\ (x (get origin sorted (length sorted - 1)) < q ->
        manualAt data points interp i = lineRight sorted q).

(** C6, as stated, fails in linear mode: with control points (0,0) and
    (10,5) the baseline at x = 20 is 5, not the extrapolated 10. *)
Lemma C6_counterexample :
  ~ extrapolatesLinearly [mkPoint 20 0] [mkPoint 0 0; mkPoint 10 5] linearI.
Proof.
  intros H. destruct (H 0%nat) as [_ Hright]; [simpl; lia|].
  revert Hright. unfold manualAt, manualBaseline, lineRight.
  run_arrays. settle_comparisons. intros Hright.
  assert (5 = 5 + (5 - 0) / (10 - 0) * (20 - 10)) by (apply Hright; lra).
  lra.
Qed.

(** C6, amended.  For two or more control points and a sample outside
    their span, the manual baseline is the linear extrapolation of the
    boundary segment in cubic mode with three or more control points, and
    the boundary control point's [y] otherwise (linear mode, or cubic
    mode with two control points). *)
Theorem C6_extrapolation (data points : list DataPoint) (interp : Interp)
    (i : nat) :
  (2 <= length points)%nat ->
  (i < length data)%nat ->
  let sorted := sortByX points in
  let q := x (get origin data i) in
  (q < x (get origin sorted 0) ->
   manualAt data points interp i
   = if usesSpline interp (length sorted) then lineLeft sorted q
     else flatLeft sorted)
  /\ (x (get origin sorted (length sorted - 1)) < q ->
      manualAt data points interp i
      = if usesSpline interp (length sorted) then lineRight sorted q
        else flatRight sorted).
Proof.
  intros Hn Hi sorted q.
  pose proof (length_sortByX points) as Hlen. fold sorted in Hlen.
  pose proof (ascending_sortByX points) as Hasc. fold sorted in Hasc.
  assert (Hspan : x (get origin sorted 0)
                  <= x (get origin sorted (length sorted - 1))).
  { apply Hasc. lia. }
  assert (Hx : forall k, (k < length sorted)%nat ->
             get 0 (map x sorted) k = x (get origin sorted k)).
  { intros k Hk. now apply get_map. }
  assert (Hy : forall k, (k < length sorted)%nat ->
             get 0 (map y sorted) k = y (get origin sorted k)).
  { intros k Hk. now apply get_map. }
  assert (Hlin :
    (q < x (get origin sorted 0) ->
     linearInterpolate (map x sorted) (map y sorted) q = flatLeft sorted)
    /\ (x (get origin sorted (length sorted - 1)) < q ->
        linearInterpolate (map x sorted) (map y sorted) q = flatRight sorted)).
  { unfold linearInterpolate, flatLeft, flatRight.
    rewrite length_map, !Hx, !Hy by lia. split; intros Hq.
    - destruct (Rle_dec q (x (get origin sorted 0))); [reflexivity | lra].
    - destruct (Rle_dec q (x (get origin sorted 0))); [lra|].
      destruct (Rge_dec q (x (get origin sorted (length sorted - 1))));
        [reflexivity | lra]. }
  assert (Hcub : (3 <= length sorted)%nat ->
    (q < x (get origin sorted 0) ->
     cubicSplineInterpolate (map x sorted) (map y sorted) q = lineLeft sorted q)
    /\ (x (get origin sorted (length sorted - 1)) < q ->
        cubicSplineInterpolate (map x sorted) (map y sorted) q
        = lineRight sorted q)).
  { intros H3. unfold cubicSplineInterpolate, lineLeft, lineRight.
    rewrite length_map.
    replace (length sorted <? 3)%nat with false
      by (symmetry; apply Nat.ltb_ge; lia).
    cbv zeta. rewrite !Hx, !Hy by lia. split; intros Hq.
    - destruct (Rle_dec q (x (get origin sorted 0))); [reflexivity | lra].
    - destruct (Rle_dec q (x (get origin sorted 0))); [lra|].
      destruct (Rge_dec q (x (get origin sorted (length sorted - 1))));
        [reflexivity | lra]. }
  unfold manualAt, manualBaseline.
  replace (length points <? 2)%nat with false
    by (symmetry; apply Nat.ltb_ge; lia).
  cbv zeta. fold sorted.
  rewrite (get_map origin origin) by assumption. fold q. cbn [y].
  destruct interp; cbn [usesSpline].
  - exact Hlin.
  - destruct (3 <=? length sorted)%nat eqn:H3.
    + apply Hcub. now apply Nat.leb_le.
    + exact Hlin.
Qed.

Lemma C6_witness :
  let data := [mkPoint 20 0] in
  let points := [mkPoint 0 0; mkPoint 5 1; mkPoint 10 5] in
  let sorted := sortByX points in
  let q := x (get origin data 0) in
  (q < x (get origin sorted 0) ->
   manualAt data points cubicI 0
   = if usesSpline cubicI (length sorted) then lineLeft sorted q
     else flatLeft sorted)
  /\ (x (get origin sorted (length sorted - 1)) < q ->
      manualAt data points cubicI 0
      = if usesSpline cubicI (length sorted) then lineRight sorted q
        else flatRight sorted).
Proof.
  apply (C6_extrapolation [mkPoint 20 0]
           [mkPoint 0 0; mkPoint 5 1; mkPoint 10 5] cubicI 0); simpl; lia.
Defined.

End ManualClaims.

(** ** Every estimator returns a curve aligned with its input *)

Module AlignmentFacts.

Import JS JSFacts ArrayFacts Baseline.

(** Same abscissae, index for index (hence the same length). *)
Definition aligned (data curve : list DataPoint) : Prop :=
  map x curve = map x data.

Lemma aligned_length data curve :
  aligned data curve -> length curve = length data.
Proof.
  unfold aligned. intros H.
  rewrite <- (length_map x curve), H. apply length_map.
Qed.

Lemma aligned_map data (f : DataPoint -> R) :
  aligned data (map (fun d => mkPoint (x d) (f d)) data).
Proof.
  unfold aligned. rewrite map_map. now apply map_ext.
Qed.

Lemma aligned_zero data : aligned data (zeroBaseline data).
Proof. apply (aligned_map data (fun _ => 0)). Qed.

Lemma aligned_withY data v : aligned data (withY data v).
Proof.
  unfold aligned, withY. apply (list_eq_get 0).
  - now rewrite !length_map, length_mapi.
  - intros i Hi. rewrite length_map, length_mapi in Hi.
    rewrite !(get_map origin 0) by (rewrite ?length_mapi; assumption).
    now rewrite (get_mapi origin origin).
Qed.

Lemma aligned_linear data slope intercept :
  aligned data (linearBaseline data slope intercept).
Proof.
  unfold linearBaseline. destruct (length data <? 2)%nat.
  - apply aligned_zero.
  - apply (aligned_map data (fun d => _ * x d + _)).
Qed.

Lemma aligned_polynomial data degree maxIter sigma :
  aligned data (polynomialBaseline data degree maxIter sigma).
Proof.
  unfold polynomialBaseline. destruct (length data <? degree + 1)%nat.
  - apply aligned_linear.
  - cbv zeta. apply (aligned_map data (fun d => evalPoly _ degree _)).
Qed.

Lemma aligned_asls data lambda p iterations :
  aligned data (Div.value (aslsBaseline data lambda p iterations)).
Proof.
  unfold aslsBaseline. destruct (length data <? 3)%nat.
  - apply aligned_zero.
  - cbv zeta. rewrite DivFacts.value_bind. apply aligned_withY.
Qed.

Lemma aligned_rollingBall data radius :
  aligned data (rollingBallBaseline data radius).
Proof.
  unfold rollingBallBaseline. destruct (length data <? 3)%nat.
  - apply aligned_zero.
  - apply aligned_withY.
Qed.

Lemma aligned_shirley data maxIterations tolerance :
  aligned data (shirleyBaseline data maxIterations tolerance).
Proof.
  unfold shirleyBaseline. destruct (length data <? 3)%nat.
  - apply aligned_zero.
  - apply aligned_withY.
Qed.

Lemma aligned_manual data points interp :
  aligned data (manualBaseline data points interp).
Proof.
  unfold manualBaseline. destruct (length points <? 2)%nat.
  - apply aligned_zero.
  - cbv zeta.
    apply (aligned_map data
             (fun d => match interp with
                       | linearI => linearInterpolate _ _ (x d)
                       | cubicI => if (3 <=? _)%nat
                                   then cubicSplineInterpolate _ _ (x d)
                                   else linearInterpolate _ _ (x d)
                       end)).
Qed.

Lemma aligned_method rangeData options :
  aligned rangeData (methodBaseline rangeData options).
Proof.
  unfold methodBaseline. destruct (method options).
  - apply aligned_zero.
  - destruct (autoOff options), (slope options), (intercept options);
      apply aligned_linear.
  - destruct (autoOff options), (coeffs options);
      try apply aligned_polynomial.
    apply (aligned_map rangeData (fun d => fold_left _ _ 0)).
  - apply aligned_asls.
  - apply aligned_rollingBall.
  - apply aligned_shirley.
  - destruct (manualPoints options) as [points|]; [|apply aligned_zero].
    destruct (2 <=? length points)%nat;
      [apply aligned_manual | apply aligned_zero].
Qed.

End AlignmentFacts.

(** ** Calc-range: selection and flat extension *)

Module RangeFacts.

Import JS JSFacts ArrayFacts Baseline AlignmentFacts.

(** Strictly ascending indices. *)
Definition increasing (ri : list nat) : Prop :=
  forall a b, (a < b < length ri)%nat -> (get 0%nat ri a < get 0%nat ri b)%nat.

Section Extension.

Variable data : list DataPoint.
Variable ri : list nat.
Variable rb : list DataPoint.

(** The body of the extension loop. *)
Definition extendStep (st : list DataPoint * nat) (i : nat)
    : list DataPoint * nat :=
  let (fullBaseline, rangeIdx) := st in
  let xi := x (get origin data i) in
  if (rangeIdx <? length ri)%nat && (i =? get 0%nat ri rangeIdx)%nat
  then (fullBaseline ++ [mkPoint xi (y (get origin rb rangeIdx))],
        (rangeIdx + 1)%nat)
  else if (i <? get 0%nat ri 0)%nat
  then (fullBaseline ++ [mkPoint xi (boundaryLeft rb)], rangeIdx)
  else (fullBaseline ++ [mkPoint xi (boundaryRight rb)], rangeIdx).

(** What the loop pushes for an index outside the range. *)
Definition flatPoint (i : nat) : DataPoint :=
  mkPoint (x (get origin data i))
          (if (i <? get 0%nat ri 0)%nat then boundaryLeft rb
           else boundaryRight rb).

(** What the loop pushes for the [k]-th index of the range. *)
Definition rangePoint (i k : nat) : DataPoint :=
  mkPoint (x (get origin data i)) (y (get origin rb k)).

Lemma extendFlat_unfold :
  extendFlat data ri rb
  = fst (fold_left extendStep (seq 0 (length data)) ([], 0%nat)).
Proof.
  unfold extendFlat, range. now rewrite Nat.sub_0_r.
Qed.

Hypothesis Hincr : increasing ri.

Lemma extend_loop len : forall s full k,
  length full = s ->
  (forall j, (j < k)%nat -> (j < length ri)%nat -> (get 0%nat ri j < s)%nat) ->
  (forall j, (k <= j < length ri)%nat -> (s <= get 0%nat ri j)%nat) ->
  let L := fst (fold_left extendStep (seq s len) (full, k)) in
  length L = (s + len)%nat
  /\ (forall i, (i < s)%nat -> get origin L i = get origin full i)
  /\ (forall j, (k <= j < length ri)%nat -> (get 0%nat ri j < s + len)%nat ->
        get origin L (get 0%nat ri j) = rangePoint (get 0%nat ri j) j)
  /\ (forall i, (s <= i < s + len)%nat ->
        (forall j, (j < length ri)%nat -> get 0%nat ri j <> i) ->
        get origin L i = flatPoint i).
Proof.
  induction len as [|len IH]; intros s full k Hlen Hlow Hhigh; cbn zeta.
  - simpl. split; [lia|]. split; [auto|]. split.
    + intros j Hj Hlt. specialize (Hhigh j Hj). lia.
    + intros i Hi. lia.
  - cbn [seq fold_left].
    assert (Hat : forall P, get origin (full ++ [P]) s = P).
    { intros P. unfold get. rewrite <- Hlen. apply nth_middle. }
    assert (Hbelow : forall P i, (i < s)%nat ->
              get origin (full ++ [P]) i = get origin full i).
    { intros P i Hi. unfold get. apply app_nth1. lia. }
    remember (extendStep (full, k) s) as st eqn:Hst.
    unfold extendStep in Hst.
    destruct ((k <? length ri)%nat && (s =? get 0%nat ri k)%nat) eqn:Hcond.
    + subst st. apply andb_true_iff in Hcond. destruct Hcond as [Hk Hs].
      apply Nat.ltb_lt in Hk. apply Nat.eqb_eq in Hs.
      destruct (IH (S s)
                  (full ++ [mkPoint (x (get origin data s))
                                    (y (get origin rb k))])
                  (k + 1)%nat)
        as (HL & Hpre & Hin & Hout).
      * rewrite length_app. simpl. lia.
      * intros j Hj Hjr. destruct (Nat.eq_dec j k) as [->|Hne]; [lia|].
        specialize (Hlow j ltac:(lia) Hjr). lia.
      * intros j Hj. specialize (Hincr k j ltac:(lia)). lia.
      * repeat split.
        -- lia.
        -- intros i Hi. rewrite Hpre by lia. now apply Hbelow.
        -- intros j Hj Hlt. destruct (Nat.eq_dec j k) as [->|Hne].
           ++ rewrite <- Hs. rewrite Hpre by lia. rewrite Hat.
              reflexivity.
           ++ apply Hin; lia.
        -- intros i Hi Hnot. apply Hout; [|exact Hnot].
           specialize (Hnot k Hk). lia.
    + assert (Hnext : forall j, (k <= j < length ri)%nat ->
                        (S s <= get 0%nat ri j)%nat).
      { intros j Hj. destruct (Nat.eq_dec j k) as [->|Hne].
        - specialize (Hhigh k Hj).
          apply andb_false_iff in Hcond. destruct Hcond as [Hc|Hc].
          + apply Nat.ltb_ge in Hc. lia.
          + apply Nat.eqb_neq in Hc. lia.
        - specialize (Hincr k j ltac:(lia)).
          specialize (Hhigh k ltac:(lia)). lia. }
      assert (Hstep :
        (if (s <? get 0%nat ri 0)%nat
         then (full ++ [mkPoint (x (get origin data s)) (boundaryLeft rb)], k)
         else (full ++ [mkPoint (x (get origin data s)) (boundaryRight rb)], k))
        = (full ++ [flatPoint s], k)).
      { unfold flatPoint. now destruct (s <? get 0%nat ri 0)%nat. }
      rewrite Hstep in Hst. subst st.
      destruct (IH (S s) (full ++ [flatPoint s]) k) as (HL & Hpre & Hin & Hout).
      * rewrite length_app. simpl. lia.
      * intros j Hj Hjr. specialize (Hlow j Hj Hjr). lia.
      * exact Hnext.
      * repeat split.
        -- lia.
        -- intros i Hi. rewrite Hpre by lia. now apply Hbelow.
        -- intros j Hj Hlt. apply Hin; lia.
        -- intros i Hi Hnot. destruct (Nat.eq_dec i s) as [->|Hne].
           ++ rewrite Hpre by lia. apply Hat.
           ++ apply Hout; [lia | exact Hnot].
Qed.

(** The extended baseline, index by index. *)
Lemma extendFlat_spec :
  (forall j, (j < length ri)%nat -> (get 0%nat ri j < length data)%nat) ->
  length (extendFlat data ri rb) = length data
  /\ (forall j, (j < length ri)%nat ->
        get origin (extendFlat data ri rb) (get 0%nat ri j)
        = rangePoint (get 0%nat ri j) j)
  /\ (forall i, (i < length data)%nat ->
        (forall j, (j < length ri)%nat -> get 0%nat ri j <> i) ->
        get origin (extendFlat data ri rb) i = flatPoint i).
Proof.
  intros Hbound. rewrite extendFlat_unfold.
  destruct (extend_loop (length data) 0 [] 0) as (HL & _ & Hin & Hout);
    try (intros; simpl; lia); auto.
  repeat split.
  - exact HL.
  - intros j Hj. apply Hin; [lia|]. simpl. now apply Hbound.
  - intros i Hi Hnot. apply Hout; [lia | exact Hnot].
Qed.

End Extension.

(** *** The selection *)

Section Selection.

Variable f : nat * DataPoint -> bool.

Lemma selection_spec data : forall s,
  let sel := filter f (combine (seq s (length data)) data) in
  Forall (fun i => (s <= i < s + length data)%nat
                   /\ f (i, get origin data (i - s)) = true)
         (map fst sel)
  /\ (forall i, (s <= i < s + length data)%nat ->
        f (i, get origin data (i - s)) = true -> In i (map fst sel))
  /\ increasing (map fst sel)
  /\ (forall k, (k < length sel)%nat ->
        get origin (map snd sel) k
        = get origin data (get 0%nat (map fst sel) k - s)).
Proof.
  induction data as [|d rest IH]; intros s; cbn zeta.
  - simpl. repeat split; auto.
    + intros i Hi. lia.
    + intros a b Hab. simpl in Hab. lia.
    + intros k Hk. lia.
  - cbn [length seq combine filter].
    destruct (IH (S s)) as (Hall & Hmem & Hinc & Hsnd).
    set (sel := filter f (combine (seq (S s) (length rest)) rest)) in *.
    assert (Hall' : Forall (fun i => (s <= i < s + S (length rest))%nat
                            /\ f (i, get origin (d :: rest) (i - s)) = true)
                           (map fst sel)).
    { eapply Forall_impl; [|exact Hall]. intros i [Hi Hf]. split; [lia|].
      replace (i - s)%nat with (S (i - S s)) by lia. exact Hf. }
    assert (Hmem' : forall i, (S s <= i < s + S (length rest))%nat ->
              f (i, get origin (d :: rest) (i - s)) = true ->
              In i (map fst sel)).
    { intros i Hi Hf. apply Hmem; [lia|].
      replace (i - s)%nat with (S (i - S s)) in Hf by lia. exact Hf. }
    assert (Hsnd' : forall k, (k < length sel)%nat ->
              get origin (map snd sel) k
              = get origin (d :: rest) (get 0%nat (map fst sel) k - s)).
    { intros k Hk. rewrite Hsnd by assumption.
      assert (Hge : (S s <= get 0%nat (map fst sel) k)%nat).
      { rewrite Forall_forall in Hall.
        apply Hall. apply nth_In. now rewrite length_map. }
      replace (get 0%nat (map fst sel) k - s)%nat
        with (S (get 0%nat (map fst sel) k - S s)) by lia.
      reflexivity. }
    destruct (f (s, d)) eqn:Hd; cbn [map fst snd].
    + repeat split.
      * constructor; [|exact Hall'].
        split; [lia|]. now rewrite Nat.sub_diag.
      * intros i Hi Hf. destruct (Nat.eq_dec i s) as [->|Hne];
          [now left | right; apply Hmem'; [lia | exact Hf]].
      * intros [|a] [|b] Hab; cbn [length] in Hab; try lia.
        -- unfold get. cbn [nth].
           rewrite Forall_forall in Hall.
           assert (Hin : In (nth b (map fst sel) 0%nat) (map fst sel))
             by (apply nth_In; lia).
           destruct (Hall _ Hin). lia.
        -- apply (Hinc a b). lia.
      * intros [|k] Hk; cbn [length] in Hk.
        -- unfold get. cbn [nth]. now rewrite Nat.sub_diag.
        -- apply Hsnd'. lia.
    + repeat split; auto.
      intros i Hi Hf. destruct (Nat.eq_dec i s) as [->|Hne].
      * rewrite Nat.sub_diag in Hf. unfold get in Hf. cbn [nth] in Hf.
        congruence.
      * apply Hmem'; [lia | exact Hf].
Qed.

Lemma filter_all {A} (g : A -> bool) (l : list A) :
  length (filter g l) = length l -> filter g l = l.
Proof.
  induction l as [|a l IH]; simpl; [reflexivity|].
  destruct (g a); simpl; intros H.
  - f_equal. apply IH. lia.
  - pose proof (filter_length_le g l). lia.
Qed.

End Selection.

Lemma map_snd_combine_seq {A} (l : list A) s :
  map snd (combine (seq s (length l)) l) = l.
Proof.
  revert s. induction l as [|a l IH]; intros s; simpl; [reflexivity|].
  now rewrite IH.
Qed.

Lemma map_fst_combine_seq {A} (l : list A) s :
  map fst (combine (seq s (length l)) l) = seq s (length l).
Proof.
  revert s. induction l as [|a l IH]; intros s; simpl; [reflexivity|].
  now rewrite IH.
Qed.

End RangeFacts.

Module BaselineClaims.

Import JS JSFacts ArrayFacts Baseline AlignmentFacts RangeFacts.

(** Three samples on a parabola. *)
Definition ramp : list DataPoint := [mkPoint 0 0; mkPoint 1 1; mkPoint 2 4].

(** A linear baseline with a calc-range that starts at [x = 5]. *)
Definition linearFrom5 : BaselineOptions :=
  mkOptions Mlinear None None None None None None None None None None
            (Some 5) None None None None.

(** The last part of the claim as it is stated: a sample outside the
    calc-range carries a boundary value of the baseline computed on the
    samples inside it. *)
Definition flatOutsideRange (data : list DataPoint)
    (options : BaselineOptions) : Prop :=
  forall i,
    (i < length data)%nat ->
    inRange options (x (get origin data i)) = false ->
    let restricted := methodBaseline (map snd (selectRange data options))
                                     options in
    y (get origin (calculateBaseline data options) i) = boundaryLeft restricted
    \/ y (get origin (calculateBaseline data options) i)
       = boundaryRight restricted.

Lemma calculateBaseline_ramp :
  map y (calculateBaseline ramp linearFrom5) = [0; 2; 4].
Proof.
  unfold calculateBaseline, rangeOf, selectRange, inRange.
  run_arrays. settle_comparisons. run_arrays.
  repeat (f_equal; try lra).
Qed.

(** C3, as stated, fails: no sample of the ramp lies in the calc-range,
    the baseline is the line through the end points of all the data, and
    its middle value 2 is no boundary value. *)
Lemma C3_counterexample : ~ flatOutsideRange ramp linearFrom5.
Proof.
  intros H. specialize (H 1%nat).
  assert (Hy : y (get origin (calculateBaseline ramp linearFrom5) 1) = 2).
  { pose proof calculateBaseline_ramp as Hc.
    assert (Hg : get 0 (map y (calculateBaseline ramp linearFrom5)) 1 = 2)
      by (rewrite Hc; reflexivity).
    rewrite (get_map origin 0) in Hg; [exact Hg|].
    rewrite <- (length_map y), Hc. simpl. lia. }
  rewrite Hy in H. revert H.
  unfold inRange, selectRange, methodBaseline. run_arrays.
  settle_comparisons. intros H.
  destruct H as [H|H]; try lia; try reflexivity; lra.
Qed.

Lemma length_selectRange_le data options :
  (length (selectRange data options) <= length data)%nat.
Proof.
  unfold selectRange.
  etransitivity; [apply filter_length_le|].
  rewrite length_combine, length_seq. lia.
Qed.

(** C3, amended.  The baseline has the length and the abscissae of its
    input, for every method and calc-range.  When two or more samples
    lie in the calc-range, the baseline computed on them is placed at
    their indices and every other sample gets its first value when it
    comes before the first of them and its last value otherwise.  When
    fewer than two do, or no calc-range is given, the baseline is the
    method's baseline of the whole dataset. *)
Theorem C3_aligned_and_flat_extended (data : list DataPoint)
    (options : BaselineOptions) :
  let result := calculateBaseline data options in
  let sel := selectRange data options in
  let rangeIndices := map fst sel in
  let restricted := methodBaseline (map snd sel) options in
  length result = length data
  /\ map x result = map x data
  /\ (method options <> Mnone ->
      hasRange options = true ->
      (2 <= length sel)%nat ->
      (forall k, (k < length sel)%nat ->
         y (get origin result (get 0%nat rangeIndices k))
         = y (get origin restricted k))
      /\ (forall i, (i < length data)%nat ->
            inRange options (x (get origin data i)) = false ->
            y (get origin result i)
            = if (i <? get 0%nat rangeIndices 0)%nat
              then boundaryLeft restricted
              else boundaryRight restricted))
  /\ (hasRange options = false \/ (length sel < 2)%nat ->
      result = methodBaseline data options).
Proof.
  intros result sel rangeIndices restricted.
  destruct (selection_spec (fun id => inRange options (x (snd id))) data 0)
    as (Hall & Hmem & Hinc & Hsnd).
  fold (selectRange data options) in Hall, Hmem, Hinc, Hsnd.
  fold sel in Hall, Hmem, Hinc, Hsnd. fold rangeIndices in Hall, Hmem, Hinc, Hsnd.
  rewrite Forall_forall in Hall.
  assert (HinR : forall j, (j < length sel)%nat ->
            (get 0%nat rangeIndices j < length data)%nat
            /\ inRange options (x (get origin data (get 0%nat rangeIndices j)))
               = true).
  { intros j Hj.
    destruct (Hall (get 0%nat rangeIndices j)) as [Hb Hf].
    - apply nth_In. unfold rangeIndices. now rewrite length_map.
    - cbn [snd] in Hf. rewrite Nat.sub_0_r in Hf. split; [lia | exact Hf]. }
  assert (Hwhole : calculateBaseline data options = methodBaseline data options
                   -> length result = length data /\ map x result = map x data).
  { intros Heq. unfold result. rewrite Heq.
    pose proof (aligned_method data options) as Ha.
    split; [now apply aligned_length | exact Ha]. }
  assert (Hnone : method options = Mnone ->
                  calculateBaseline data options = methodBaseline data options).
  { intros Hm. unfold calculateBaseline, methodBaseline. now rewrite Hm. }
  assert (Hdirect : hasRange options = false \/ (length sel < 2)%nat ->
                    calculateBaseline data options = methodBaseline data options).
  { intros Hcase.
    destruct (method options) eqn:Hm; [now apply Hnone| | | | | |];
      unfold calculateBaseline, rangeOf; rewrite Hm;
      fold (selectRange data options); fold sel;
      (destruct (hasRange options) eqn:Hr;
       [ destruct Hcase as [Hc|Hc]; [discriminate|];
         replace (length sel <? 2)%nat with true
           by (symmetry; apply Nat.ltb_lt; lia);
         cbn [negb orb]; rewrite length_seq, Nat.eqb_refl; reflexivity
       | reflexivity ]). }
  assert (Hranged : method options <> Mnone -> hasRange options = true ->
                    (2 <= length sel)%nat ->
                    calculateBaseline data options
                    = if (length rangeIndices =? length data)%nat
                      then restricted
                      else extendFlat data rangeIndices restricted).
  { intros Hm Hr H2.
    destruct (method options) eqn:Hmeth; [congruence| | | | | |];
      unfold calculateBaseline, rangeOf; rewrite Hmeth, Hr;
      fold (selectRange data options); fold sel;
      replace (length sel <? 2)%nat with false
        by (symmetry; apply Nat.ltb_ge; lia);
      reflexivity. }
  assert (Hlenri : length rangeIndices = length sel).
  { unfold rangeIndices. apply length_map. }
  (* the two shapes of a ranged result *)
  assert (Hshape : method options <> Mnone -> hasRange options = true ->
            (2 <= length sel)%nat ->
            length result = length data
            /\ (forall k, (k < length sel)%nat ->
                  get origin result (get 0%nat rangeIndices k)
                  = rangePoint data restricted (get 0%nat rangeIndices k) k)
            /\ (forall i, (i < length data)%nat ->
                  inRange options (x (get origin data i)) = false ->
                  get origin result i = flatPoint data rangeIndices restricted i)).
  { intros Hm Hr H2. unfold result. rewrite (Hranged Hm Hr H2).
    destruct (length rangeIndices =? length data)%nat eqn:Hfull.
    - apply Nat.eqb_eq in Hfull. rewrite Hlenri in Hfull.
      assert (Hsel : sel = combine (seq 0 (length data)) data).
      { unfold sel, selectRange. apply filter_all.
        fold (selectRange data options). fold sel.
        rewrite Hfull, length_combine, length_seq. lia. }
      assert (Hri : rangeIndices = seq 0 (length data)).
      { unfold rangeIndices. rewrite Hsel. apply map_fst_combine_seq. }
      assert (Hrd : map snd sel = data).
      { rewrite Hsel. apply map_snd_combine_seq. }
      pose proof (aligned_method (map snd sel) options) as Ha.
      fold restricted in Ha. rewrite Hrd in Ha.
      split; [now apply aligned_length|]. split.
      + intros k Hk. rewrite Hri. unfold get at 2 3.
        rewrite seq_nth by lia. cbn [Nat.add]. unfold rangePoint.
        assert (Hx : x (get origin restricted k) = x (get origin data k)).
        { rewrite <- !(get_map origin 0 x)
            by (rewrite ?(aligned_length _ _ Ha); lia).
          now rewrite Ha. }
        rewrite <- Hx. now destruct (get origin restricted k).
      + intros i Hi Hout. exfalso.
        destruct (HinR i) as [_ Hin]; [lia|].
        rewrite Hri in Hin. unfold get at 2 in Hin.
        rewrite seq_nth in Hin by lia. cbn [Nat.add] in Hin. congruence.
    - destruct (extendFlat_spec data rangeIndices restricted Hinc)
        as (HL & Hin & Hout).
      { intros j Hj. apply HinR. lia. }
      split; [exact HL|]. split.
      + intros k Hk. apply Hin. lia.
      + intros i Hi Hno. apply Hout; [exact Hi|].
        intros j Hj Heq. destruct (HinR j) as [_ Hyes]; [lia|].
        rewrite Heq in Hyes. congruence. }
  assert (Hdec : method options = Mnone \/ method options <> Mnone).
  { destruct (method options); [now left | right; discriminate ..]. }
  assert (Hsimple :
            calculateBaseline data options = methodBaseline data options ->
            (method options <> Mnone -> hasRange options = true ->
             (2 <= length sel)%nat -> False) ->
            length result = length data
            /\ map x result = map x data
            /\ (method options <> Mnone ->
                hasRange options = true ->
                (2 <= length sel)%nat ->
                (forall k, (k < length sel)%nat ->
                   y (get origin result (get 0%nat rangeIndices k))
                   = y (get origin restricted k))
                /\ (forall i, (i < length data)%nat ->
                      inRange options (x (get origin data i)) = false ->
                      y (get origin result i)
                      = if (i <? get 0%nat rangeIndices 0)%nat
                        then boundaryLeft restricted
                        else boundaryRight restricted))
            /\ (hasRange options = false \/ (length sel < 2)%nat ->
                result = methodBaseline data options)).
  { intros Heq Habs. destruct (Hwhole Heq) as [H1 H2].
    split; [exact H1|]. split; [exact H2|]. split.
    - intros Ha Hb Hc. destruct (Habs Ha Hb Hc).
    - intros _. exact Heq. }
  destruct Hdec as [Hm|Hne].
  { apply Hsimple; [now apply Hnone | intros Hc; congruence]. }
  destruct (hasRange options) eqn:Hr.
  2:{ apply Hsimple; [apply Hdirect; now left | intros _ Hc; discriminate]. }
  destruct (Nat.lt_ge_cases (length sel) 2) as [Hfew|Hmany].
  { apply Hsimple; [apply Hdirect; now right | intros _ _ Hc; lia]. }
  destruct (Hshape Hne eq_refl Hmany) as (HL & Hin & Hout).
  split; [exact HL|]. split; [|split].
  - apply (list_eq_get 0); [now rewrite !length_map|].
    intros i Hi. rewrite length_map, HL in Hi.
    rewrite !(get_map origin 0) by lia.
    destruct (inRange options (x (get origin data i))) eqn:Hio;
      [ | now rewrite Hout ].
    assert (Hmemi : In i rangeIndices)
      by (apply Hmem; [lia | cbn [snd]; now rewrite Nat.sub_0_r]).
    destruct (In_nth _ _ 0%nat Hmemi) as (k & Hk & Hki).
    fold (get 0%nat rangeIndices k) in Hki.
    rewrite <- Hki, Hin by lia. reflexivity.
  - intros _ _ _. split.
    + intros k Hk. now rewrite Hin.
    + intros i Hi Hno. rewrite Hout by assumption. reflexivity.
  - intros [Hc|Hc]; [discriminate | lia].
Qed.

End BaselineClaims.

(** ** Levenberg-Marquardt *)

Module LMFacts.

Import JS JSFacts ArrayFacts LM.

Lemma range_cons n : (0 < n)%nat -> range 0 n = 0%nat :: seq 1 (n - 1).
Proof.
  intros Hn. unfold range. rewrite Nat.sub_0_r.
  destruct n as [|n]; [lia|]. simpl. now rewrite Nat.sub_0_r.
Qed.

(** The Jacobian of a non-empty dataset has a first row, as long as the
    parameter vector. *)
Lemma calculateJacobian_shape x params modelFunc :
  x <> [] ->
  exists row0 rest,
    calculateJacobian x params modelFunc = row0 :: rest
    /\ length row0 = length params.
Proof.
  intros Hx. unfold calculateJacobian. cbv zeta.
  rewrite (range_cons (length x)) by (destruct x; [congruence | simpl; lia]).
  cbn [map]. eexists. eexists. split; [reflexivity|].
  now rewrite !length_map, length_range, Nat.sub_0_r.
Qed.

(** With data and parameters the normal equations are formed: neither
    [transpose] nor [matrixMultiply] meets an empty matrix. *)
Lemma normalEquations_some x modelFunc st :
  x <> [] -> st_params st <> [] ->
  exists H JtR, normalEquations x modelFunc st = Some (H, JtR).
Proof.
  intros Hx Hp. unfold normalEquations. cbv zeta.
  destruct (calculateJacobian_shape x (st_params st) modelFunc Hx)
    as (row0 & rest & HJ & Hrow).
  rewrite HJ. cbn [transpose].
  rewrite (range_cons (length row0))
    by (rewrite Hrow; destruct (st_params st); [congruence | simpl; lia]).
  cbn [map matrixMultiply]. eexists. eexists. reflexivity.
Qed.

Section Loop.

Variables (x y : list R).
Variable modelFunc : list R -> list R -> list R.
Variables (tolerance lambdaUp lambdaDown : R).

Hypothesis Hx : x <> [].

Lemma iteration_some st iter :
  st_params st <> [] ->
  exists st' flow evs,
    iteration x y modelFunc tolerance lambdaUp lambdaDown st iter
    = Some (st', flow, evs)
    /\ length (st_params st') = length (st_params st).
Proof.
  intros Hp. unfold iteration. cbv zeta.
  destruct (normalEquations_some x modelFunc
              (mkLMState (st_params st) (st_lambda st) (st_yPred st)
                         (st_residuals st) (st_chiSquared st) (iter + 1)
                         (st_converged st)) Hx Hp) as (H & JtR & Hne).
  rewrite Hne. cbn [st_params st_lambda st_chiSquared].
  destruct (solveLinear H JtR) as [delta|].
  - destruct (Rlt_dec _ _).
    + destruct (Rlt_dec _ _); do 3 eexists; (split; [reflexivity|]);
        cbn [st_params]; apply length_mapi.
    + do 3 eexists. split; reflexivity.
  - do 3 eexists. split; reflexivity.
Qed.

(** Every pass that returns has computed one Jacobian, at the parameters
    it started from, before anything else. *)
Lemma iteration_events st iter st' flow evs :
  iteration x y modelFunc tolerance lambdaUp lambdaDown st iter
  = Some (st', flow, evs) ->
  exists outcome, evs = [JacobianComputed (st_params st); outcome].
Proof.
  unfold iteration. cbv zeta.
  destruct (normalEquations _ _ _) as [[H JtR]|]; [|discriminate].
  cbn [st_params st_lambda st_chiSquared].
  destruct (solveLinear H JtR).
  - destruct (Rlt_dec _ _); [destruct (Rlt_dec _ _)|];
      intros Heq; injection Heq as _ _ <-; eexists; reflexivity.
  - intros Heq; injection Heq as _ _ <-; eexists; reflexivity.
Qed.

Lemma loop_some remaining : forall iter st,
  st_params st <> [] ->
  exists st' evs,
    loop x y modelFunc tolerance lambdaUp lambdaDown remaining iter st
    = Some (st', evs)
    /\ length (st_params st') = length (st_params st).
Proof.
  induction remaining as [|remaining IH]; intros iter st Hp; cbn [loop].
  - do 2 eexists. split; reflexivity.
  - destruct (iteration_some st iter Hp) as (st1 & flow & evs & Hit & Hlen).
    rewrite Hit. destruct flow.
    + assert (Hp1 : st_params st1 <> []).
      { intros Hnil. rewrite Hnil in Hlen.
        destruct (st_params st); [congruence | discriminate]. }
      destruct (IH (iter + 1)%nat st1 Hp1) as (st2 & evs2 & Hloop & Hlen2).
      rewrite Hloop. do 2 eexists. split; [reflexivity | congruence].
    + do 2 eexists. split; [reflexivity | exact Hlen].
Qed.

End Loop.

(** The optimizer returns on every non-empty dataset and parameter
    vector, with as many parameters as it was given. *)
Lemma levenbergMarquardt_some x y initialParams modelFunc options :
  x <> [] -> initialParams <> [] ->
  exists result,
    levenbergMarquardt x y initialParams modelFunc options = Some result
    /\ length (params result) = length initialParams.
Proof.
  intros Hx Hp. unfold levenbergMarquardt, run. cbv zeta.
  match goal with
  | |- context [loop x y modelFunc ?t ?u ?d ?n 0 ?st] =>
      destruct (loop_some x y modelFunc t u d Hx n 0%nat st Hp)
        as (st' & evs & Hloop & Hlen);
      rewrite Hloop
  end.
  eexists. split; [reflexivity | exact Hlen].
Qed.

End LMFacts.

Module LMClaims.

Import JS JSFacts ArrayFacts LM LMFacts.

(** One observation and a model that ignores its single parameter. *)
Definition flatModel (x params : list R) : list R := [0].
Definition twoPasses : LMOptions :=
  mkLMOptions (Some 2%nat) None None None None.

(** A pass that computes a Jacobian right after a pass whose solve
    failed. *)
Fixpoint recomputesAfterFailure (evs : list Event) : bool :=
  match evs with
  | [] => false
  | SolveFailed :: ((JacobianComputed _ :: _) as rest) => true
  | _ :: rest => recomputesAfterFailure rest
  end.

(** The claim as it is stated: after a failed solve the step is retried
    on the Jacobian at hand, no new one is computed. *)
Definition retriesWithoutNewJacobian (x y initialParams : list R)
    (modelFunc : list R -> list R -> list R) (options : LMOptions) : Prop :=
  forall st evs,
    run x y initialParams modelFunc options = Some (st, evs) ->
    recomputesAfterFailure evs = false.

Lemma run_flatModel :
  exists st,
    run [0] [1] [0] flatModel twoPasses
    = Some (st, [JacobianComputed [0]; SolveFailed;
                 JacobianComputed [0]; StepRejected]).
Proof.
  unfold run, twoPasses, flatModel. cbn [coalesce LM.maxIterations
    LM.tolerance LM.lambdaInit LM.lambdaUp LM.lambdaDown].
  unfold loop, iteration, normalEquations, solveLinear.
  run_arrays. settle_comparisons.
  eexists. reflexivity.
Qed.

(** C2, as stated, fails: on the flat model the first solve is singular
    and the second pass computes the Jacobian again, at the same
    parameters. *)
Lemma C2_counterexample :
  ~ retriesWithoutNewJacobian [0] [1] [0] flatModel twoPasses.
Proof.
  intros H. destruct run_flatModel as (st & Hrun).
  specialize (H _ _ Hrun). discriminate.
Qed.

(** C2, amended.  A pass whose damped solve fails multiplies [lambda] by
    [lambdaUp], leaves parameters, residuals and chi-squared as they
    are, and uses up one iteration; the next pass computes the Jacobian
    again, at the same parameters (so to the same matrix). *)
Theorem C2_failed_solve_raises_damping (x y : list R)
    (modelFunc : list R -> list R -> list R)
    (tolerance lambdaUp lambdaDown : R) (st : LMState) (iter : nat)
    (H : Matrix) (JtR : list R) :
  normalEquations x modelFunc st = Some (H, JtR) ->
  solveLinear H JtR = None ->
  exists st',
    iteration x y modelFunc tolerance lambdaUp lambdaDown st iter
    = Some (st', Continue, [JacobianComputed (st_params st); SolveFailed])
    /\ st_lambda st' = st_lambda st * lambdaUp
    /\ st_params st' = st_params st
    /\ st_residuals st' = st_residuals st
    /\ st_chiSquared st' = st_chiSquared st
    /\ st_iterations st' = (iter + 1)%nat
    /\ (forall st'' flow evs,
          iteration x y modelFunc tolerance lambdaUp lambdaDown st' (iter + 1)
          = Some (st'', flow, evs) ->
          exists outcome, evs = [JacobianComputed (st_params st); outcome])
    /\ calculateJacobian x (st_params st') modelFunc
       = calculateJacobian x (st_params st) modelFunc.
Proof.
  intros Hne Hsolve.
  unfold iteration at 1. cbv zeta.
  change (normalEquations x modelFunc
            (mkLMState (st_params st) (st_lambda st) (st_yPred st)
                       (st_residuals st) (st_chiSquared st) (iter + 1)
                       (st_converged st)))
    with (normalEquations x modelFunc st).
  rewrite Hne, Hsolve. cbn [st_params st_lambda st_yPred st_residuals
                             st_chiSquared st_iterations st_converged].
  eexists. split; [reflexivity|].
  cbn [st_params st_lambda st_residuals st_chiSquared st_iterations].
  repeat split.
  intros st'' flow evs Hnext.
  apply (iteration_events _ _ _ _ _ _ _ _ _ _ _ Hnext).
Qed.

Lemma C2_witness :
  exists st',
    iteration [0] [1] flatModel 1e-8 10 0.1
              (initialState [0] [1] [0] flatModel 0.001) 0
    = Some (st', Continue, [JacobianComputed [0]; SolveFailed])
    /\ st_lambda st' = 0.001 * 10
    /\ st_params st' = [0]
    /\ st_residuals st' = st_residuals (initialState [0] [1] [0] flatModel 0.001)
    /\ st_chiSquared st' = st_chiSquared (initialState [0] [1] [0] flatModel 0.001)
    /\ st_iterations st' = 1%nat
    /\ (forall st'' flow evs,
          iteration [0] [1] flatModel 1e-8 10 0.1 st' 1
          = Some (st'', flow, evs) ->
          exists outcome, evs = [JacobianComputed [0]; outcome])
    /\ calculateJacobian [0] (st_params st') flatModel
       = calculateJacobian [0] [0] flatModel.
Proof.
  eapply (C2_failed_solve_raises_damping [0] [1] flatModel 1e-8 10 0.1
            (initialState [0] [1] [0] flatModel 0.001) 0).
  - unfold normalEquations, flatModel. run_arrays. reflexivity.
  - unfold solveLinear. run_arrays. settle_comparisons. reflexivity.
Defined.

End LMClaims.

(** ** Fit orchestrator *)

Module FitFacts.

Import JS JSFacts ArrayFacts Baseline Fit.

Lemma nonempty_length {A} (l : list A) : l <> [] -> (length l =? 0)%nat = false.
Proof. destruct l; [congruence | reflexivity]. Qed.

Lemma packComponents_nonempty components :
  components <> [] -> packComponents components <> [].
Proof. destruct components; [congruence | discriminate]. Qed.

(** On data and components the optimizer inside [fitPeaks] returns. *)
Lemma optimize_some data components baseline baselineOptions maxIterations :
  data <> [] -> components <> [] ->
  exists lmResult,
    optimize data components baseline baselineOptions maxIterations
    = Some lmResult.
Proof.
  intros Hd Hc. unfold optimize.
  destruct (LMFacts.levenbergMarquardt_some
              (s_xVals (setup data components baseline baselineOptions))
              (s_targetYVals (setup data components baseline baselineOptions))
              (s_initialParams (setup data components baseline baselineOptions))
              (s_modelFunc (setup data components baseline baselineOptions))
              (LM.mkLMOptions (Some maxIterations) (Some 1e-8) None None None))
    as (lm & Hlm & _).
  - unfold setup. cbn [s_xVals]. destruct data; [congruence | discriminate].
  - unfold setup. cbn [s_initialParams].
    pose proof (packComponents_nonempty components Hc) as Hp.
    destruct (packComponents components); [congruence | discriminate].
  - exists lm. exact Hlm.
Qed.

(** The parameters a call hands back, whether or not its baseline stays
    finite. *)
Definition returnedParameters (o : Outcome) : option (list PeakComponent) :=
  match o with
  | Returns r => Some (parameters r)
  | NonFinite r => Some (fp_parameters r)
  | Throws => None
  end.

Lemma returnedParameters_fitPeaks data components baseline baselineOptions
    maxIterations lmResult :
  data <> [] -> components <> [] ->
  optimize data components baseline baselineOptions maxIterations
  = Some lmResult ->
  returnedParameters
    (fitPeaks data components baseline baselineOptions maxIterations)
  = Some (unpack components (LM.params lmResult)).
Proof.
  intros Hd Hc Hopt. unfold fitPeaks.
  rewrite (nonempty_length data Hd), (nonempty_length components Hc).
  cbn [orb]. cbv zeta. rewrite Hopt.
  match goal with
  | |- context [match ?o with Some _ => _ | None => _ end] =>
      destruct o as [[ob obp]|]
  end; reflexivity.
Qed.

Lemma Forall_mapi {A B} (P : B -> Prop) (f : A -> nat -> B) a :
  (forall v i, P (f v i)) -> Forall P (mapi f a).
Proof.
  intros H. unfold mapi. apply Forall_forall. intros b Hb.
  apply in_map_iff in Hb. destruct Hb as ([i v] & <- & _). apply H.
Qed.

(** *** R-squared *)

(** The mean of the raw [y] and the total sum of squares about it. *)
Definition meanY (data : list DataPoint) : R :=
  fold_left (fun sum d => sum + y d) data 0 / INR (length data).

Definition ssTot (data : list DataPoint) : R :=
  fold_left (fun s d => s + (y d - meanY data) ^ 2) data 0.

(** The sum of squared differences of two curves, index by index. *)
Definition squaredDistance (a b : list DataPoint) : R :=
  fold_left (fun s ab => s + (y (fst ab) - y (snd ab)) ^ 2) (combine a b) 0.

(** The residual sum of squares of a result: its baseline-corrected data
    against its fitted peak sum. *)
Definition ssRes (r : FitResult) : R :=
  squaredDistance (baselineCorrectedData r) (fittedData r).

Lemma normFactor_one : normFactor = 1.
Proof. unfold normFactor. lra. Qed.

Lemma combine_snoc {A B} (a : list A) (b : list B) u v :
  length a = length b ->
  combine (a ++ [u]) (b ++ [v]) = combine a b ++ [(u, v)].
Proof.
  revert b. induction a as [|h t IH]; intros [|h' t'] Hlen;
    simpl in *; try discriminate; [reflexivity|].
  f_equal. apply IH. lia.
Qed.

Lemma squaredDistance_snoc a b u v :
  length a = length b ->
  squaredDistance (a ++ [u]) (b ++ [v])
  = squaredDistance a b + (y u - y v) ^ 2.
Proof.
  intros Hlen. unfold squaredDistance.
  rewrite combine_snoc by assumption.
  now rewrite fold_left_app.
Qed.

(** What the loop over the data has accumulated when it ends. *)
Lemma curves_accumulate finalBaselineMap optimizedParams mean data :
  forall acc,
    length (c_baselineCorrectedData acc) = length (c_fittedData acc) ->
    c_sumSquaredResiduals acc
    = squaredDistance (c_baselineCorrectedData acc) (c_fittedData acc) ->
    let c := fold_left (curvesStep finalBaselineMap optimizedParams mean)
                       data acc in
    length (c_baselineCorrectedData c) = length (c_fittedData c)
    /\ c_sumSquaredResiduals c
       = squaredDistance (c_baselineCorrectedData c) (c_fittedData c)
    /\ c_sumSquaredTotal c
       = fold_left (fun s d => s + (y d - mean) ^ 2) data
                   (c_sumSquaredTotal acc).
Proof.
  induction data as [|d rest IH]; intros acc Hlen Hssr; cbn zeta.
  - simpl. auto.
  - cbn [fold_left].
    destruct (IH (curvesStep finalBaselineMap optimizedParams mean acc d))
      as (H1 & H2 & H3).
    + unfold curvesStep. cbn. rewrite !length_app. simpl. lia.
    + unfold curvesStep. cbn [c_sumSquaredResiduals c_baselineCorrectedData
                              c_fittedData].
      rewrite squaredDistance_snoc by assumption. rewrite Hssr.
      cbn [y]. rewrite normFactor_one. field.
    + split; [exact H1|]. split; [exact H2|]. rewrite H3. f_equal.
      unfold curvesStep. cbn [c_sumSquaredTotal]. rewrite normFactor_one.
      field.
Qed.

Lemma curvesOf_sums data finalBaseline optimizedParams :
  let c := curvesOf data finalBaseline optimizedParams in
  c_sumSquaredResiduals c
  = squaredDistance (c_baselineCorrectedData c) (c_fittedData c)
  /\ c_sumSquaredTotal c = ssTot data.
Proof.
  cbv zeta. unfold curvesOf. cbv zeta.
  match goal with
  | |- context [fold_left (curvesStep ?m ?ps ?mean) data ?acc] =>
      destruct (curves_accumulate m ps mean data acc) as (_ & Hssr & Hsst);
      [reflexivity | reflexivity |]
  end.
  split; [exact Hssr | exact Hsst].
Qed.

Lemma sum_of_squares_nonneg {A} (f : A -> R) l : forall acc,
  acc <= fold_left (fun s d => s + f d ^ 2) l acc.
Proof.
  induction l as [|d rest IH]; intros acc; simpl; [lra|].
  etransitivity; [|apply IH]. nra.
Qed.

Lemma ssTot_nonneg data : 0 <= ssTot data.
Proof.
  unfold ssTot. apply (sum_of_squares_nonneg (fun d => y d - meanY data)).
Qed.

(** The baseline of a simultaneous fit is infinite only for the rolling
    ball on three or more samples. *)
Lemma optimizedBaselineOf_none components o xVals yVals params :
  optimizedBaselineOf components o xVals yVals params = None ->
  method o = Mrolling_ball /\ (3 <= length xVals)%nat.
Proof.
  unfold optimizedBaselineOf, peakModel.
  destruct (method o); try discriminate.
  destruct (length xVals <? 3)%nat eqn:Hn; [discriminate|].
  intros _. split; [reflexivity|]. now apply Nat.ltb_ge.
Qed.

Lemma optimizeBaseline_true o :
  optimizeBaseline (Some o) = true -> optimizeSimultaneously o = Some true.
Proof.
  unfold optimizeBaseline.
  destruct (optimizeSimultaneously o) as [[|]|]; try discriminate.
  reflexivity.
Qed.

End FitFacts.

(** ** A fit worked through: one sample, one Lorentzian, two passes *)

Module FitRun.

Import JS JSFacts ArrayFacts Baseline Fit FitFacts.

(** Splits an equation of lists, pairs and options into its entries. *)
Ltac entrywise :=
  repeat match goal with
    | |- (_ :: _) = (_ :: _) => apply f_equal2
    | |- Some _ = Some _ => apply f_equal
    | |- (_, _) = (_, _) => apply f_equal2
    | |- [] = [] => reflexivity
    end.

(** The sample (0, -1) and a Lorentzian of amplitude 0 centred on it. *)
Definition oneSample : list DataPoint := [mkPoint 0 (-1)].
Definition oneLorentzian : list PeakComponent :=
  [mkComponent 1 lorentzianP 0 0 1 1 None None].

Definition model : list R -> list R -> list R :=
  s_modelFunc (setup oneSample oneLorentzian [] None).

Lemma model_value c a w :
  model [0] [c; a; w]
  = [0 + a * (w / 2) ^ 2 / ((0 - c) ^ 2 + (w / 2) ^ 2)].
Proof. reflexivity. Qed.

Lemma jacobian_start :
  LM.calculateJacobian [0] [0; 0; 1] model = [[0; 1; 0]].
Proof.
  unfold LM.calculateJacobian. cbv zeta.
  change (length [0]) with 1%nat. change (length [0; 0; 1]) with 3%nat.
  change (range 0 1) with [0%nat]. change (range 0 3) with [0; 1; 2]%nat.
  cbn [map set get nth]. rewrite !model_value. cbn [map get nth].
  entrywise; field.
Qed.
(** The damped normal equations at the start parameters, for any damping. *)
Definition dampedAt (lambda : R) : LM.Matrix :=
  [[lambda * 1e-10; 0; 0]; [0; 1 + lambda; 0]; [0; 0; lambda * 1e-10]].

Lemma normalEquations_start c a w r lambda yPred chi it cv :
  c = 0 -> a = 0 -> w = 1 -> r = -1 ->
  LM.normalEquations [0] model
    (LM.mkLMState [c; a; w] lambda yPred [r] chi it cv)
  = Some (dampedAt lambda, [0; -1; 0]).
Proof.
  intros -> -> -> ->.
  unfold LM.normalEquations. cbv zeta. cbn [LM.st_params LM.st_residuals
    LM.st_lambda]. rewrite jacobian_start.
  run_arrays. settle_comparisons.
  unfold dampedAt. entrywise; lra.
Qed.

(** Runs list code but leaves the two loops of the solver folded. *)
Ltac run_arrays_outside_solver :=
  cbv - [Rlt_dec Rle_dec Rgt_dec Rge_dec Req_dec_T Rplus Rminus Rmult Rdiv
         Rinv Ropp IZR Rabs Rmax Rmin exp ln sqrt Rpower Zceil Zfloor INR pow
         LM.forwardEliminate LM.findPivot LM.backSubstitute].

Lemma forwardEliminate_cons i rest aug n :
  LM.forwardEliminate (i :: rest) aug n
  = let aug1 := LM.swapRows aug i (LM.findPivot aug i n) in
    if Rlt_dec (Rabs (LM.at_ aug1 i i)) 1e-12 then None
    else LM.forwardEliminate rest (LM.eliminateColumn aug1 i n) n.
Proof. reflexivity. Qed.

Lemma forwardEliminate_nil aug n : LM.forwardEliminate [] aug n = Some aug.
Proof. reflexivity. Qed.

(** One column of the forward elimination: pivot search, row swap,
    pivot test, elimination. *)
Ltac eliminate_column :=
  rewrite forwardEliminate_cons; cbv zeta;
  match goal with
  | |- context [LM.findPivot ?aug ?i ?n] =>
      let H := fresh "Hpivot" in
      eassert (H : LM.findPivot aug i n = _);
      [ unfold LM.findPivot; run_arrays; settle_comparisons; reflexivity
      | rewrite !H; clear H ]
  end;
  run_arrays_outside_solver; settle_comparisons.

Ltac run_solveLinear :=
  unfold LM.solveLinear; run_arrays_outside_solver;
  repeat eliminate_column;
  rewrite ?forwardEliminate_nil; run_arrays.

Lemma solve_first : LM.solveLinear (dampedAt 0.001) [0; -1; 0] = None.
Proof.
  unfold dampedAt. run_solveLinear. reflexivity.
Qed.

Lemma solve_second :
  LM.solveLinear (dampedAt (0.001 * 10)) [0; -1; 0]
  = Some [0; - (100 / 101); 0].
Proof.
  unfold dampedAt. run_solveLinear. entrywise; lra.
Qed.

Section Run.

Variables (c a w r lambda chi t : R).
Variables (yPred : list R) (cv : bool) (k : nat).
Hypotheses (Hc : c = 0) (Ha : a = 0) (Hw : w = 1) (Hr : r = -1) (Ht : t = -1).

Lemma iteration_first :
  lambda = 0.001 ->
  LM.iteration [0] [t] model 1e-8 10 0.1
    (LM.mkLMState [c; a; w] lambda yPred [r] chi k cv) k
  = Some (LM.mkLMState [c; a; w] (lambda * 10) yPred [r] chi (k + 1) cv,
          LM.Continue, [LM.JacobianComputed [c; a; w]; LM.SolveFailed]).
Proof.
  intros Hl. unfold LM.iteration. cbv zeta.
  cbn [LM.st_params LM.st_lambda LM.st_yPred LM.st_residuals
       LM.st_chiSquared LM.st_iterations LM.st_converged].
  rewrite (normalEquations_start c a w r lambda) by assumption.
  rewrite Hl, solve_first. reflexivity.
Qed.

Lemma iteration_second :
  lambda = 0.001 * 10 -> chi = 1 ->
  exists st,
    LM.iteration [0] [t] model 1e-8 10 0.1
      (LM.mkLMState [c; a; w] lambda yPred [r] chi k cv) k
    = Some (st, LM.Continue,
            [LM.JacobianComputed [c; a; w]; LM.StepAccepted])
    /\ get 0 (LM.st_params st) 1 = - (100 / 101)
    /\ LM.st_iterations st = (k + 1)%nat.
Proof.
  intros Hl Hchi. unfold LM.iteration. cbv zeta.
  cbn [LM.st_params LM.st_lambda LM.st_yPred LM.st_residuals
       LM.st_chiSquared LM.st_iterations LM.st_converged].
  rewrite (normalEquations_start c a w r lambda) by assumption.
  rewrite Hl, solve_second.
  cbn [mapi map combine seq length get nth fst snd].
  rewrite model_value.
  cbn [mapi map combine seq length get nth fst snd LM.sumSquares fold_left].
  subst. settle_comparisons.
  eexists. split; [reflexivity|]. split; [|reflexivity].
  cbn. lra.
Qed.

End Run.

Lemma optimize_oneLorentzian :
  exists lm,
    optimize oneSample oneLorentzian [] None 2 = Some lm
    /\ LM.iterations lm = 2%nat
    /\ get 0 (LM.params lm) 1 = - (100 / 101).
Proof.
  unfold optimize, LM.levenbergMarquardt, LM.run.
  fold model.
  cbn [coalesce LM.maxIterations LM.tolerance LM.lambdaInit LM.lambdaUp
       LM.lambdaDown].
  change (s_xVals (setup oneSample oneLorentzian [] None)) with [0].
  change (s_targetYVals (setup oneSample oneLorentzian [] None))
    with [-1 - 0].
  change (s_initialParams (setup oneSample oneLorentzian [] None))
    with [0; 0 * 1; 1].
  unfold LM.initialState. cbv zeta. rewrite model_value.
  cbn [mapi map combine seq length get nth fst snd LM.sumSquares fold_left].
  cbn [LM.loop].
  rewrite iteration_first by lra.
  change (0 + 1)%nat with 1%nat.
  match goal with
  | |- context [LM.iteration [0] [?t] model _ _ _
                  (LM.mkLMState [?c; ?a; ?w] ?l ?yp [?r] ?chi ?k ?cv) ?k] =>
      destruct (iteration_second c a w r l chi t yp cv k)
        as (st & Hit & Hamp & Hiter); try lra
  end.
  rewrite Hit.
  eexists. split; [reflexivity|]. cbn [LM.iterations LM.params].
  split; [exact Hiter | exact Hamp].
Qed.

End FitRun.


Module FitClaims.

Import JS JSFacts ArrayFacts Baseline Fit FitFacts FitRun.

(** C5.  On an empty dataset or an empty component list [fitPeaks]
    returns, without throwing, the empty result: no curve, every
    statistic zero, the input components as parameters, no iteration and
    no convergence. *)
Theorem C5_degenerate_input_gives_empty_result (data : list DataPoint)
    (components : list PeakComponent) (baseline : list DataPoint)
    (baselineOptions : option BaselineOptions) (maxIterations : nat) :
  data = [] \/ components = [] ->
  exists r,
    fitPeaks data components baseline baselineOptions maxIterations = Returns r
    /\ fittedData r = [] /\ residuals r = [] /\ Fit.components r = []
    /\ Fit.baseline r = [] /\ baselineCorrectedData r = []
    /\ rSquared r = 0 /\ adjustedRSquared r = 0 /\ rmse r = 0
    /\ chiSquared r = 0 /\ reducedChiSquared r = 0 /\ aic r = 0 /\ bic r = 0
    /\ parameters r = components
    /\ converged r = false /\ iterations r = 0%nat.
Proof.
  intros Hempty. exists (emptyResult components). split.
  - unfold fitPeaks. destruct Hempty as [-> | ->]; [reflexivity|].
    now rewrite orb_true_r.
  - cbn. repeat split.
Qed.

Definition oneGaussian : list PeakComponent :=
  [mkComponent 1 gaussianP 0 10 1 1 None None].

Lemma C5_witness :
  exists r,
    fitPeaks [] oneGaussian [] None 200 = Returns r
    /\ fittedData r = [] /\ residuals r = [] /\ Fit.components r = []
    /\ Fit.baseline r = [] /\ baselineCorrectedData r = []
    /\ rSquared r = 0 /\ adjustedRSquared r = 0 /\ rmse r = 0
    /\ chiSquared r = 0 /\ reducedChiSquared r = 0 /\ aic r = 0 /\ bic r = 0
    /\ parameters r = oneGaussian
    /\ converged r = false /\ iterations r = 0%nat.
Proof.
  apply (C5_degenerate_input_gives_empty_result [] oneGaussian [] None 200).
  left. reflexivity.
Defined.

(** *** Clamping *)

(** What a returned component satisfies. *)
Definition clamped (c : PeakComponent) : Prop :=
  0.01 <= width c /\ 0 <= amplitude c /\ weight c = 1.

(** The same bounds on the packed vector of the optimizer. *)
Definition clampedVector (nComps : nat) (params : list R) : Prop :=
  forall i, (i < nComps)%nat ->
    0 <= get 0 params (i * 3 + 1) /\ 0.01 <= get 0 params (i * 3 + 2).

(** The last part of the claim as it is stated: whenever the optimizer
    has taken a step, its parameter vector is clamped. *)
Definition clampedAfterEveryStep (data : list DataPoint)
    (components : list PeakComponent) (baseline : list DataPoint)
    (baselineOptions : option BaselineOptions) : Prop :=
  forall maxIterations lm,
    optimize data components baseline baselineOptions maxIterations = Some lm ->
    (0 < LM.iterations lm)%nat ->
    clampedVector (length components) (LM.params lm).

(** C9, as stated, fails: fitted to the sample (0, -1), the optimizer
    holds the amplitude -100/101 after its second pass, an accepted
    step. *)
Lemma C9_counterexample :
  ~ clampedAfterEveryStep oneSample oneLorentzian [] None.
Proof.
  intros H. destruct optimize_oneLorentzian as (lm & Hopt & Hiter & Hamp).
  assert (Hstep : (0 < LM.iterations lm)%nat) by (rewrite Hiter; lia).
  destruct (H 2%nat lm Hopt Hstep 0%nat) as [Hpos _]; [simpl; lia|].
  change (0 * 3 + 1)%nat with 1%nat in Hpos. rewrite Hamp in Hpos. lra.
Qed.

(** C9, amended.  On data and components [fitPeaks] does not throw, and
    the parameters it returns are the optimizer's final vector unpacked
    once: width at least 0.01, amplitude at least 0, weight 1.  (The
    optimizer itself steps without clamping.) *)
Theorem C9_returned_parameters_are_clamped (data : list DataPoint)
    (components : list PeakComponent) (baseline : list DataPoint)
    (baselineOptions : option BaselineOptions) (maxIterations : nat) :
  data <> [] -> components <> [] ->
  exists lm ps,
    optimize data components baseline baselineOptions maxIterations = Some lm
    /\ returnedParameters
         (fitPeaks data components baseline baselineOptions maxIterations)
       = Some ps
    /\ ps = unpack components (LM.params lm)
    /\ Forall clamped ps.
Proof.
  intros Hd Hc.
  destruct (optimize_some data components baseline baselineOptions
              maxIterations Hd Hc) as (lm & Hopt).
  exists lm, (unpack components (LM.params lm)).
  split; [exact Hopt|]. split.
  - now apply returnedParameters_fitPeaks.
  - split; [reflexivity|]. unfold unpack. apply Forall_mapi.
    intros comp i. unfold clamped. cbn [width amplitude weight].
    split; [apply Rmax_l|]. split; [apply Rmax_l | lra].
Qed.

Lemma C9_witness :
  exists lm ps,
    optimize oneSample oneLorentzian [] None 2 = Some lm
    /\ returnedParameters (fitPeaks oneSample oneLorentzian [] None 2) = Some ps
    /\ ps = unpack oneLorentzian (LM.params lm)
    /\ Forall clamped ps.
Proof.
  apply (C9_returned_parameters_are_clamped oneSample oneLorentzian [] None 2);
    discriminate.
Defined.

(** *** R-squared *)

(** The claim as it is stated. *)
Definition rSquaredAsStated (data : list DataPoint) (r : FitResult) : Prop :=
  rSquared r = 1 - ssRes r / ssTot data.

(** Two samples and a Lorentzian ten times too tall, left where it is
    (no pass of the optimizer). *)
Definition twoSamples : list DataPoint := [mkPoint 0 0; mkPoint 1 1].
Definition tallLorentzian : list PeakComponent :=
  [mkComponent 1 lorentzianP 0 10 1 1 None None].

Lemma fitPeaks_twoSamples :
  exists r,
    fitPeaks twoSamples tallLorentzian [] None 0 = Returns r
    /\ rSquared r = 0
    /\ ssRes r = 101.
Proof.
  eexists. split; [reflexivity|]. split.
  - run_arrays. cbv [INR]. settle_comparisons; lra.
  - unfold ssRes, squaredDistance. run_arrays. settle_comparisons.
    field.
Qed.

Lemma ssTot_twoSamples : ssTot twoSamples = 1 / 2.
Proof. unfold ssTot, meanY. simpl. field. Qed.

(** C4, as stated, fails: the fit of the tall Lorentzian has
    SSres = 101 and SStot = 1/2, so 1 - SSres/SStot = -201, and the
    returned R-squared is 0. *)
Lemma C4_counterexample :
  ~ (forall r, fitPeaks twoSamples tallLorentzian [] None 0 = Returns r ->
               rSquaredAsStated twoSamples r).
Proof.
  intros H. destruct fitPeaks_twoSamples as (r & Hr & Hsq & Hres).
  specialize (H r Hr). unfold rSquaredAsStated in H.
  rewrite Hsq, Hres, ssTot_twoSamples in H. lra.
Qed.

(** C4, amended.  On data and components the returned R-squared is
    [max(0, 1 - SSres / (SStot || 1))], with SSres the sum of squared
    differences of the returned baseline-corrected data and fitted peak
    sum and SStot the total sum of squares of the raw [y] about its
    mean; it is [1 - SSres/SStot] when SStot is not zero and SSres does
    not exceed it.  The one call whose baseline is infinite (rolling
    ball optimized simultaneously on three or more samples) returns the
    R-squared 0. *)
Theorem C4_rSquared_is_clamped_ratio (data : list DataPoint)
    (components : list PeakComponent) (baseline : list DataPoint)
    (baselineOptions : option BaselineOptions) (maxIterations : nat) :
  data <> [] -> components <> [] ->
  (exists r,
      fitPeaks data components baseline baselineOptions maxIterations
      = Returns r
      /\ rSquared r = Rmax 0 (1 - ssRes r / orNum (ssTot data) 1)
      /\ (ssTot data <> 0 -> ssRes r <= ssTot data ->
          rSquaredAsStated data r))
  \/ (exists f o,
        fitPeaks data components baseline baselineOptions maxIterations
        = NonFinite f
        /\ fp_rSquared f = 0
        /\ baselineOptions = Some o
        /\ method o = Mrolling_ball
        /\ optimizeSimultaneously o = Some true
        /\ (3 <= length data)%nat).
Proof.
  intros Hd Hc.
  destruct (optimize_some data components baseline baselineOptions
              maxIterations Hd Hc) as (lm & Hopt).
  unfold fitPeaks.
  rewrite (nonempty_length data Hd), (nonempty_length components Hc).
  cbn [orb]. cbv zeta. rewrite Hopt.
  match goal with
  | |- context [match ?o with Some _ => _ | None => _ end] =>
      destruct o as [[ob obp]|] eqn:Hoptimized
  end.
  - left. eexists. split; [reflexivity|].
    cbn [rSquared]. unfold rSquaredAsStated, ssRes.
    cbn [rSquared baselineCorrectedData fittedData].
    destruct (curvesOf_sums data (coalesce ob baseline)
                (unpack components (LM.params lm))) as [Hssr Hsst].
    rewrite Hssr, Hsst. split; [reflexivity|].
    intros Hnz Hle. unfold orNum.
    destruct (Req_dec_T (ssTot data) 0) as [Hz|_]; [contradiction|].
    pose proof (ssTot_nonneg data) as Hpos.
    apply Rmax_right.
    assert (Hratio : squaredDistance
                       (c_baselineCorrectedData
                          (curvesOf data (coalesce ob baseline)
                             (unpack components (LM.params lm))))
                       (c_fittedData
                          (curvesOf data (coalesce ob baseline)
                             (unpack components (LM.params lm))))
                     / ssTot data <= 1).
    { apply (Rmult_le_reg_r (ssTot data)); [lra|].
      unfold Rdiv. rewrite Rmult_assoc, Rinv_l by assumption. lra. }
    lra.
  - right. destruct baselineOptions as [o|]; [|discriminate].
    destruct (optimizeBaseline (Some o)) eqn:Hob; [|discriminate].
    cbn [andb] in Hoptimized.
    destruct (0 <? s_numBaselineParams (setup data components baseline (Some o)))%nat;
      [|discriminate].
    apply optimizedBaselineOf_none in Hoptimized.
    destruct Hoptimized as [Hm Hn].
    do 2 eexists. split; [reflexivity|].
    split; [reflexivity|]. split; [reflexivity|]. split; [exact Hm|].
    split; [now apply optimizeBaseline_true|].
    unfold setup in Hn. cbn [s_xVals] in Hn. now rewrite length_map in Hn.
Qed.

Lemma C4_witness :
  (exists r,
      fitPeaks twoSamples tallLorentzian [] None 0 = Returns r
      /\ rSquared r = Rmax 0 (1 - ssRes r / orNum (ssTot twoSamples) 1)
      /\ (ssTot twoSamples <> 0 -> ssRes r <= ssTot twoSamples ->
          rSquaredAsStated twoSamples r))
  \/ (exists f o,
        fitPeaks twoSamples tallLorentzian [] None 0 = NonFinite f
        /\ fp_rSquared f = 0
        /\ None = Some o
        /\ method o = Mrolling_ball
        /\ optimizeSimultaneously o = Some true
        /\ (3 <= length twoSamples)%nat).
Proof.
  apply (C4_rSquared_is_clamped_ratio twoSamples tallLorentzian [] None 0);
    discriminate.
Defined.

End FitClaims.

(** ** Shape of the peak profiles *)

Module ProfileProperties.

Import Profiles ProfilesFacts.

Lemma square_mirror c d : (c + d - c) ^ 2 = (c - d - c) ^ 2.
Proof. ring. Qed.

Lemma square_pos g : g <> 0 -> 0 < g ^ 2.
Proof.
  intros Hg. replace (g ^ 2) with (g * g) by ring.
  destruct (Rtotal_order g 0) as [H|[H|H]]; [nra | easy | nra].
Qed.

Lemma gaussian_range x c a s : 0 <= a -> 0 <= gaussian x c a s <= a.
Proof.
  intros Ha. unfold gaussian. cbv zeta.
  set (e := - (x - c) ^ 2 / (2 * s ^ 2)).
  assert (He : e <= 0).
  { unfold e. destruct (Req_dec s 0) as [->|Hs].
    - replace (2 * 0 ^ 2) with 0 by ring. unfold Rdiv. rewrite Rinv_0. lra.
    - assert (0 < 2 * s ^ 2) by (pose proof (square_pos s Hs); lra).
      assert (0 <= (x - c) ^ 2) by apply pow2_ge_0.
      unfold Rdiv. assert (0 < / (2 * s ^ 2)) by now apply Rinv_0_lt_compat.
      assert (0 <= (x - c) ^ 2 * / (2 * s ^ 2))
        by (apply Rmult_le_pos; lra).
      lra. }
  assert (H0 : 0 < exp e) by apply exp_pos.
  assert (H1 : exp e <= 1).
  { destruct He as [He|He].
    - left. rewrite <- exp_0. now apply exp_increasing.
    - rewrite He, exp_0. lra. }
  nra.
Qed.

Lemma lorentzian_range x c a g :
  0 <= a -> g <> 0 -> 0 <= lorentzian x c a g <= a.
Proof.
  intros Ha Hg. unfold lorentzian.
  assert (Hg2 : 0 < g ^ 2) by now apply square_pos.
  assert (Hd : 0 <= (x - c) ^ 2) by apply pow2_ge_0.
  assert (Hden : 0 < (x - c) ^ 2 + g ^ 2) by lra.
  split.
  - apply Rmult_le_pos; [nra | left; now apply Rinv_0_lt_compat].
  - apply (Rmult_le_reg_r ((x - c) ^ 2 + g ^ 2)); [exact Hden|].
    unfold Rdiv. rewrite Rmult_assoc, Rinv_l by lra. nra.
Qed.

Lemma voigt_range x c a s g :
  0 <= a -> 0 < s -> 0 < g -> 0 <= voigt x c a s g <= a.
Proof.
  intros Ha Hs Hg. unfold voigt. cbv zeta.
  pose proof (gaussian_range x c 1 s ltac:(lra)) as HG.
  pose proof (lorentzian_range x c 1 g ltac:(lra) ltac:(lra)) as HL.
  set (G := gaussian x c 1 s) in *. set (L := lorentzian x c 1 g) in *.
  assert (Heta : 0 < g / (s + g) < 1).
  { assert (0 < / (s + g)) by (apply Rinv_0_lt_compat; lra).
    split.
    - unfold Rdiv. apply Rmult_lt_0_compat; lra.
    - apply (Rmult_lt_reg_r (s + g)); [lra|].
      unfold Rdiv. rewrite Rmult_assoc, Rinv_l by lra. lra. }
  set (eta := g / (s + g)) in *.
  assert (0 <= eta * L + (1 - eta) * G <= 1) by nra.
  nra.
Qed.

(** X1.  Every profile is mirror-symmetric about its centre:
    [calculatePeak] takes the same value at [center + d] and at
    [center - d], overrides or not. *)
Theorem X1_peak_is_symmetric (c : PeakComponent) (d : R) :
  calculatePeak (center c + d) c = calculatePeak (center c - d) c.
Proof.
  unfold calculatePeak, voigt, gaussian, lorentzian.
  rewrite !square_mirror. reflexivity.
Qed.

(** X2.  For a Lorentzian without a [gamma] override, [width] is the full
    width at half maximum: half a width away from the centre, on either
    side, the peak is at half of [amplitude * weight]. *)
Theorem X2_lorentzian_width_is_fwhm (c : PeakComponent) :
  profile c = lorentzianP ->
  gamma c = None ->
  width c <> 0 ->
  calculatePeak (center c - width c / 2) c = amplitude c * weight c / 2
  /\ calculatePeak (center c + width c / 2) c = amplitude c * weight c / 2.
Proof.
  intros Hp Hg Hw.
  assert (H : forall s, s = -1 \/ s = 1 ->
            calculatePeak (center c + s * (width c / 2)) c
            = amplitude c * weight c / 2).
  { intros s Hs. unfold calculatePeak. rewrite Hp, Hg. cbn [JS.orElse].
    unfold lorentzian. pose proof (square_pos (width c) Hw).
    destruct Hs as [-> | ->]; field; nra. }
  split.
  - replace (center c - width c / 2) with (center c + -1 * (width c / 2))
      by ring.
    apply H. now left.
  - replace (center c + width c / 2) with (center c + 1 * (width c / 2))
      by ring.
    apply H. now right.
Qed.

Definition sampleLorentzian : PeakComponent :=
  mkComponent 1 lorentzianP 3 5 2 (1 / 2) None None.

Lemma X2_witness :
  calculatePeak (center sampleLorentzian - width sampleLorentzian / 2)
                sampleLorentzian
  = amplitude sampleLorentzian * weight sampleLorentzian / 2
  /\ calculatePeak (center sampleLorentzian + width sampleLorentzian / 2)
                   sampleLorentzian
     = amplitude sampleLorentzian * weight sampleLorentzian / 2.
Proof.
  apply (X2_lorentzian_width_is_fwhm sampleLorentzian);
    simpl; try reflexivity; lra.
Defined.

(** X3.  A component of positive width, without overrides and with a
    non-negative effective amplitude, never leaves the band between [0]
    and [amplitude * weight], at any [x] and for each of the three
    profiles. *)
Theorem X3_peak_stays_below_its_height (c : PeakComponent) (x : R) :
  0 < width c ->
  sigma c = None ->
  gamma c = None ->
  0 <= amplitude c * weight c ->
  0 <= calculatePeak x c <= amplitude c * weight c.
Proof.
  intros Hw Hs Hg Ha. unfold calculatePeak. rewrite Hs, Hg.
  cbn [JS.orElse]. destruct (profile c).
  - now apply gaussian_range.
  - apply lorentzian_range; [assumption | lra].
  - apply voigt_range; [assumption | |lra].
    apply Rdiv_lt_0_compat; lra.
Qed.

Definition sampleMix : PeakComponent :=
  mkComponent 1 voigtP 3 5 2 (1 / 2) None None.

Lemma X3_witness :
  0 <= calculatePeak 7 sampleMix <= amplitude sampleMix * weight sampleMix.
Proof.
  apply (X3_peak_stays_below_its_height sampleMix 7);
    simpl; try reflexivity; lra.
Defined.

End ProfileProperties.

(** ** Invariants of the optimizer loop *)

Module LMProperties.

Import JS JSFacts ArrayFacts LM LMFacts.

Lemma sumSquares_from l : forall acc,
  0 <= acc -> 0 <= fold_left (fun sum r => sum + r * r) l acc.
Proof.
  induction l as [|h t IH]; intros acc Hacc; simpl; [exact Hacc|].
  apply IH. nra.
Qed.

Lemma sumSquares_nonneg l : 0 <= sumSquares l.
Proof. apply sumSquares_from. lra. Qed.

Section Loop.

Variables (x y : list R).
Variable modelFunc : list R -> list R -> list R.
Variables (tolerance lambdaUp lambdaDown : R).

(** [y.map((yi, i) => yi - modelFunc(x, params)[i])] *)
Definition residualsAt (params : list R) : list R :=
  mapi (fun yi i => yi - get 0 (modelFunc x params) i) y.

(** What one pass does to the state: it counts itself, and it either
    keeps parameters, residuals, chi-squared and the flag, or moves to
    parameters of strictly smaller chi-squared. *)
Definition keeps (st st' : LMState) : Prop :=
  st_params st' = st_params st
  /\ st_residuals st' = st_residuals st
  /\ st_chiSquared st' = st_chiSquared st
  /\ st_converged st' = st_converged st.

Definition improves (st st' : LMState) : Prop :=
  st_residuals st' = residualsAt (st_params st')
  /\ st_chiSquared st' = sumSquares (st_residuals st')
  /\ st_chiSquared st' < st_chiSquared st.

Lemma iteration_step st iter st' flow evs :
  iteration x y modelFunc tolerance lambdaUp lambdaDown st iter
  = Some (st', flow, evs) ->
  st_iterations st' = (iter + 1)%nat
  /\ (keeps st st' \/ improves st st').
Proof.
  unfold iteration. cbv zeta.
  destruct (normalEquations _ _ _) as [[H JtR]|]; [|discriminate].
  cbn [st_params st_lambda st_chiSquared st_yPred st_residuals
       st_iterations st_converged].
  destruct (solveLinear H JtR) as [delta|].
  - destruct (Rlt_dec _ _) as [Hlt|Hge].
    + destruct (Rlt_dec _ _); intros Heq; injection Heq as <- _ _;
        (split; [reflexivity|]); right; repeat split; assumption.
    + intros Heq; injection Heq as <- _ _.
      split; [reflexivity|]. left. repeat split.
  - intros Heq; injection Heq as <- _ _.
    split; [reflexivity|]. left. repeat split.
Qed.

(** The same for the whole loop, from counter [iter] with [remaining]
    passes to go. *)
Lemma loop_step remaining : forall iter st st' evs,
  loop x y modelFunc tolerance lambdaUp lambdaDown remaining iter st
  = Some (st', evs) ->
  (keeps st st' \/ improves st st')
  /\ ((remaining = 0%nat /\ st_iterations st' = st_iterations st)
      \/ (iter + 1 <= st_iterations st' <= iter + remaining)%nat).
Proof.
  induction remaining as [|remaining IH]; intros iter st st' evs; cbn [loop].
  - intros Heq; injection Heq as <- _. split.
    + left. repeat split.
    + left. split; reflexivity.
  - destruct (iteration _ _ _ _ _ _ st iter) as [[[st1 flow] evs1]|] eqn:Hit;
      [|discriminate].
    destruct (iteration_step _ _ _ _ _ Hit) as (Hcount & Hstep).
    destruct flow.
    + destruct (loop _ _ _ _ _ _ remaining (iter + 1) st1)
        as [[st2 evs2]|] eqn:Hloop; [|discriminate].
      intros Heq; injection Heq as <- _.
      destruct (IH _ _ _ _ Hloop) as (Hrest & Hiter). split.
      * destruct Hstep as [(Hp & Hr & Hc & Hv) | (Hr & Hc & Hlt)];
          destruct Hrest as [(Hp2 & Hr2 & Hc2 & Hv2) | (Hr2 & Hc2 & Hlt2)].
        -- left. repeat split; congruence.
        -- right. repeat split; try assumption; lra.
        -- right. repeat split; try congruence; lra.
        -- right. repeat split; try assumption; lra.
      * right. destruct Hiter as [(-> & Hsame) | Hin]; lia.
    + intros Heq; injection Heq as <- _. split; [exact Hstep|].
      right. lia.
Qed.

End Loop.

(** The chi-squared of the initial guess. *)
Definition initialChiSquared (x y initialParams : list R)
    (modelFunc : list R -> list R -> list R) : R :=
  sumSquares (residualsAt x y modelFunc initialParams).

(** What a returned result is, against the state the loop started from. *)
Lemma levenbergMarquardt_step x y initialParams modelFunc options result :
  levenbergMarquardt x y initialParams modelFunc options = Some result ->
  ((params result = initialParams
    /\ residuals result = residualsAt x y modelFunc initialParams
    /\ chiSquared result = initialChiSquared x y initialParams modelFunc
    /\ converged result = false)
   \/ (residuals result = residualsAt x y modelFunc (params result)
       /\ chiSquared result = sumSquares (residuals result)
       /\ chiSquared result < initialChiSquared x y initialParams modelFunc))
  /\ (iterations result <= coalesce (maxIterations options) 200)%nat
  /\ (coalesce (maxIterations options) 200%nat <> 0%nat ->
      (1 <= iterations result)%nat).
Proof.
  unfold levenbergMarquardt, run. cbv zeta.
  destruct (loop _ _ _ _ _ _ _ _ _) as [[st evs]|] eqn:Hloop; [|discriminate].
  intros Heq; injection Heq as <-.
  cbn [params residuals chiSquared converged iterations].
  destruct (loop_step _ _ _ _ _ _ _ _ _ _ _ Hloop) as (Hstep & Hiter).
  split; [|split].
  - destruct Hstep as [(Hp & Hr & Hc & Hv) | (Hr & Hc & Hlt)].
    + left. repeat split; assumption.
    + right. repeat split; assumption.
  - cbn [initialState st_iterations] in Hiter. lia.
  - intros Hmax. cbn [initialState st_iterations] in Hiter. lia.
Qed.

(** A model with one parameter, the slope of a line through the origin. *)
Definition throughOrigin (x params : list R) : list R :=
  map (fun xi => get 0 params 0 * xi) x.

Lemma chiSquared_is_sum x y initialParams modelFunc options result :
  levenbergMarquardt x y initialParams modelFunc options = Some result ->
  chiSquared result = sumSquares (residuals result).
Proof.
  intros H.
  destruct (levenbergMarquardt_step _ _ _ _ _ _ H)
    as ([(_ & Hr & Hc & _) | (_ & Hc & _)] & _).
  - now rewrite Hr, Hc.
  - exact Hc.
Qed.

(** X4.  The residuals and the chi-squared that [levenbergMarquardt]
    returns are those of the parameters it returns:
    [residuals[i] = y[i] - modelFunc(x, params)[i]] and [chiSquared] is
    the sum of their squares. *)
Theorem X4_result_is_consistent x y initialParams modelFunc options result :
  levenbergMarquardt x y initialParams modelFunc options = Some result ->
  residuals result = residualsAt x y modelFunc (params result)
  /\ chiSquared result = sumSquares (residuals result).
Proof.
  intros H. split; [|exact (chiSquared_is_sum _ _ _ _ _ _ H)].
  destruct (levenbergMarquardt_step _ _ _ _ _ _ H)
    as ([(Hp & Hr & _) | (Hr & _)] & _).
  - now rewrite Hp, Hr.
  - exact Hr.
Qed.

Lemma X4_witness :
  exists result,
    levenbergMarquardt [1] [3] [2] throughOrigin noOptions = Some result
    /\ residuals result = residualsAt [1] [3] throughOrigin (params result)
    /\ chiSquared result = sumSquares (residuals result).
Proof.
  destruct (levenbergMarquardt_some [1] [3] [2] throughOrigin noOptions
              ltac:(discriminate) ltac:(discriminate)) as (result & H & _).
  exists result. split; [exact H|].
  exact (X4_result_is_consistent _ _ _ _ _ _ H).
Defined.

(** X5.  [levenbergMarquardt] never returns a fit worse than the initial
    guess: its [chiSquared] is at most the chi-squared of
    [initialParams], whatever the model and the options. *)
Theorem X5_never_worse_than_start x y initialParams modelFunc options result :
  levenbergMarquardt x y initialParams modelFunc options = Some result ->
  chiSquared result <= initialChiSquared x y initialParams modelFunc.
Proof.
  intros H.
  destruct (levenbergMarquardt_step _ _ _ _ _ _ H)
    as ([(_ & _ & Hc & _) | (_ & _ & Hlt)] & _); lra.
Qed.

Lemma X5_witness :
  exists result,
    levenbergMarquardt [1] [3] [2] throughOrigin noOptions = Some result
    /\ chiSquared result <= initialChiSquared [1] [3] [2] throughOrigin.
Proof.
  destruct (levenbergMarquardt_some [1] [3] [2] throughOrigin noOptions
              ltac:(discriminate) ltac:(discriminate)) as (result & H & _).
  exists result. split; [exact H|].
  exact (X5_never_worse_than_start _ _ _ _ _ _ H).
Defined.

(** X6.  The loop runs at most [maxIterations] passes (200 by default),
    and a result flagged [converged] has a chi-squared strictly below
    that of the initial guess. *)
Theorem X6_converged_means_improved x y initialParams modelFunc options
    result :
  levenbergMarquardt x y initialParams modelFunc options = Some result ->
  (iterations result <= coalesce (maxIterations options) 200)%nat
  /\ (converged result = true ->
      chiSquared result < initialChiSquared x y initialParams modelFunc).
Proof.
  intros H.
  pose proof (levenbergMarquardt_step _ _ _ _ _ _ H) as (Hstep & Hiter & _).
  split; [exact Hiter|]. intros Hconv.
  destruct Hstep as [(_ & _ & _ & Hv) | (_ & _ & Hlt)]; [congruence|].
  exact Hlt.
Qed.

Lemma X6_witness :
  exists result,
    levenbergMarquardt [1] [3] [2] throughOrigin noOptions = Some result
    /\ (iterations result <= coalesce (maxIterations noOptions) 200)%nat
    /\ (converged result = true ->
        chiSquared result < initialChiSquared [1] [3] [2] throughOrigin).
Proof.
  destruct (levenbergMarquardt_some [1] [3] [2] throughOrigin noOptions
              ltac:(discriminate) ltac:(discriminate)) as (result & H & _).
  exists result. split; [exact H|].
  exact (X6_converged_means_improved _ _ _ _ _ _ H).
Defined.

(** X7.  An initial guess that fits the data exactly is handed back as
    it is and is not reported as converged: no step can lower a
    chi-squared of [0], so every step is rejected. *)
Theorem X7_exact_start_is_returned_unconverged x y initialParams modelFunc
    options result :
  initialChiSquared x y initialParams modelFunc = 0 ->
  levenbergMarquardt x y initialParams modelFunc options = Some result ->
  params result = initialParams
  /\ chiSquared result = 0
  /\ converged result = false.
Proof.
  intros Hzero H.
  destruct (levenbergMarquardt_step _ _ _ _ _ _ H)
    as ([(Hp & _ & Hc & Hv) | (_ & Hc & Hlt)] & _).
  - repeat split; [assumption | congruence | assumption].
  - exfalso. pose proof (sumSquares_nonneg (residuals result)). lra.
Qed.

Lemma X7_witness :
  exists result,
    levenbergMarquardt [1] [2] [2] throughOrigin noOptions = Some result
    /\ params result = [2]
    /\ chiSquared result = 0
    /\ converged result = false.
Proof.
  destruct (levenbergMarquardt_some [1] [2] [2] throughOrigin noOptions
              ltac:(discriminate) ltac:(discriminate)) as (result & H & _).
  exists result. split; [exact H|].
  apply (X7_exact_start_is_returned_unconverged [1] [2] [2] throughOrigin
           noOptions result); [|exact H].
  unfold initialChiSquared, residualsAt, throughOrigin, sumSquares.
  run_arrays. ring.
Defined.

(** X8.  With at least one pass to run, [levenbergMarquardt] throws on
    an empty dataset ([transpose] reads the first row of an empty
    Jacobian) and on an empty parameter vector ([matrixMultiply] reads
    the first row of an empty transpose). *)
Theorem X8_throws_without_data_or_parameters x y initialParams modelFunc
    options :
  coalesce (maxIterations options) 200%nat <> 0%nat ->
  x = [] \/ initialParams = [] ->
  levenbergMarquardt x y initialParams modelFunc options = None.
Proof.
  intros Hmax Hempty. unfold levenbergMarquardt, run. cbv zeta.
  destruct (coalesce (maxIterations options) 200%nat) as [|m]; [easy|].
  cbn [loop]. unfold iteration. cbv zeta.
  cbn [initialState st_params st_lambda st_yPred st_residuals st_chiSquared
       st_converged].
  unfold normalEquations. cbv zeta. cbn [st_params].
  destruct Hempty as [-> | ->].
  - reflexivity.
  - destruct x as [|x0 xs]; [reflexivity|].
    unfold calculateJacobian. cbv zeta.
    rewrite (range_cons (length (x0 :: xs))) by (simpl; lia).
    reflexivity.
Qed.

Lemma X8_witness :
  levenbergMarquardt [] [] [1] throughOrigin noOptions = None.
Proof.
  apply X8_throws_without_data_or_parameters.
  - simpl. lia.
  - now left.
Defined.

End LMProperties.

(** ** Sums accumulated by a loop *)

Module SumFacts.

Import JS JSFacts ArrayFacts.

(** [sum_{j in js} f j], accumulated from the left as the loops do. *)
Definition sumOver (f : nat -> R) (js : list nat) : R :=
  fold_left (fun s j => s + f j) js 0.

Lemma sumOver_from f js : forall acc,
  fold_left (fun s j => s + f j) js acc = acc + sumOver f js.
Proof.
  unfold sumOver. induction js as [|j rest IH]; intros acc; simpl; [ring|].
  rewrite IH, (IH (0 + f j)). ring.
Qed.

Lemma sumOver_cons f j js : sumOver f (j :: js) = f j + sumOver f js.
Proof. unfold sumOver at 1. simpl. rewrite sumOver_from. ring. Qed.

Lemma sumOver_app f js ks : sumOver f (js ++ ks) = sumOver f js + sumOver f ks.
Proof.
  unfold sumOver at 1. rewrite fold_left_app, sumOver_from.
  reflexivity.
Qed.

Lemma sumOver_ext f g js :
  (forall j, In j js -> f j = g j) -> sumOver f js = sumOver g js.
Proof.
  induction js as [|j rest IH]; intros H; [reflexivity|].
  rewrite !sumOver_cons, IH by (intros; apply H; now right).
  rewrite (H j) by now left. reflexivity.
Qed.

Lemma sumOver_zero f js : (forall j, In j js -> f j = 0) -> sumOver f js = 0.
Proof.
  induction js as [|j rest IH]; intros H; [reflexivity|].
  rewrite sumOver_cons, IH by (intros; apply H; now right).
  rewrite (H j) by now left. ring.
Qed.

Lemma sumOver_combine f g c js :
  sumOver (fun j => f j - c * g j) js = sumOver f js - c * sumOver g js.
Proof.
  induction js as [|j rest IH]; [unfold sumOver; simpl; ring|].
  rewrite !sumOver_cons, IH. ring.
Qed.

Lemma range_split lo mid hi :
  (lo <= mid <= hi)%nat -> range lo hi = range lo mid ++ range mid hi.
Proof.
  intros H. unfold range.
  replace (hi - lo)%nat with ((mid - lo) + (hi - mid))%nat by lia.
  rewrite seq_app. do 2 f_equal. lia.
Qed.

Lemma range_first lo hi :
  (lo < hi)%nat -> range lo hi = lo :: range (lo + 1) hi.
Proof.
  intros H. unfold range.
  replace (hi - lo)%nat with (S (hi - (lo + 1)))%nat by lia.
  simpl. do 2 f_equal. lia.
Qed.

Lemma range_last lo hi :
  (lo <= hi)%nat -> range lo (hi + 1) = range lo hi ++ [hi].
Proof.
  intros H. rewrite (range_split lo hi (hi + 1)) by lia. f_equal.
  unfold range. replace (hi + 1 - hi)%nat with 1%nat by lia. reflexivity.
Qed.

Lemma range_empty lo hi : (hi <= lo)%nat -> range lo hi = [].
Proof.
  intros H. unfold range. replace (hi - lo)%nat with 0%nat by lia.
  reflexivity.
Qed.

Lemma sumOver_nonneg f js :
  (forall j, In j js -> 0 <= f j) -> 0 <= sumOver f js.
Proof.
  induction js as [|j rest IH]; intros H; [unfold sumOver; simpl; lra|].
  rewrite sumOver_cons.
  assert (0 <= f j) by (apply H; now left).
  assert (0 <= sumOver f rest) by (apply IH; intros; apply H; now right).
  lra.
Qed.

Lemma sorted_seq m : forall lo, StronglySorted lt (seq lo m).
Proof.
  induction m as [|m IH]; intros lo; cbn [seq]; constructor.
  - apply IH.
  - apply Forall_forall. intros i Hi. apply in_seq in Hi. lia.
Qed.

End SumFacts.

(** ** The dense solver returns a solution *)

Module SolverProperties.

Import JS JSFacts ArrayFacts LM SumFacts.

(** *** Shape *)

(** [n] rows of [n + 1] entries: the augmented matrix. *)
Definition wide (aug : Matrix) (n : nat) : Prop :=
  length aug = n /\ forall k, (k < n)%nat -> length (row aug k) = (n + 1)%nat.

Lemma at_setAt aug k j v k' j' :
  (k < length aug)%nat -> (j < length (row aug k))%nat ->
  at_ (setAt aug k j v) k' j'
  = if ((k' =? k) && (j' =? j))%nat then v else at_ aug k' j'.
Proof.
  unfold at_, setAt, row. intros Hk Hj.
  destruct (Nat.eqb_spec k' k) as [->|Hne]; simpl.
  - rewrite get_set_same by assumption.
    destruct (Nat.eqb_spec j' j) as [->|Hnj].
    + now apply get_set_same.
    + apply get_set_other. congruence.
  - rewrite get_set_other by congruence. reflexivity.
Qed.

Lemma wide_setAt aug n k j v :
  wide aug n -> (k < n)%nat -> wide (setAt aug k j v) n.
Proof.
  intros [Hlen Hrows] Hk. unfold setAt. split.
  - now rewrite length_set.
  - intros k' Hk'. unfold row.
    destruct (Nat.eq_dec k' k) as [->|Hne].
    + rewrite get_set_same by lia. rewrite length_set. now apply Hrows.
    + rewrite get_set_other by congruence. now apply Hrows.
Qed.

Lemma row_swapRows aug i m k :
  (i < length aug)%nat -> (m < length aug)%nat ->
  row (swapRows aug i m) k
  = if (k =? m)%nat then row aug i
    else if (k =? i)%nat then row aug m else row aug k.
Proof.
  intros Hi Hm. unfold swapRows, row.
  destruct (Nat.eqb_spec k m) as [->|Hkm].
  - apply get_set_same. now rewrite length_set.
  - rewrite get_set_other by congruence.
    destruct (Nat.eqb_spec k i) as [->|Hki].
    + now apply get_set_same.
    + apply get_set_other. congruence.
Qed.

Lemma wide_swapRows aug n i m :
  wide aug n -> (i < n)%nat -> (m < n)%nat -> wide (swapRows aug i m) n.
Proof.
  intros [Hlen Hrows] Hi Hm. split.
  - unfold swapRows. now rewrite !length_set.
  - intros k Hk. rewrite row_swapRows by lia.
    destruct (k =? m)%nat; [|destruct (k =? i)%nat]; now apply Hrows.
Qed.

(** *** The pivot search stays inside the rows below the diagonal *)

Lemma findPivot_range aug i n :
  (i < n)%nat -> (i <= findPivot aug i n < n)%nat.
Proof.
  intros Hi. unfold findPivot.
  assert (H : forall ks acc,
            (i <= acc < n)%nat -> (forall k, In k ks -> (i <= k < n)%nat) ->
            (i <= fold_left (fun maxRow k =>
                    if Rgt_dec (Rabs (at_ aug k i)) (Rabs (at_ aug maxRow i))
                    then k else maxRow) ks acc < n)%nat).
  { induction ks as [|k rest IH]; intros acc Hacc Hks; simpl; [exact Hacc|].
    apply IH.
    - destruct (Rgt_dec _ _); [apply Hks; now left | exact Hacc].
    - intros k' Hk'. apply Hks. now right. }
  apply H; [lia|]. intros k Hk. apply in_range in Hk. lia.
Qed.

(** *** One elimination step, entry by entry *)

(** The inner loop over [j]: row [k] minus [factor] times row [i], on the
    columns visited. *)
Lemma eliminate_row aug n i k factor : forall js aug',
  wide aug' n -> (k < n)%nat -> k <> i -> NoDup js ->
  (forall j, In j js -> (j <= n)%nat) ->
  (forall j, at_ aug' i j = at_ aug i j) ->
  (forall j, In j js -> at_ aug' k j = at_ aug k j) ->
  let result :=
    fold_left (fun a j => setAt a k j (at_ a k j - factor * at_ a i j))
              js aug' in
  wide result n
  /\ forall k' j',
       at_ result k' j'
       = if (k' =? k)%nat && existsb (Nat.eqb j') js
         then at_ aug k j' - factor * at_ aug i j'
         else at_ aug' k' j'.
Proof.
  induction js as [|j rest IH];
    intros aug' Hwide Hk Hki Hnd Hjs Hrowi Hrowk; cbn [fold_left].
  - split; [exact Hwide|]. intros k' j'. cbn [existsb].
    now rewrite andb_false_r.
  - inversion Hnd as [|? ? Hnotin Hnd']; subst.
    assert (Hj : (j <= n)%nat) by (apply Hjs; now left).
    destruct Hwide as [Hlen Hrows].
    assert (Hset : forall k' j',
              at_ (setAt aug' k j (at_ aug' k j - factor * at_ aug' i j)) k' j'
              = if ((k' =? k) && (j' =? j))%nat
                then at_ aug k j - factor * at_ aug i j
                else at_ aug' k' j').
    { intros k' j'. rewrite at_setAt by (rewrite ?Hrows; lia).
      rewrite Hrowi, Hrowk by now left. reflexivity. }
    set (aug1 := setAt aug' k j (at_ aug' k j - factor * at_ aug' i j)) in *.
    assert (Hwide1 : wide aug1 n)
      by (apply wide_setAt; [split; assumption | assumption]).
    assert (Hrowi1 : forall j', at_ aug1 i j' = at_ aug i j').
    { intros j'. rewrite Hset.
      destruct (Nat.eqb_spec i k); [congruence|]. cbn [andb]. apply Hrowi. }
    assert (Hrowk1 : forall j', In j' rest -> at_ aug1 k j' = at_ aug k j').
    { intros j' Hj'. rewrite Hset.
      destruct (Nat.eqb_spec j' j) as [->|Hne]; [contradiction|].
      rewrite andb_false_r. apply Hrowk. now right. }
    destruct (IH aug1 Hwide1 Hk Hki Hnd'
                (fun j' Hj' => Hjs j' (or_intror Hj')) Hrowi1 Hrowk1)
      as [Hwide' Hat].
    split; [exact Hwide'|]. intros k' j'. rewrite Hat, Hset.
    cbn [existsb].
    destruct (Nat.eqb_spec k' k) as [->|Hne]; cbn [andb]; [|reflexivity].
    destruct (existsb (Nat.eqb j') rest) eqn:Hex.
    + now rewrite orb_true_r.
    + rewrite orb_false_r. destruct (j' =? j)%nat eqn:Hjj; [|reflexivity].
      apply Nat.eqb_eq in Hjj. now subst.
Qed.

Lemma NoDup_range lo hi : NoDup (range lo hi).
Proof. apply seq_NoDup. Qed.

(** The outer loop over [k]. *)
Lemma eliminate_rows aug n i : forall ks aug',
  wide aug' n -> (i < n)%nat -> NoDup ks ->
  (forall k, In k ks -> (i < k < n)%nat) ->
  (forall j, at_ aug' i j = at_ aug i j) ->
  (forall k j, In k ks -> at_ aug' k j = at_ aug k j) ->
  let result :=
    fold_left (fun aug k =>
                 let factor := at_ aug k i / at_ aug i i in
                 fold_left (fun aug j =>
                              setAt aug k j (at_ aug k j - factor * at_ aug i j))
                           (range i (n + 1)) aug)
              ks aug' in
  wide result n
  /\ forall k' j',
       at_ result k' j'
       = if existsb (Nat.eqb k') ks && ((i <=? j') && (j' <=? n))%nat
         then at_ aug k' j' - at_ aug k' i / at_ aug i i * at_ aug i j'
         else at_ aug' k' j'.
Proof.
  induction ks as [|k rest IH];
    intros aug' Hwide Hi Hnd Hks Hrowi Hrowk; cbn [fold_left].
  - split; [exact Hwide|]. intros k' j'. reflexivity.
  - inversion Hnd as [|? ? Hnotin Hnd']; subst.
    assert (Hk : (i < k < n)%nat) by (apply Hks; now left).
    cbv zeta.
    destruct (eliminate_row aug' n i k (at_ aug' k i / at_ aug' i i)
                (range i (n + 1)) aug') as [Hwide1 Hat1];
      try assumption; try lia; try reflexivity.
    { apply NoDup_range. }
    { intros j Hj. apply in_range in Hj. lia. }
    set (aug1 := fold_left _ (range i (n + 1)) aug') in *.
    assert (Hrange : forall j',
              existsb (Nat.eqb j') (range i (n + 1))
              = ((i <=? j') && (j' <=? n))%nat).
    { intros j'. rewrite existsb_range. f_equal.
      destruct (Nat.ltb_spec j' (n + 1)), (Nat.leb_spec j' n);
        try reflexivity; lia. }
    assert (Hrowi1 : forall j, at_ aug1 i j = at_ aug i j).
    { intros j. rewrite Hat1.
      destruct (Nat.eqb_spec i k); [lia|]. cbn [andb]. apply Hrowi. }
    assert (Hrowk1 : forall k' j, In k' rest -> at_ aug1 k' j = at_ aug k' j).
    { intros k' j Hk'. rewrite Hat1.
      destruct (Nat.eqb_spec k' k) as [->|Hne]; [contradiction|].
      cbn [andb]. apply Hrowk. now right. }
    destruct (IH aug1 Hwide1 Hi Hnd'
                (fun k' Hk' => Hks k' (or_intror Hk')) Hrowi1 Hrowk1)
      as [Hwide2 Hat2].
    split; [exact Hwide2|]. intros k' j'. rewrite Hat2.
    cbn [existsb].
    destruct (existsb (Nat.eqb k') rest) eqn:Hex.
    + rewrite orb_true_r. cbn [andb].
      destruct ((i <=? j') && (j' <=? n))%nat; [reflexivity|].
      rewrite Hat1.
      assert (Hne : k' <> k).
      { intros ->. apply Hnotin. apply existsb_exists in Hex.
        destruct Hex as (z & Hz & Hzk). apply Nat.eqb_eq in Hzk.
        now subst. }
      destruct (Nat.eqb_spec k' k); [contradiction|]. reflexivity.
    + rewrite orb_false_r. cbn [andb]. rewrite Hat1, Hrange.
      destruct (Nat.eqb_spec k' k) as [->|Hne]; cbn [andb]; [|reflexivity].
      destruct ((i <=? j') && (j' <=? n))%nat; [|reflexivity].
      rewrite !Hrowi, !Hrowk by now left. reflexivity.
Qed.

Lemma at_eliminateColumn aug n i :
  wide aug n -> (i < n)%nat ->
  wide (eliminateColumn aug i n) n
  /\ forall k j,
       at_ (eliminateColumn aug i n) k j
       = if ((i <? k) && (k <? n) && ((i <=? j) && (j <=? n)))%nat
         then at_ aug k j - at_ aug k i / at_ aug i i * at_ aug i j
         else at_ aug k j.
Proof.
  intros Hwide Hi. unfold eliminateColumn.
  destruct (eliminate_rows aug n i (range (i + 1) n) aug) as [Hw Hat];
    try assumption; try reflexivity.
  { apply NoDup_range. }
  { intros k Hk. apply in_range in Hk. lia. }
  split; [exact Hw|]. intros k j. rewrite Hat, existsb_range.
  replace (i + 1 <=? k)%nat with (i <? k)%nat; [reflexivity|].
  destruct (Nat.ltb_spec i k), (Nat.leb_spec (i + 1) k); try reflexivity; lia.
Qed.

(** *** Forward elimination *)

(** Zeros below the diagonal in the columns before [i]. *)
Definition triangular (aug : Matrix) (i : nat) : Prop :=
  forall r c, (c < i)%nat -> (c < r)%nat -> at_ aug r c = 0.

(** No zero on the diagonal before row [i]. *)
Definition pivoted (aug : Matrix) (i : nat) : Prop :=
  forall r, (r < i)%nat -> at_ aug r r <> 0.

(** [x] satisfies every equation of the augmented matrix. *)
Definition solves (aug : Matrix) (n : nat) (x : list R) : Prop :=
  forall i, (i < n)%nat ->
    sumOver (fun j => at_ aug i j * get 0 x j) (range 0 n) = at_ aug i n.

Lemma at_swapRows aug i m k j :
  (i < length aug)%nat -> (m < length aug)%nat ->
  at_ (swapRows aug i m) k j
  = if (k =? m)%nat then at_ aug i j
    else if (k =? i)%nat then at_ aug m j else at_ aug k j.
Proof.
  intros Hi Hm. unfold at_. rewrite row_swapRows by assumption.
  destruct (k =? m)%nat; [|destruct (k =? i)%nat]; reflexivity.
Qed.

Lemma forwardEliminate_spec n : forall m i aug aug',
  (i + m = n)%nat ->
  wide aug n -> triangular aug i -> pivoted aug i ->
  forwardEliminate (seq i m) aug n = Some aug' ->
  wide aug' n /\ triangular aug' n /\ pivoted aug' n
  /\ forall x, solves aug' n x -> solves aug n x.
Proof.
  induction m as [|m IH]; intros i aug aug' Him Hwide Htri Hpiv;
    cbn [seq forwardEliminate].
  - intros Heq; injection Heq as <-.
    assert (Hin : i = n) by lia. subst i.
    split; [assumption|]. split; [assumption|]. split; [assumption|].
    intros x Hx. exact Hx.
  - set (p := findPivot aug i n).
    assert (Hp : (i <= p < n)%nat) by (apply findPivot_range; lia).
    set (aug1 := swapRows aug i p).
    destruct (Rlt_dec (Rabs (at_ aug1 i i)) 1e-12) as [|Hpivot];
      [discriminate|].
    intros Hrest.
    assert (Hlen : length aug = n) by apply Hwide.
    assert (Hwide1 : wide aug1 n) by (apply wide_swapRows; [assumption|lia..]).
    assert (Hat1 : forall k j,
              at_ aug1 k j
              = if (k =? p)%nat then at_ aug i j
                else if (k =? i)%nat then at_ aug p j else at_ aug k j).
    { intros k j. apply at_swapRows; lia. }
    clearbody aug1. clearbody p.
    assert (Hnz : at_ aug1 i i <> 0).
    { intros Hz. apply Hpivot. rewrite Hz, Rabs_R0. lra. }
    assert (Htri1 : triangular aug1 i).
    { intros r c Hc Hr. rewrite Hat1.
      destruct (Nat.eqb_spec r p); [apply Htri; lia|].
      destruct (Nat.eqb_spec r i); apply Htri; lia. }
    destruct (at_eliminateColumn aug1 n i Hwide1 ltac:(lia))
      as [Hwide2 Hat2].
    set (aug2 := eliminateColumn aug1 i n) in *.
    assert (Htri2 : triangular aug2 (S i)).
    { intros r c Hc Hr. rewrite Hat2.
      destruct ((i <? r) && (r <? n) && ((i <=? c) && (c <=? n)))%nat eqn:Hb.
      - apply andb_true_iff in Hb. destruct Hb as [_ Hb].
        apply andb_true_iff in Hb. destruct Hb as [Hb _].
        apply Nat.leb_le in Hb. assert (c = i) by lia. subst c.
        field. exact Hnz.
      - destruct (Nat.eq_dec c i) as [->|Hne]; [|apply Htri1; lia].
        destruct (Nat.lt_ge_cases r n) as [Hrn|Hrn].
        + exfalso. revert Hb.
          destruct (Nat.ltb_spec i r), (Nat.ltb_spec r n),
                   (Nat.leb_spec i i), (Nat.leb_spec i n);
            cbn; try discriminate; lia.
        + unfold at_, row, get. rewrite (nth_overflow aug1)
            by (destruct Hwide1 as [-> _]; lia).
          now destruct i. }
    assert (Hpiv2 : pivoted aug2 (S i)).
    { intros r Hr. rewrite Hat2.
      destruct (Nat.ltb_spec i r); [lia|]. cbn [andb].
      destruct (Nat.eq_dec r i) as [->|Hne]; [exact Hnz|].
      rewrite Hat1.
      destruct (Nat.eqb_spec r p); [lia|].
      destruct (Nat.eqb_spec r i); [lia|]. apply Hpiv. lia. }
    destruct (IH (S i) aug2 aug' ltac:(lia) Hwide2 Htri2 Hpiv2 Hrest)
      as (Hw' & Ht' & Hp' & Hsol).
    repeat split; try assumption; try apply Hw'.
    intros x Hx. specialize (Hsol x Hx).
    (* the equations of [aug1] follow from those of [aug2] *)
    assert (Hsol1 : solves aug1 n x).
    { intros k Hk.
      assert (Hsame : forall r j, (r <= i)%nat -> at_ aug2 r j = at_ aug1 r j).
      { intros r j Hr. rewrite Hat2.
        destruct (Nat.ltb_spec i r); [lia|]. reflexivity. }
      assert (Hrowi : sumOver (fun j => at_ aug1 i j * get 0 x j) (range 0 n)
                      = at_ aug1 i n).
      { rewrite <- (Hsame i n), <- (Hsol i) by lia.
        apply sumOver_ext. intros j _. now rewrite Hsame. }
      destruct (Nat.lt_ge_cases i k) as [Hik|Hik].
      - pose proof (Hsol k Hk) as Hrowk.
        rewrite Hat2 in Hrowk.
        replace ((i <? k) && (k <? n) && ((i <=? n) && (n <=? n)))%nat
          with true in Hrowk
          by (symmetry; destruct (Nat.ltb_spec i k), (Nat.ltb_spec k n),
                (Nat.leb_spec i n), (Nat.leb_spec n n); cbn; try lia;
              reflexivity).
        rewrite (sumOver_ext _
                   (fun j => at_ aug1 k j * get 0 x j
                             - at_ aug1 k i / at_ aug1 i i
                               * (at_ aug1 i j * get 0 x j))) in Hrowk.
        + rewrite sumOver_combine, Hrowi in Hrowk. lra.
        + intros j Hj. apply in_range in Hj. rewrite Hat2.
          destruct (Nat.ltb_spec i k); [|lia].
          destruct (Nat.ltb_spec k n); [|lia]. cbn [andb].
          destruct (Nat.leb_spec j n); [|lia]. rewrite andb_true_r.
          destruct (Nat.leb_spec i j).
          * ring.
          * rewrite (Htri1 k j), (Htri1 i j) by lia. ring.
      - rewrite <- (Hsame k n), <- (Hsol k Hk) by lia.
        apply sumOver_ext. intros j _. now rewrite Hsame. }
    intros k Hk.
    assert (Hback : forall j, at_ aug k j
              = at_ aug1 (if (k =? p)%nat then i
                          else if (k =? i)%nat then p else k) j).
    { intros j. rewrite Hat1.
      destruct (Nat.eqb_spec k p) as [->|Hkp].
      - rewrite Nat.eqb_refl.
        destruct (Nat.eqb_spec i p) as [->|]; reflexivity.
      - destruct (Nat.eqb_spec k i) as [->|Hki].
        + now rewrite Nat.eqb_refl.
        + destruct (Nat.eqb_spec k p); [contradiction|].
          destruct (Nat.eqb_spec k i); [contradiction|]. reflexivity. }
    rewrite Hback.
    rewrite (sumOver_ext _
               (fun j => at_ aug1 (if (k =? p)%nat then i
                                   else if (k =? i)%nat then p else k) j
                         * get 0 x j))
      by (intros j _; now rewrite Hback).
    apply Hsol1.
    destruct (k =? p)%nat; [lia|]. destruct (k =? i)%nat; lia.
Qed.

(** *** Back substitution *)

(** The inner loop of the back substitution: entry [i] loses
    [aug[i][j] * x[j]] for every [j] visited; nothing else moves. *)
Lemma substitute_row aug i : forall js x,
  (i < length x)%nat -> ~ In i js ->
  let result :=
    fold_left (fun x j => set x i (get 0 x i - at_ aug i j * get 0 x j))
              js x in
  length result = length x
  /\ get 0 result i
     = get 0 x i - sumOver (fun j => at_ aug i j * get 0 x j) js
  /\ forall j, j <> i -> get 0 result j = get 0 x j.
Proof.
  induction js as [|j rest IH]; intros x Hi Hnotin; cbn [fold_left].
  - repeat split. unfold sumOver. simpl. ring.
  - assert (Hji : j <> i) by (intros ->; apply Hnotin; now left).
    destruct (IH (set x i (get 0 x i - at_ aug i j * get 0 x j)))
      as (Hlen & Hget & Hother).
    + now rewrite length_set.
    + intros Hin. apply Hnotin. now right.
    + cbv zeta in *. rewrite length_set in Hlen.
      repeat split; [exact Hlen | |].
      * rewrite Hget, get_set_same, sumOver_cons by assumption.
        rewrite (sumOver_ext
                   (fun j0 => at_ aug i j0
                              * get 0 (set x i (get 0 x i
                                                - at_ aug i j * get 0 x j)) j0)
                   (fun j0 => at_ aug i j0 * get 0 x j0)).
        -- ring.
        -- intros j0 Hj0. rewrite get_set_other; [reflexivity|].
           intros ->. apply Hnotin. now right.
      * intros j0 Hj0. rewrite Hother by assumption.
        apply get_set_other. congruence.
Qed.

(** The outer loop, from the last row upwards: every row visited is
    solved, on the diagonal and to the right of it. *)
Lemma backSubstitute_rows aug n : forall is_ x,
  pivoted aug n -> length x = n -> StronglySorted lt is_ ->
  (forall i, In i is_ -> (i < n)%nat) ->
  let result :=
    fold_left (fun x i =>
                 let x := set x i (at_ aug i n) in
                 let x := fold_left (fun x j =>
                            set x i (get 0 x i - at_ aug i j * get 0 x j))
                            (range (i + 1) n) x in
                 set x i (get 0 x i / at_ aug i i))
              (rev is_) x in
  length result = n
  /\ (forall i, In i is_ ->
        at_ aug i i * get 0 result i
        + sumOver (fun j => at_ aug i j * get 0 result j) (range (i + 1) n)
        = at_ aug i n)
  /\ forall j, ~ In j is_ -> get 0 result j = get 0 x j.
Proof.
  induction is_ as [|i0 rest IH]; intros x Hpiv Hlen Hsorted Hin.
  - cbn. repeat split; [exact Hlen | contradiction].
  - cbn [rev]. rewrite fold_left_app. cbn [fold_left].
    apply StronglySorted_inv in Hsorted. destruct Hsorted as [Hsorted Hlow].
    rewrite Forall_forall in Hlow.
    destruct (IH x Hpiv Hlen Hsorted) as (Hlen1 & Hrows1 & Hother1).
    { intros i Hi. apply Hin. now right. }
    cbv zeta in Hlen1, Hrows1, Hother1.
    set (x1 := fold_left _ (rev rest) x) in *.
    assert (Hi0 : (i0 < n)%nat) by (apply Hin; now left).
    destruct (substitute_row aug i0 (range (i0 + 1) n)
                (set x1 i0 (at_ aug i0 n)))
      as (Hlen2 & Hget2 & Hother2).
    { rewrite length_set, Hlen1. exact Hi0. }
    { intros Hc. apply in_range in Hc. lia. }
    cbv zeta in *.
    set (x2 := fold_left _ (range (i0 + 1) n) _) in *.
    rewrite length_set, Hlen1 in Hlen2.
    assert (Hnz : at_ aug i0 i0 <> 0) by (apply Hpiv; exact Hi0).
    repeat split.
    + now rewrite length_set.
    + intros i [<- | Hi].
      * rewrite get_set_same by lia.
        rewrite (sumOver_ext _
                   (fun j => at_ aug i0 j
                             * get 0 (set x1 i0 (at_ aug i0 n)) j)).
        -- rewrite Hget2, get_set_same by lia. field. exact Hnz.
        -- intros j Hj. apply in_range in Hj.
           rewrite get_set_other by lia. rewrite Hother2 by lia.
           reflexivity.
      * pose proof (Hlow i Hi) as Hlt.
        rewrite get_set_other by lia.
        rewrite Hother2 by lia.
        rewrite get_set_other by lia.
        rewrite <- (Hrows1 i Hi). f_equal.
        apply sumOver_ext. intros j Hj. apply in_range in Hj.
        rewrite get_set_other by lia.
        rewrite Hother2 by lia.
        rewrite get_set_other by lia. reflexivity.
    + intros j Hj.
      assert (Hne : j <> i0) by (intros ->; apply Hj; now left).
      rewrite get_set_other by congruence.
      rewrite Hother2 by congruence.
      rewrite get_set_other by congruence.
      apply Hother1. intros Hc. apply Hj. now right.
Qed.

Lemma backSubstitute_solves aug n :
  wide aug n -> triangular aug n -> pivoted aug n ->
  length (backSubstitute aug n) = n /\ solves aug n (backSubstitute aug n).
Proof.
  intros Hwide Htri Hpiv. unfold backSubstitute.
  destruct (backSubstitute_rows aug n (range 0 n) (fill n 0) Hpiv
              (length_fill n 0) (sorted_seq _ _))
    as (Hlen & Hrows & _).
  { intros i Hi. apply in_range in Hi. lia. }
  cbv zeta in *.
  set (xs := fold_left _ (rev (range 0 n)) (fill n 0)) in *. clearbody xs.
  split; [exact Hlen|].
  intros i Hi.
  rewrite (range_split 0 i n), (range_first i n) by lia.
  rewrite sumOver_app, sumOver_cons.
  rewrite sumOver_zero.
  - pose proof (Hrows i ltac:(apply in_range; lia)) as Hi'. lra.
  - intros j Hj. apply in_range in Hj. rewrite (Htri i j) by lia. ring.
Qed.

(** *** The solver *)

(** [sum_j A[i][j] * x[j]] over the [n] columns. *)
Definition rowTimes (A : Matrix) (i : nat) (x : list R) (n : nat) : R :=
  sumOver (fun j => at_ A i j * get 0 x j) (range 0 n).

(** X9.  When [solveLinear] returns a vector for a square system, the
    vector has one entry per row and solves the system: [A x = b], row
    by row. *)
Theorem X9_solveLinear_solves_the_system (A : Matrix) (b x : list R) :
  (forall i, (i < length A)%nat -> length (row A i) = length A) ->
  length b = length A ->
  solveLinear A b = Some x ->
  length x = length A
  /\ forall i, (i < length A)%nat ->
       rowTimes A i x (length A) = get 0 b i.
Proof.
  intros Hsquare Hb. unfold solveLinear. cbv zeta.
  set (n := length A) in *.
  set (aug := mapi (fun row i => row ++ [get 0 b i]) A).
  assert (Hrow : forall i, (i < n)%nat ->
            row aug i = row A i ++ [get 0 b i]).
  { intros i Hi. unfold row, aug. now rewrite (get_mapi [] []). }
  assert (Hwide : wide aug n).
  { split.
    - unfold aug. apply length_mapi.
    - intros k Hk. rewrite Hrow, length_app, Hsquare by assumption.
      reflexivity. }
  destruct (forwardEliminate (range 0 n) aug n) as [aug'|] eqn:Hforward;
    [|discriminate].
  intros Heq; injection Heq as <-.
  unfold range in Hforward.
  destruct (forwardEliminate_spec n (n - 0) 0 aug aug' ltac:(lia) Hwide)
    as (Hwide' & Htri' & Hpiv' & Hsol); try assumption.
  { intros r c Hc. lia. }
  { intros r Hr. lia. }
  destruct (backSubstitute_solves aug' n Hwide' Htri' Hpiv') as [Hlen Hx].
  split; [exact Hlen|].
  intros i Hi. specialize (Hsol _ Hx i Hi).
  unfold rowTimes. unfold at_ at 1 in Hsol.
  assert (Hlast : at_ aug i n = get 0 b i).
  { unfold at_. rewrite Hrow by assumption. unfold get.
    rewrite app_nth2 by (rewrite Hsquare; [lia | assumption]).
    rewrite Hsquare by assumption. now rewrite Nat.sub_diag. }
  rewrite <- Hlast, <- Hsol.
  apply sumOver_ext. intros j Hj. apply in_range in Hj.
  f_equal. unfold at_. rewrite Hrow by assumption. unfold get.
  rewrite app_nth1 by (rewrite Hsquare; [lia | assumption]).
  reflexivity.
Qed.

Lemma solveLinear_twoByTwo :
  exists x, solveLinear [[2; 1]; [1; 3]] [3; 5] = Some x.
Proof. FitRun.run_solveLinear. eexists. reflexivity. Qed.

Lemma X9_witness :
  exists x,
    solveLinear [[2; 1]; [1; 3]] [3; 5] = Some x
    /\ length x = 2%nat
    /\ forall i, (i < 2)%nat ->
         rowTimes [[2; 1]; [1; 3]] i x 2 = get 0 [3; 5] i.
Proof.
  destruct solveLinear_twoByTwo as (x & H). exists x. split; [exact H|].
  apply (X9_solveLinear_solves_the_system [[2; 1]; [1; 3]] [3; 5] x);
    [|reflexivity|exact H].
  intros [|[|i]] Hi; simpl in *; try reflexivity; lia.
Defined.

End SolverProperties.

(** ** Linear baseline *)

Module LinearProperties.

Import JS JSFacts ArrayFacts Baseline.

(** X10.  Fitted automatically (slope or intercept left out), the linear
    baseline of two or more samples whose first and last abscissa differ
    passes through the first and through the last sample. *)
Theorem X10_linear_baseline_joins_the_endpoints (data : list DataPoint)
    (slope intercept : option R) :
  (2 <= length data)%nat ->
  slope = None \/ intercept = None ->
  x (get origin data 0) <> x (get origin data (length data - 1)) ->
  let b := linearBaseline data slope intercept in
  y (get origin b 0) = y (get origin data 0)
  /\ y (get origin b (length data - 1))
     = y (get origin data (length data - 1)).
Proof.
  intros Hn Hauto Hx b. unfold b, linearBaseline.
  replace (length data <? 2)%nat with false
    by (symmetry; apply Nat.ltb_ge; lia).
  set (x1 := x (get origin data 0)) in *.
  set (x2 := x (get origin data (length data - 1))) in *.
  set (y1 := y (get origin data 0)).
  set (y2 := y (get origin data (length data - 1))).
  assert (Hmb : match slope, intercept with
                | Some slope, Some intercept => (slope, intercept)
                | _, _ => ((y2 - y1) / (x2 - x1),
                           y1 - (y2 - y1) / (x2 - x1) * x1)
                end
                = ((y2 - y1) / (x2 - x1), y1 - (y2 - y1) / (x2 - x1) * x1)).
  { destruct Hauto as [-> | ->]; [reflexivity|]. now destruct slope. }
  cbv zeta. rewrite Hmb. cbn [fst snd].
  rewrite !(get_map origin origin) by lia. cbn [y].
  fold x1 x2. split; field; lra.
Qed.

Lemma X10_witness :
  let data := [mkPoint 0 1; mkPoint 1 9; mkPoint 4 3] in
  let b := linearBaseline data None None in
  y (get origin b 0) = y (get origin data 0)
  /\ y (get origin b (length data - 1))
     = y (get origin data (length data - 1)).
Proof.
  apply (X10_linear_baseline_joins_the_endpoints
           [mkPoint 0 1; mkPoint 1 9; mkPoint 4 3] None None).
  - simpl. lia.
  - now left.
  - simpl. lra.
Defined.

End LinearProperties.

(** ** Shirley background *)

Module ShirleyProperties.

Import JS JSFacts ArrayFacts Baseline SumFacts.

Lemma y_withY data v i :
  (i < length data)%nat -> y (get origin (withY data v) i) = get 0 v i.
Proof.
  intros Hi. unfold withY. now rewrite (get_mapi origin origin).
Qed.

Lemma get_range d lo hi i : (i < hi - lo)%nat -> get d (range lo hi) i = (lo + i)%nat.
Proof. intros Hi. unfold get, range. now apply seq_nth. Qed.

Section Step.

Variable y : list R.
Variables (yStart yEnd tolerance : R).

Let n := length y.

(** A background of the Shirley shape: it starts at [yStart], ends at
    [yEnd] and runs monotonically from the one to the other. *)
Definition stepShaped (baseline : list R) : Prop :=
  length baseline = n
  /\ get 0 baseline 0 = yStart
  /\ get 0 baseline (n - 1) = yEnd
  /\ forall i j, (i <= j < n)%nat ->
       (yEnd <= yStart -> get 0 baseline j <= get 0 baseline i)
       /\ (yStart <= yEnd -> get 0 baseline i <= get 0 baseline j).

Hypothesis Hn : (3 <= n)%nat.
Hypothesis HyEnd : yEnd = get 0 y (n - 1).

Lemma areaFrom_sum baseline from :
  areaFrom y baseline from n
  = sumOver (fun i => Rmax 0 (get 0 y i - get 0 baseline i)) (range from n).
Proof. reflexivity. Qed.

Lemma areaFrom_nonneg baseline from : 0 <= areaFrom y baseline from n.
Proof.
  rewrite areaFrom_sum. apply sumOver_nonneg. intros j _. apply Rmax_l.
Qed.

Lemma areaFrom_antitone baseline i j :
  (i <= j <= n)%nat ->
  areaFrom y baseline j n <= areaFrom y baseline i n.
Proof.
  intros Hij. rewrite !areaFrom_sum, (range_split i j n) by lia.
  rewrite sumOver_app.
  assert (0 <= sumOver (fun i0 => Rmax 0 (get 0 y i0 - get 0 baseline i0))
                       (range i j))
    by (apply sumOver_nonneg; intros k _; apply Rmax_l).
  lra.
Qed.

Lemma shirleyOnce_shaped baseline newBaseline stop :
  stepShaped baseline ->
  shirleyOnce y baseline yStart yEnd tolerance = Some (newBaseline, stop) ->
  stepShaped newBaseline.
Proof.
  intros (Hlen & H0 & Hlast & Hmono). unfold shirleyOnce. fold n. cbv zeta.
  destruct (Req_dec_T (areaFrom y baseline 0 n) 0) as [|Htotal];
    [discriminate|].
  intros Heq; injection Heq as <- _.
  pose proof (areaFrom_nonneg baseline 0) as Hpos.
  assert (HT : 0 < areaFrom y baseline 0 n) by lra.
  set (T := areaFrom y baseline 0 n) in *.
  assert (Hget : forall i, (i < n)%nat ->
            get 0 (map (fun i => yEnd + (yStart - yEnd)
                                        * (areaFrom y baseline i n / T))
                       (range 0 n)) i
            = yEnd + (yStart - yEnd) * (areaFrom y baseline i n / T)).
  { intros i Hi. rewrite (get_map 0%nat 0) by (rewrite length_range; lia).
    rewrite get_range by lia. reflexivity. }
  repeat split.
  - now rewrite length_map, length_range, Nat.sub_0_r.
  - rewrite Hget by lia. fold T. field. lra.
  - rewrite Hget by lia.
    assert (Hzero : areaFrom y baseline (n - 1) n = 0).
    { rewrite areaFrom_sum, (range_first (n - 1) n) by lia.
      rewrite sumOver_cons.
      replace (n - 1 + 1)%nat with n by lia.
      rewrite range_empty by lia.
      rewrite Hlast, <- HyEnd.
      replace (yEnd - yEnd) with 0 by ring.
      rewrite Rmax_left by lra. unfold sumOver. simpl. ring. }
    rewrite Hzero. field. lra.
  - intros Hdown. rewrite !Hget by lia.
    pose proof (areaFrom_antitone baseline i j ltac:(lia)) as Hanti.
    assert (areaFrom y baseline j n / T <= areaFrom y baseline i n / T).
    { unfold Rdiv. apply Rmult_le_compat_r; [|exact Hanti].
      left. now apply Rinv_0_lt_compat. }
    nra.
  - intros Hup. rewrite !Hget by lia.
    pose proof (areaFrom_antitone baseline i j ltac:(lia)) as Hanti.
    assert (areaFrom y baseline j n / T <= areaFrom y baseline i n / T).
    { unfold Rdiv. apply Rmult_le_compat_r; [|exact Hanti].
      left. now apply Rinv_0_lt_compat. }
    nra.
Qed.

Lemma shirleyLoop_shaped remaining : forall baseline,
  stepShaped baseline ->
  stepShaped (shirleyLoop remaining y baseline yStart yEnd tolerance).
Proof.
  induction remaining as [|remaining IH]; intros baseline Hshape;
    cbn [shirleyLoop]; [exact Hshape|].
  destruct (shirleyOnce y baseline yStart yEnd tolerance)
    as [[newBaseline [|]]|] eqn:Honce.
  - exact (shirleyOnce_shaped _ _ _ Hshape Honce).
  - apply IH. exact (shirleyOnce_shaped _ _ _ Hshape Honce).
  - exact Hshape.
Qed.

(** The straight line the iteration starts from. *)
Lemma initial_shaped :
  stepShaped (map (fun i => let t := INR i / INR (n - 1) in
                            yStart * (1 - t) + yEnd * t)
                  (range 0 n)).
Proof.
  assert (Hden : 0 < INR (n - 1)) by (apply lt_0_INR; lia).
  assert (Hget : forall i, (i < n)%nat ->
            get 0 (map (fun i => let t := INR i / INR (n - 1) in
                                 yStart * (1 - t) + yEnd * t)
                       (range 0 n)) i
            = yStart * (1 - INR i / INR (n - 1))
              + yEnd * (INR i / INR (n - 1))).
  { intros i Hi. rewrite (get_map 0%nat 0) by (rewrite length_range; lia).
    rewrite get_range by lia. reflexivity. }
  assert (Hstep : forall i j, (i <= j < n)%nat ->
            INR i / INR (n - 1) <= INR j / INR (n - 1)).
  { intros i j Hij. unfold Rdiv. apply Rmult_le_compat_r.
    - left. now apply Rinv_0_lt_compat.
    - apply le_INR. lia. }
  repeat split.
  - now rewrite length_map, length_range, Nat.sub_0_r.
  - rewrite Hget by lia. simpl. field. lra.
  - rewrite Hget by lia. field. lra.
  - intros Hdown. rewrite !Hget by lia.
    pose proof (Hstep i j ltac:(lia)). nra.
  - intros Hup. rewrite !Hget by lia.
    pose proof (Hstep i j ltac:(lia)). nra.
Qed.

End Step.

(** The values of a Shirley background, on three or more samples. *)
Lemma shirleyBaseline_shaped data maxIterations tolerance :
  (3 <= length data)%nat ->
  exists baseline,
    shirleyBaseline data maxIterations tolerance = withY data baseline
    /\ stepShaped (map y data) (y (get origin data 0))
                  (y (get origin data (length data - 1))) baseline.
Proof.
  intros Hn. unfold shirleyBaseline.
  replace (length data <? 3)%nat with false
    by (symmetry; apply Nat.ltb_ge; lia).
  cbv zeta. eexists. split; [reflexivity|].
  rewrite !(get_map origin 0) by lia.
  assert (Hlen : length (map y data) = length data) by apply length_map.
  rewrite <- Hlen.
  apply shirleyLoop_shaped.
  - lia.
  - rewrite Hlen. now rewrite (get_map origin 0) by lia.
  - apply initial_shaped. lia.
Qed.

(** X11.  On three or more samples the Shirley background is pinned to
    the data at both ends: it takes the first sample's intensity at the
    first sample and the last sample's at the last, whatever the number
    of iterations and the tolerance. *)
Theorem X11_shirley_is_pinned_at_both_ends (data : list DataPoint)
    (maxIterations : nat) (tolerance : R) :
  (3 <= length data)%nat ->
  let b := shirleyBaseline data maxIterations tolerance in
  y (get origin b 0) = y (get origin data 0)
  /\ y (get origin b (length data - 1))
     = y (get origin data (length data - 1)).
Proof.
  intros Hn b. unfold b.
  destruct (shirleyBaseline_shaped data maxIterations tolerance Hn)
    as (baseline & -> & _ & H0 & Hlast & _).
  rewrite length_map in Hlast.
  rewrite !y_withY by lia. split; assumption.
Qed.

Definition threeSamples : list DataPoint :=
  [mkPoint 0 4; mkPoint 1 9; mkPoint 2 1].

Lemma X11_witness :
  let b := shirleyBaseline threeSamples 50 1e-5 in
  y (get origin b 0) = y (get origin threeSamples 0)
  /\ y (get origin b (length threeSamples - 1))
     = y (get origin threeSamples (length threeSamples - 1)).
Proof.
  apply (X11_shirley_is_pinned_at_both_ends threeSamples 50 1e-5).
  simpl. lia.
Defined.

(** X12.  On three or more samples the Shirley background is a monotone
    step between the two end intensities: it never rises when the first
    sample is the higher one, and never falls when it is the lower one. *)
Theorem X12_shirley_is_a_monotone_step (data : list DataPoint)
    (maxIterations : nat) (tolerance : R) (i j : nat) :
  (3 <= length data)%nat ->
  (i <= j < length data)%nat ->
  let b := shirleyBaseline data maxIterations tolerance in
  let first := y (get origin data 0) in
  let last := y (get origin data (length data - 1)) in
  (last <= first -> y (get origin b j) <= y (get origin b i))
  /\ (first <= last -> y (get origin b i) <= y (get origin b j)).
Proof.
  intros Hn Hij b. unfold b.
  destruct (shirleyBaseline_shaped data maxIterations tolerance Hn)
    as (baseline & -> & _ & _ & _ & Hmono).
  cbv zeta. rewrite !y_withY by lia.
  apply Hmono. rewrite length_map. exact Hij.
Qed.

Lemma X12_witness :
  let b := shirleyBaseline threeSamples 50 1e-5 in
  let first := y (get origin threeSamples 0) in
  let last := y (get origin threeSamples (length threeSamples - 1)) in
  (last <= first -> y (get origin b 2) <= y (get origin b 1))
  /\ (first <= last -> y (get origin b 1) <= y (get origin b 2)).
Proof.
  apply (X12_shirley_is_a_monotone_step threeSamples 50 1e-5 1 2);
    simpl; lia.
Defined.

End ShirleyProperties.

(** ** Manual baseline: interpolation at the control points *)

Module ManualProperties.

Import JS JSFacts ArrayFacts Baseline ManualFacts SumFacts.

(** *** The sort *)

Lemma insertByX_permutation p l : Permutation (insertByX p l) (p :: l).
Proof.
  induction l as [|h t IH]; simpl; [reflexivity|].
  destruct (Rlt_dec (x p) (x h)); [reflexivity|].
  rewrite IH. apply perm_swap.
Qed.

Lemma sortByX_permutation points : Permutation (sortByX points) points.
Proof.
  unfold sortByX.
  assert (H : forall acc,
            Permutation (fold_left (fun sorted p => insertByX p sorted)
                                   points acc)
                        (points ++ acc)).
  { induction points as [|p rest IH]; intros acc; simpl; [reflexivity|].
    rewrite IH, insertByX_permutation. symmetry. apply Permutation_middle. }
  rewrite H. now rewrite app_nil_r.
Qed.

(** Points with pairwise distinct abscissae, in ascending order, are in
    strictly ascending order. *)
Lemma ascending_strict l i j :
  ascending l -> NoDup (map x l) -> (i < j < length l)%nat ->
  x (get origin l i) < x (get origin l j).
Proof.
  intros Hasc Hnd Hij.
  destruct (Hasc i j ltac:(lia)) as [Hlt|Heq]; [exact Hlt|].
  exfalso.
  assert (Hi : nth i (map x l) 0 = x (get origin l i))
    by (apply (get_map origin 0); lia).
  assert (Hj : nth j (map x l) 0 = x (get origin l j))
    by (apply (get_map origin 0); lia).
  rewrite NoDup_nth with (d := 0) in Hnd.
  assert (i = j); [|lia].
  apply Hnd; rewrite ?length_map; try lia. congruence.
Qed.

(** *** Straight segments *)

Section Knots.

Variables (px py : list R).

Let n := length px.

Hypothesis Hincreasing : forall i j, (i < j < n)%nat ->
  get 0 px i < get 0 px j.

(** The segment search, started at or before the segment that ends in
    knot [k], stops in that segment. *)
Lemma findSegment_knot k : forall len s,
  (0 < k < n)%nat -> (s <= k - 1 < s + len)%nat ->
  findSegment px (get 0 px k) (seq s len) = Some (k - 1)%nat.
Proof.
  induction len as [|len IH]; intros s Hk Hs; [lia|].
  cbn [seq findSegment].
  destruct (Rge_dec (get 0 px k) (get 0 px s)) as [_|Hno].
  - destruct (Nat.eq_dec s (k - 1)) as [->|Hne].
    + replace (k - 1 + 1)%nat with k by lia.
      destruct (Rle_dec (get 0 px k) (get 0 px k)); [reflexivity | lra].
    + pose proof (Hincreasing (s + 1) k ltac:(lia)).
      destruct (Rle_dec (get 0 px k) (get 0 px (s + 1))); [lra|].
      apply IH; lia.
  - pose proof (Hincreasing s k ltac:(lia)). lra.
Qed.

Lemma linearInterpolate_knot k :
  (k < n)%nat -> linearInterpolate px py (get 0 px k) = get 0 py k.
Proof.
  intros Hk. unfold linearInterpolate. fold n. cbv zeta.
  destruct (Rle_dec (get 0 px k) (get 0 px 0)) as [Hle|Hgt].
  - destruct (Nat.eq_dec k 0) as [->|Hne]; [reflexivity|].
    pose proof (Hincreasing 0 k ltac:(lia)). lra.
  - assert (Hk0 : (0 < k)%nat).
    { destruct k; [|lia]. exfalso. apply Hgt. lra. }
    destruct (Rge_dec (get 0 px k) (get 0 px (n - 1))) as [Hge|Hlt].
    + destruct (Nat.eq_dec k (n - 1)) as [->|Hne]; [reflexivity|].
      pose proof (Hincreasing k (n - 1)%nat ltac:(lia)). lra.
    + assert (Hkn : (k < n - 1)%nat).
      { destruct (Nat.eq_dec k (n - 1)) as [->|Hne]; [|lia].
        exfalso. apply Hlt. lra. }
      unfold range. rewrite (findSegment_knot k) by lia.
      replace (k - 1 + 1)%nat with k by lia.
      pose proof (Hincreasing (k - 1)%nat k ltac:(lia)).
      field. lra.
Qed.

(** *** The spline *)

(** The third loop of the spline, from the last segment down: on every
    segment visited, [b] and [d] are tied to the final [c] by the two
    formulas of the loop body. *)
Lemma spline_rows (h z mu : list R) : forall is_ b0 c0 d0,
  StronglySorted lt is_ ->
  (forall i, In i is_ -> (i < n - 1)%nat) ->
  length b0 = (n - 1)%nat -> length c0 = n -> length d0 = (n - 1)%nat ->
  let g := get 0 in
  let '(b, c, d) :=
    fold_left (fun (bcd : list R * list R * list R) j =>
               let '(b, c, d) := bcd in
               let c := set c j (g z j - g mu j * g c (j + 1)%nat) in
               let b := set b j
                          ((g py (j + 1)%nat - g py j) / g h j
                           - g h j * (g c (j + 1)%nat + 2 * g c j) / 3) in
               let d := set d j
                          ((g c (j + 1)%nat - g c j) / (3 * g h j)) in
               (b, c, d))
              (rev is_) (b0, c0, d0) in
  length b = (n - 1)%nat /\ length c = n /\ length d = (n - 1)%nat
  /\ (forall j, In j is_ ->
        g b j = (g py (j + 1)%nat - g py j) / g h j
                - g h j * (g c (j + 1)%nat + 2 * g c j) / 3
        /\ g d j = (g c (j + 1)%nat - g c j) / (3 * g h j))
  /\ (forall j, ~ In j is_ -> g c j = g c0 j).
Proof.
  induction is_ as [|i0 rest IH]; intros b0 c0 d0 Hsorted Hin Hb Hc Hd g.
  - cbn. repeat split; try assumption; contradiction.
  - cbn [rev]. rewrite fold_left_app. cbn [fold_left].
    apply StronglySorted_inv in Hsorted. destruct Hsorted as [Hsorted Hlow].
    rewrite Forall_forall in Hlow.
    specialize (IH b0 c0 d0 Hsorted
                  (fun i Hi => Hin i (or_intror Hi)) Hb Hc Hd).
    cbv zeta in IH.
    destruct (fold_left _ (rev rest) (b0, c0, d0)) as [[b1 c1] d1].
    destruct IH as (Hb1 & Hc1 & Hd1 & Hrows & Hother).
    assert (Hi0 : (i0 < n - 1)%nat) by (apply Hin; now left).
    unfold g.
    repeat split.
    + now rewrite length_set.
    + now rewrite length_set.
    + now rewrite length_set.
    + destruct H as [<- | Hj].
      * rewrite get_set_same by lia. reflexivity.
      * pose proof (Hlow j Hj).
        rewrite !(get_set_other _ _ i0) by lia.
        apply Hrows. exact Hj.
    + destruct H as [<- | Hj].
      * rewrite get_set_same by lia. reflexivity.
      * pose proof (Hlow j Hj).
        rewrite !(get_set_other _ _ i0) by lia.
        apply Hrows. exact Hj.
    + intros j Hj.
      assert (j <> i0) by (intros ->; apply Hj; now left).
      rewrite get_set_other by congruence.
      apply Hother. intros Hc'. apply Hj. now right.
Qed.

Lemma cubicSplineInterpolate_knot k :
  (3 <= n)%nat -> (k < n)%nat ->
  cubicSplineInterpolate px py (get 0 px k) = get 0 py k.
Proof.
  intros Hn Hk. unfold cubicSplineInterpolate. fold n. cbv zeta.
  replace (n <? 3)%nat with false by (symmetry; apply Nat.ltb_ge; lia).
  destruct (Rle_dec (get 0 px k) (get 0 px 0)) as [Hle|Hgt].
  - destruct (Nat.eq_dec k 0) as [->|Hne].
    + pose proof (Hincreasing 0 1 ltac:(lia)). field. lra.
    + pose proof (Hincreasing 0 k ltac:(lia)). lra.
  - assert (Hk0 : (0 < k)%nat).
    { destruct k; [|lia]. exfalso. apply Hgt. lra. }
    destruct (Rge_dec (get 0 px k) (get 0 px (n - 1))) as [Hge|Hlt].
    + destruct (Nat.eq_dec k (n - 1)) as [->|Hne].
      * pose proof (Hincreasing (n - 2)%nat (n - 1)%nat ltac:(lia)).
        field. lra.
      * pose proof (Hincreasing k (n - 1)%nat ltac:(lia)). lra.
    + assert (Hkn : (k < n - 1)%nat).
      { destruct (Nat.eq_dec k (n - 1)) as [->|Hne]; [|lia].
        exfalso. apply Hlt. lra. }
      unfold splineCoefficients. fold n. cbv zeta.
      set (h := map (fun i => get 0 px (i + 1) - get 0 px i)
                    (range 0 (n - 1))).
      destruct (fold_left _ (range 1 (n - 1))
                          (fill n 1, fill n 0, fill n 0)) as [[l mu] z].
      pose proof (spline_rows h z mu (range 0 (n - 1))
                    (fill (n - 1) 0) (fill n 0) (fill (n - 1) 0)
                    (sorted_seq _ _)) as Hrows.
      cbv zeta in Hrows.
      destruct (fold_left _ (rev (range 0 (n - 1)))
                          (fill (n - 1) 0, fill n 0, fill (n - 1) 0))
        as [[b c] d].
      destruct Hrows as (_ & _ & _ & Hrows & _);
        try apply length_fill.
      { intros i Hi. apply in_range in Hi. lia. }
      unfold range at 1. rewrite (findSegment_knot k) by lia.
      destruct (Hrows (k - 1)%nat) as [Hb Hd]; [apply in_range; lia|].
      rewrite Hb, Hd.
      assert (Hh : get 0 h (k - 1) = get 0 px k - get 0 px (k - 1)).
      { unfold h. rewrite (get_map 0%nat 0) by (rewrite length_range; lia).
        rewrite ShirleyProperties.get_range by lia.
        replace (0 + (k - 1) + 1)%nat with k by lia. reflexivity. }
      rewrite Hh. replace (k - 1 + 1)%nat with k by lia.
      pose proof (Hincreasing (k - 1)%nat k ltac:(lia)).
      field. lra.
Qed.

End Knots.

(** X13.  The manual baseline passes through its control points: where a
    sample has the abscissa of a control point, the baseline takes that
    control point's ordinate.  This holds in linear and in cubic mode,
    for two or more control points of pairwise distinct abscissae. *)
Theorem X13_manual_baseline_passes_through_control_points
    (data points : list DataPoint) (interp : Interp) (p : DataPoint)
    (i : nat) :
  (2 <= length points)%nat ->
  NoDup (map x points) ->
  In p points ->
  (i < length data)%nat ->
  x (get origin data i) = x p ->
  y (get origin (manualBaseline data points interp) i) = y p.
Proof.
  intros Hn Hnd Hp Hi Hxi.
  set (sorted := sortByX points).
  pose proof (length_sortByX points) as Hlen. fold sorted in Hlen.
  pose proof (ascending_sortByX points) as Hasc. fold sorted in Hasc.
  pose proof (sortByX_permutation points) as Hperm. fold sorted in Hperm.
  assert (Hnd' : NoDup (map x sorted)).
  { apply (Permutation_NoDup (l := map x points)); [|exact Hnd].
    apply Permutation_map. now symmetry. }
  assert (Hin : In p sorted)
    by (apply (Permutation_in p (Permutation_sym Hperm)); exact Hp).
  destruct (In_nth sorted p origin Hin) as (k & Hk & Hget).
  assert (Hx : forall j, (j < length sorted)%nat ->
             get 0 (map x sorted) j = x (get origin sorted j))
    by (intros j Hj; now apply get_map).
  assert (Hy : forall j, (j < length sorted)%nat ->
             get 0 (map y sorted) j = y (get origin sorted j))
    by (intros j Hj; now apply get_map).
  assert (Hinc : forall a b, (a < b < length (map x sorted))%nat ->
             get 0 (map x sorted) a < get 0 (map x sorted) b).
  { intros a b Hab. rewrite length_map in Hab. rewrite !Hx by lia.
    now apply ascending_strict. }
  assert (Hknot : x p = get 0 (map x sorted) k).
  { rewrite Hx by assumption. unfold get. now rewrite Hget. }
  assert (Hval : y p = get 0 (map y sorted) k).
  { rewrite Hy by assumption. unfold get. now rewrite Hget. }
  unfold manualBaseline.
  replace (length points <? 2)%nat with false
    by (symmetry; apply Nat.ltb_ge; lia).
  cbv zeta. fold sorted.
  rewrite (get_map origin origin) by assumption. cbn [y].
  rewrite Hxi, Hknot, Hval.
  assert (Hlin : linearInterpolate (map x sorted) (map y sorted)
                   (get 0 (map x sorted) k) = get 0 (map y sorted) k).
  { apply linearInterpolate_knot; [exact Hinc|]. now rewrite length_map. }
  destruct interp; [exact Hlin|].
  destruct (3 <=? length sorted)%nat eqn:H3; [|exact Hlin].
  apply Nat.leb_le in H3.
  apply cubicSplineInterpolate_knot; [exact Hinc | |]; rewrite length_map; lia.
Qed.

Definition threeKnots : list DataPoint :=
  [mkPoint 10 5; mkPoint 0 0; mkPoint 5 1].

Lemma X13_witness :
  y (get origin (manualBaseline [mkPoint 5 7] threeKnots cubicI) 0)
  = y (mkPoint 5 1).
Proof.
  apply (X13_manual_baseline_passes_through_control_points
           [mkPoint 5 7] threeKnots cubicI (mkPoint 5 1) 0).
  - simpl. lia.
  - simpl. repeat constructor; simpl; intuition lra.
  - simpl. auto.
  - simpl. lia.
  - reflexivity.
Defined.

(** *** The order of the control points *)

Lemma ascending_sorted l :
  ascending l -> StronglySorted (fun a b => x a <= x b) l.
Proof.
  induction l as [|p t IH]; intros Hasc; constructor.
  - apply IH. now apply ascending_tail in Hasc.
  - apply Forall_forall. intros q Hq. now apply (ascending_head p t).
Qed.

Lemma same_abscissa_same_point (l : list DataPoint) a b :
  NoDup (map x l) -> In a l -> In b l -> x a = x b -> a = b.
Proof.
  induction l as [|h t IH]; intros Hnd Ha Hb Hab; [contradiction|].
  cbn [map] in Hnd. inversion Hnd as [|? ? Hnotin Hnd']; subst.
  destruct Ha as [<-|Ha], Hb as [<-|Hb].
  - reflexivity.
  - exfalso. apply Hnotin. rewrite Hab. now apply in_map.
  - exfalso. apply Hnotin. rewrite <- Hab. now apply in_map.
  - now apply IH.
Qed.

(** Two ascending arrangements of the same points, no two of which share
    an abscissa, are the same list. *)
Lemma sorted_unique : forall l1 l2,
  StronglySorted (fun a b => x a <= x b) l1 ->
  StronglySorted (fun a b => x a <= x b) l2 ->
  NoDup (map x l1) -> Permutation l1 l2 -> l1 = l2.
Proof.
  induction l1 as [|a t1 IH]; intros l2 H1 H2 Hnd Hperm.
  - apply Permutation_nil in Hperm. now subst.
  - destruct l2 as [|b t2];
      [apply Permutation_sym, Permutation_nil in Hperm; discriminate|].
    apply StronglySorted_inv in H1. destruct H1 as [H1 Ha].
    apply StronglySorted_inv in H2. destruct H2 as [H2 Hb].
    rewrite Forall_forall in Ha, Hb.
    assert (Hab : a = b).
    { assert (Hbin : In b (a :: t1))
        by (apply (Permutation_in b (Permutation_sym Hperm)); now left).
      assert (Hain : In a (b :: t2))
        by (apply (Permutation_in a Hperm); now left).
      apply (same_abscissa_same_point (a :: t1)); try assumption;
        [now left|].
      apply Rle_antisym.
      - destruct Hbin as [->|Hbin]; [lra | now apply Ha].
      - destruct Hain as [->|Hain]; [lra | now apply Hb]. }
    subst b. f_equal. apply IH; try assumption.
    + cbn [map] in Hnd. now inversion Hnd.
    + now apply Permutation_cons_inv in Hperm.
Qed.

(** X14.  The manual baseline does not depend on the order in which the
    control points are listed, as long as no two of them share an
    abscissa. *)
Theorem X14_manual_baseline_ignores_the_order_of_points
    (data points points' : list DataPoint) (interp : Interp) :
  NoDup (map x points) ->
  Permutation points points' ->
  manualBaseline data points interp = manualBaseline data points' interp.
Proof.
  intros Hnd Hperm.
  assert (Hsort : sortByX points = sortByX points').
  { apply sorted_unique.
    - apply ascending_sorted, ascending_sortByX.
    - apply ascending_sorted, ascending_sortByX.
    - apply (Permutation_NoDup (l := map x points)); [|exact Hnd].
      apply Permutation_map. symmetry. apply sortByX_permutation.
    - rewrite sortByX_permutation, Hperm. symmetry.
      apply sortByX_permutation. }
  unfold manualBaseline.
  rewrite <- (Permutation_length Hperm), Hsort. reflexivity.
Qed.

Lemma X14_witness :
  manualBaseline [mkPoint 2 0; mkPoint 7 0] threeKnots cubicI
  = manualBaseline [mkPoint 2 0; mkPoint 7 0]
                   [mkPoint 0 0; mkPoint 5 1; mkPoint 10 5] cubicI.
Proof.
  apply (X14_manual_baseline_ignores_the_order_of_points
           [mkPoint 2 0; mkPoint 7 0] threeKnots
           [mkPoint 0 0; mkPoint 5 1; mkPoint 10 5] cubicI).
  - simpl. repeat constructor; simpl; intuition lra.
  - unfold threeKnots.
    apply Permutation_sym, Permutation_cons_app with (l1 := [mkPoint 10 5])
                                                     (l2 := [mkPoint 5 1]).
    apply perm_swap.
Defined.

End ManualProperties.

(** ** What a fit hands back *)

Module FitProperties.

Import JS JSFacts ArrayFacts Baseline Fit FitFacts.

(** *** The curves *)

(** [let fittedY = 0; params.forEach(comp => fittedY += calculatePeak(x, comp))] *)
Definition peakSum (ps : list PeakComponent) (x : R) : R :=
  fold_left (fun fittedY comp => fittedY + Profiles.calculatePeak x comp) ps 0.

(** [d.y - (finalBaselineMap.get(d.x) || 0)] *)
Definition correctedAt (m : NumMap) (d : DataPoint) : R :=
  y d - orElse (mapGet m (x d)) 0.

(** The curves of the samples [done]. *)
Definition curvesUpTo (m : NumMap) (ps : list PeakComponent)
    (done : list DataPoint) (c : Curves) : Prop :=
  c_fittedData c = map (fun d => mkPoint (x d) (peakSum ps (x d))) done
  /\ c_residuals c
     = map (fun d => mkPoint (x d) (correctedAt m d - peakSum ps (x d))) done
  /\ c_baselineCorrectedData c
     = map (fun d => mkPoint (x d) (correctedAt m d)) done
  /\ c_componentData c
     = map (fun comp =>
              map (fun d => mkPoint (x d) (Profiles.calculatePeak (x d) comp))
                  done)
           ps.

Lemma combine_map_self {A B} (f : A -> B) l :
  combine (map f l) l = map (fun a => (f a, a)) l.
Proof. induction l as [|a t IH]; simpl; [reflexivity | now rewrite IH]. Qed.

Lemma curvesStep_upTo m ps mean done c d :
  curvesUpTo m ps done c ->
  curvesUpTo m ps (done ++ [d]) (curvesStep m ps mean c d).
Proof.
  intros (Hf & Hr & Hb & Hc). unfold curvesUpTo, curvesStep.
  cbn [c_fittedData c_residuals c_baselineCorrectedData c_componentData].
  rewrite Hf, Hr, Hb, Hc, !map_app. cbn [map].
  repeat split.
  rewrite combine_map_self, map_map. apply map_ext. intros comp.
  cbn [fst snd]. now rewrite map_app.
Qed.

Lemma curves_upTo m ps mean : forall rest done c,
  curvesUpTo m ps done c ->
  curvesUpTo m ps (done ++ rest) (fold_left (curvesStep m ps mean) rest c).
Proof.
  induction rest as [|d rest IH]; intros done c Hc; cbn [fold_left].
  - now rewrite app_nil_r.
  - replace (done ++ d :: rest) with ((done ++ [d]) ++ rest)
      by (now rewrite <- app_assoc).
    apply IH. now apply curvesStep_upTo.
Qed.

Lemma curvesOf_upTo data finalBaseline ps :
  curvesUpTo (baselineLookup finalBaseline) ps data
             (curvesOf data finalBaseline ps).
Proof.
  unfold curvesOf. cbv zeta.
  apply (curves_upTo _ _ _ data []).
  unfold curvesUpTo.
  cbn [c_fittedData c_residuals c_baselineCorrectedData c_componentData map].
  repeat split.
Qed.

(** *** A returned result, field by field *)

(** What [fitPeaks] returns on data and components, in terms of the
    optimizer's result and of the curves of the final baseline. *)
Lemma fitPeaks_returns data comps baseline baselineOptions maxIterations r :
  data <> [] -> comps <> [] ->
  fitPeaks data comps baseline baselineOptions maxIterations = Returns r ->
  exists lm,
    optimize data comps baseline baselineOptions maxIterations = Some lm
    /\ let ps := unpack comps (LM.params lm) in
       let c := curvesOf data (Fit.baseline r) ps in
       let n := INR (length data) in
       let p := INR (length ps * 3
                     + s_numBaselineParams
                         (setup data comps baseline baselineOptions)) in
       let rSq := 1 - c_sumSquaredResiduals c
                      / orNum (c_sumSquaredTotal c) 1 in
       parameters r = ps
       /\ fittedData r = c_fittedData c
       /\ residuals r = c_residuals c
       /\ components r = c_componentData c
       /\ baselineCorrectedData r = c_baselineCorrectedData c
       /\ rSquared r = Rmax 0 rSq
       /\ adjustedRSquared r = Rmax 0 (1 - (1 - rSq) * (n - 1) / (n - p - 1))
       /\ rmse r = sqrt (c_sumSquaredResiduals c / n)
       /\ chiSquared r = LM.chiSquared lm
       /\ reducedChiSquared r = LM.chiSquared lm / Rmax 1 (n - p)
       /\ iterations r = LM.iterations lm
       /\ converged r = LM.converged lm
       /\ (optimizedBaseline r = None -> Fit.baseline r = baseline).
Proof.
  intros Hd Hc.
  destruct (optimize_some data comps baseline baselineOptions
              maxIterations Hd Hc) as (lm & Hopt).
  unfold fitPeaks.
  rewrite (nonempty_length data Hd), (nonempty_length comps Hc).
  cbn [orb]. cbv zeta. rewrite Hopt.
  match goal with
  | |- context [match ?o with Some _ => _ | None => _ end] =>
      destruct o as [[ob obp]|]
  end; [|discriminate].
  intros Heq; injection Heq as <-. exists lm. split; [reflexivity|].
  cbn. repeat split. intros ->. reflexivity.
Qed.

(** The sum over the component curves at sample [i]. *)
Definition componentSum (curves : list (list DataPoint)) (i : nat) : R :=
  fold_left (fun s curve => s + y (get origin curve i)) curves 0.

Lemma componentSum_map (f : PeakComponent -> list DataPoint)
    (v : PeakComponent -> R) ps i :
  (forall comp, y (get origin (f comp) i) = v comp) ->
  componentSum (map f ps) i = fold_left (fun s comp => s + v comp) ps 0.
Proof.
  intros H. unfold componentSum. generalize 0.
  induction ps as [|p t IH]; intros acc; simpl; [reflexivity|].
  now rewrite IH, H.
Qed.

(** X15.  On data and components, the curves of a returned fit are
    aligned with the data and add up: [fittedData], [residuals],
    [baselineCorrectedData] and every component curve carry the
    abscissae of the data in order, there is one component curve per
    component, the fitted curve is the sum of the component curves and
    the residual is the baseline-corrected intensity minus the fitted
    one. *)
Theorem X15_curves_are_aligned_and_add_up (data : list DataPoint)
    (comps : list PeakComponent) (baseline : list DataPoint)
    (baselineOptions : option BaselineOptions) (maxIterations : nat)
    (r : FitResult) :
  data <> [] -> comps <> [] ->
  fitPeaks data comps baseline baselineOptions maxIterations = Returns r ->
  map x (fittedData r) = map x data
  /\ map x (residuals r) = map x data
  /\ map x (baselineCorrectedData r) = map x data
  /\ length (components r) = length comps
  /\ (forall curve, In curve (components r) -> map x curve = map x data)
  /\ forall i, (i < length data)%nat ->
       y (get origin (fittedData r) i) = componentSum (components r) i
       /\ y (get origin (residuals r) i)
          = y (get origin (baselineCorrectedData r) i)
            - y (get origin (fittedData r) i).
Proof.
  intros Hd Hc Hfit.
  destruct (fitPeaks_returns _ _ _ _ _ _ Hd Hc Hfit) as (lm & _ & Hr).
  cbv zeta in Hr.
  destruct Hr as (_ & Hf & Hres & Hcomp & Hbc & _).
  destruct (curvesOf_upTo data (Fit.baseline r) (unpack comps (LM.params lm)))
    as (Hf' & Hres' & Hbc' & Hcomp').
  rewrite Hf, Hres, Hbc, Hcomp, Hf', Hres', Hbc', Hcomp'.
  rewrite !map_map. cbn [x].
  repeat split.
  - rewrite length_map. unfold unpack. apply length_mapi.
  - intros curve Hin. apply in_map_iff in Hin.
    destruct Hin as (comp & <- & _). now rewrite map_map.
  - rewrite (get_map origin origin) by assumption. cbn [y].
    symmetry. unfold peakSum.
    apply (componentSum_map
             (fun comp => map (fun d => mkPoint (x d)
                                 (Profiles.calculatePeak (x d) comp)) data)
             (fun comp => Profiles.calculatePeak (x (get origin data i)) comp)).
    intros comp. now rewrite (get_map origin origin) by assumption.
  - rewrite !(get_map origin origin) by assumption. reflexivity.
Qed.

Definition twoPoints : list DataPoint := [mkPoint 0 0; mkPoint 1 1].
Definition onePeak : list PeakComponent :=
  [mkComponent 7 lorentzianP 0 10 1 1 None None].

Lemma X15_witness :
  exists r,
    fitPeaks twoPoints onePeak [] None 0 = Returns r
    /\ map x (fittedData r) = map x twoPoints
    /\ map x (residuals r) = map x twoPoints
    /\ map x (baselineCorrectedData r) = map x twoPoints
    /\ length (components r) = length onePeak
    /\ (forall curve, In curve (components r) -> map x curve = map x twoPoints)
    /\ forall i, (i < length twoPoints)%nat ->
         y (get origin (fittedData r) i) = componentSum (components r) i
         /\ y (get origin (residuals r) i)
            = y (get origin (baselineCorrectedData r) i)
              - y (get origin (fittedData r) i).
Proof.
  eexists. split; [reflexivity|].
  apply (X15_curves_are_aligned_and_add_up twoPoints onePeak [] None 0);
    [discriminate | discriminate | reflexivity].
Defined.

(** *** Statistics *)





(** *** Labels *)

(** X17.  A returned fit keeps the components as they were labelled: the
    returned parameters are as many as the components and carry, in
    order, their [id], [profile] and [sigma]/[gamma] overrides. *)
Theorem X17_parameters_keep_their_labels (data : list DataPoint)
    (comps : list PeakComponent) (baseline : list DataPoint)
    (baselineOptions : option BaselineOptions) (maxIterations : nat)
    (r : FitResult) :
  fitPeaks data comps baseline baselineOptions maxIterations = Returns r ->
  map id (parameters r) = map id comps
  /\ map profile (parameters r) = map profile comps
  /\ map sigma (parameters r) = map sigma comps
  /\ map gamma (parameters r) = map gamma comps.
Proof.
  intros Hfit.
  assert (Hlabels : forall params,
            map id (unpack comps params) = map id comps
            /\ map profile (unpack comps params) = map profile comps
            /\ map sigma (unpack comps params) = map sigma comps
            /\ map gamma (unpack comps params) = map gamma comps).
  { intros params. unfold unpack, mapi. rewrite !map_map. cbn.
    assert (Hsnd : forall {B} (f : PeakComponent -> B),
              map (fun iv : nat * PeakComponent => f (snd iv))
                  (combine (seq 0 (length comps)) comps)
              = map f comps).
    { intros B f. rewrite <- (map_map snd f). f_equal.
      apply RangeFacts.map_snd_combine_seq. }
    repeat split; apply Hsnd. }
  destruct data as [|d0 data'] eqn:Hdata.
  { injection Hfit as <-. cbn. repeat split. }
  destruct comps as [|c0 comps'] eqn:Hcomps.
  { injection Hfit as <-. cbn. repeat split. }
  rewrite <- Hdata, <- Hcomps in *.
  assert (Hd : data <> []) by (rewrite Hdata; discriminate).
  assert (Hc : comps <> []) by (rewrite Hcomps; discriminate).
  destruct (fitPeaks_returns _ _ _ _ _ _ Hd Hc Hfit) as (lm & _ & Hr).
  cbv zeta in Hr. destruct Hr as (-> & _). apply Hlabels.
Qed.

Lemma X17_witness :
  exists r,
    fitPeaks twoPoints onePeak [] None 0 = Returns r
    /\ map id (parameters r) = map id onePeak
    /\ map profile (parameters r) = map profile onePeak
    /\ map sigma (parameters r) = map sigma onePeak
    /\ map gamma (parameters r) = map gamma onePeak.
Proof.
  eexists. split; [reflexivity|].
  apply (X17_parameters_keep_their_labels twoPoints onePeak [] None 0).
  reflexivity.
Defined.

(** *** Baseline correction *)

(** A lookup table built from points of pairwise distinct abscissae
    holds them in order. *)
Lemma mapSet_fresh m k v :
  ~ In k (map fst m) -> mapSet m k v = m ++ [(k, v)].
Proof.
  induction m as [|[k' v'] t IH]; intros Hfresh; simpl; [reflexivity|].
  destruct (Req_dec_T k' k) as [->|Hne].
  - exfalso. apply Hfresh. now left.
  - f_equal. apply IH. intros Hin. apply Hfresh. now right.
Qed.

Lemma baselineLookup_distinct bl :
  NoDup (map x bl) -> baselineLookup bl = map (fun b => (x b, y b)) bl.
Proof.
  intros Hnd. unfold baselineLookup.
  assert (H : forall acc,
            NoDup (map fst acc ++ map x bl) ->
            fold_left (fun m b => mapSet m (x b) (y b)) bl acc
            = acc ++ map (fun b => (x b, y b)) bl).
  { clear Hnd. induction bl as [|b t IH]; intros acc Hnd; simpl.
    - now rewrite app_nil_r.
    - cbn [map] in Hnd.
      rewrite mapSet_fresh.
      + rewrite IH.
        * now rewrite <- app_assoc.
        * rewrite map_app. cbn [map fst]. now rewrite <- app_assoc.
      + intros Hin. apply NoDup_remove_2 in Hnd. apply Hnd.
        apply in_or_app. now left. }
  apply (H []). exact Hnd.
Qed.

Lemma mapGet_distinct bl i :
  NoDup (map x bl) -> (i < length bl)%nat ->
  mapGet (map (fun b => (x b, y b)) bl) (x (get origin bl i))
  = Some (y (get origin bl i)).
Proof.
  unfold mapGet, get. revert i.
  induction bl as [|b t IH]; intros i Hnd Hi; [simpl in Hi; lia|].
  cbn [map] in Hnd. inversion Hnd as [|? ? Hnotin Hnd']; subst.
  cbn [map find fst]. unfold eqb at 1.
  destruct i as [|i]; cbn [nth].
  - destruct (Req_dec_T (x b) (x b)); [reflexivity | congruence].
  - destruct (Req_dec_T (x b) (x (nth i t origin))) as [Heq|_].
    + exfalso. apply Hnotin. rewrite Heq. apply in_map, nth_In.
      simpl in Hi. lia.
    + apply IH; [exact Hnd' | simpl in Hi; lia].
Qed.

(** X18.  When the samples have pairwise distinct abscissae and the
    returned baseline carries the abscissae of the data,
    [baselineCorrectedData] is the data minus that baseline, sample by
    sample. *)
Theorem X18_corrected_data_is_data_minus_baseline (data : list DataPoint)
    (comps : list PeakComponent) (baseline : list DataPoint)
    (baselineOptions : option BaselineOptions) (maxIterations : nat)
    (r : FitResult) (i : nat) :
  data <> [] -> comps <> [] ->
  fitPeaks data comps baseline baselineOptions maxIterations = Returns r ->
  NoDup (map x data) ->
  map x (Fit.baseline r) = map x data ->
  (i < length data)%nat ->
  y (get origin (baselineCorrectedData r) i)
  = y (get origin data i) - y (get origin (Fit.baseline r) i).
Proof.
  intros Hd Hc Hfit Hnd Halign Hi.
  destruct (fitPeaks_returns _ _ _ _ _ _ Hd Hc Hfit) as (lm & _ & Hr).
  cbv zeta in Hr. destruct Hr as (_ & _ & _ & _ & Hbc & _).
  destruct (curvesOf_upTo data (Fit.baseline r) (unpack comps (LM.params lm)))
    as (_ & _ & Hbc' & _).
  rewrite Hbc, Hbc'.
  rewrite (get_map origin origin) by assumption. cbn [y].
  unfold correctedAt. f_equal.
  assert (Hlen : length (Fit.baseline r) = length data).
  { rewrite <- (length_map x (Fit.baseline r)), Halign. apply length_map. }
  assert (Hxi : x (get origin data i) = x (get origin (Fit.baseline r) i)).
  { rewrite <- (get_map origin 0 x data i) by assumption.
    rewrite <- (get_map origin 0 x (Fit.baseline r) i) by lia.
    now rewrite Halign. }
  rewrite baselineLookup_distinct by (now rewrite Halign).
  rewrite Hxi. rewrite mapGet_distinct; [|now rewrite Halign | lia].
  unfold orElse, orNum.
  destruct (Req_dec_T (y (get origin (Fit.baseline r) i)) 0) as [->|];
    reflexivity.
Qed.

Definition flatBaseline : list DataPoint := [mkPoint 0 3; mkPoint 1 3].

Lemma X18_witness :
  exists r,
    fitPeaks twoPoints onePeak flatBaseline None 0 = Returns r
    /\ y (get origin (baselineCorrectedData r) 1)
       = y (get origin twoPoints 1) - y (get origin (Fit.baseline r) 1).
Proof.
  eexists. split; [reflexivity|].
  apply (X18_corrected_data_is_data_minus_baseline
           twoPoints onePeak flatBaseline None 0);
    try discriminate; try reflexivity.
  - simpl. repeat constructor; simpl; intuition lra.
  - simpl. lia.
Defined.

End FitProperties.

(** ** Minimum, maximum and the stable sort *)

Module OrderFacts.

Import JS JSFacts ArrayFacts Initializers.

Lemma fold_Rmin_le t : forall h,
  fold_left Rmin t h <= h /\ forall v, In v t -> fold_left Rmin t h <= v.
Proof.
  induction t as [|a t IH]; intros h; simpl.
  - split; [lra | contradiction].
  - destruct (IH (Rmin h a)) as [H1 H2]. split.
    + pose proof (Rmin_l h a). lra.
    + intros v [<-|Hv]; [|now apply H2].
      pose proof (Rmin_r h a). lra.
Qed.

Lemma fold_Rmax_ge t : forall h,
  h <= fold_left Rmax t h /\ forall v, In v t -> v <= fold_left Rmax t h.
Proof.
  induction t as [|a t IH]; intros h; simpl.
  - split; [lra | contradiction].
  - destruct (IH (Rmax h a)) as [H1 H2]. split.
    + pose proof (Rmax_l h a). lra.
    + intros v [<-|Hv]; [|now apply H2].
      pose proof (Rmax_r h a). lra.
Qed.

Lemma minList_le l v : In v l -> minList l <= v.
Proof.
  destruct l as [|h t]; [contradiction|]. simpl.
  destruct (fold_Rmin_le t h) as [H1 H2].
  intros [<-|Hv]; [exact H1 | now apply H2].
Qed.

Lemma maxList_ge l v : In v l -> v <= maxList l.
Proof.
  destruct l as [|h t]; [contradiction|]. simpl.
  destruct (fold_Rmax_ge t h) as [H1 H2].
  intros [<-|Hv]; [exact H1 | now apply H2].
Qed.

Lemma minList_le_maxList l : l <> [] -> minList l <= maxList l.
Proof.
  destruct l as [|h t]; [congruence|]. intros _.
  pose proof (minList_le (h :: t) h ltac:(now left)).
  pose proof (maxList_ge (h :: t) h ltac:(now left)). lra.
Qed.

(** *** The sort *)

Lemma insertBy_permutation {A} (before : A -> A -> bool) p l :
  Permutation (insertBy before p l) (p :: l).
Proof.
  induction l as [|h t IH]; simpl; [reflexivity|].
  destruct (before p h); [reflexivity|].
  rewrite IH. apply perm_swap.
Qed.

Lemma sortBy_permutation {A} (before : A -> A -> bool) l :
  Permutation (sortBy before l) l.
Proof.
  unfold sortBy.
  assert (H : forall acc,
            Permutation (fold_left (fun sorted p => insertBy before p sorted)
                                   l acc)
                        (l ++ acc)).
  { induction l as [|p rest IH]; intros acc; simpl; [reflexivity|].
    rewrite IH, insertBy_permutation. symmetry. apply Permutation_middle. }
  rewrite H. now rewrite app_nil_r.
Qed.

Lemma length_sortBy {A} (before : A -> A -> bool) l :
  length (sortBy before l) = length l.
Proof. apply Permutation_length, sortBy_permutation. Qed.

Section ByKey.

Context {A : Type}.
Variable key : A -> R.

Let before (a b : A) : bool := ltb (key a) (key b).
Let ordered (a b : A) : Prop := key a <= key b.

Lemma insertBy_sorted p l :
  StronglySorted ordered l -> StronglySorted ordered (insertBy before p l).
Proof.
  induction l as [|h t IH]; intros Hs; simpl.
  - repeat constructor.
  - apply StronglySorted_inv in Hs. destruct Hs as [Hs Hh].
    unfold before at 1, ltb. destruct (Rlt_dec (key p) (key h)) as [Hlt|Hge].
    + constructor; [now constructor|].
      constructor; [unfold ordered; lra|].
      rewrite Forall_forall in *. intros b Hb.
      specialize (Hh b Hb). unfold ordered in *. lra.
    + constructor; [now apply IH|].
      apply (Permutation_Forall
               (Permutation_sym (insertBy_permutation before p t))).
      constructor; [unfold ordered; lra | exact Hh].
Qed.

Lemma sortBy_sorted l : StronglySorted ordered (sortBy before l).
Proof.
  unfold sortBy.
  assert (H : forall acc, StronglySorted ordered acc ->
            StronglySorted ordered
              (fold_left (fun sorted p => insertBy before p sorted) l acc)).
  { induction l as [|p rest IH]; intros acc Hacc; simpl; [exact Hacc|].
    apply IH. now apply insertBy_sorted. }
  apply H. constructor.
Qed.

End ByKey.

(** *** [map] after a numbered [map] *)

Lemma map_mapi_value {A B C} (f : B -> C) (g : A -> nat -> B) (h : A -> C) l :
  (forall a i, f (g a i) = h a) -> map f (mapi g l) = map h l.
Proof.
  intros H. unfold mapi.
  transitivity (map h (map snd (combine (seq 0 (length l)) l))).
  - rewrite !map_map. apply map_ext. intros [i a]. apply H.
  - now rewrite RangeFacts.map_snd_combine_seq.
Qed.

Lemma map_mapi_index {A B C} (f : B -> C) (g : A -> nat -> B) (h : nat -> C) l :
  (forall a i, f (g a i) = h i) ->
  map f (mapi g l) = map h (range 0 (length l)).
Proof.
  intros H. unfold mapi, range. rewrite Nat.sub_0_r.
  transitivity (map h (map fst (combine (seq 0 (length l)) l))).
  - rewrite !map_map. apply map_ext. intros [i a]. apply H.
  - now rewrite RangeFacts.map_fst_combine_seq.
Qed.

Lemma Forall_map_iff {A B} (P : B -> Prop) (f : A -> B) l :
  Forall P (map f l) <-> Forall (fun a => P (f a)) l.
Proof. apply Forall_map. Qed.

Lemma sorted_map_key {A} (key : A -> R) l :
  StronglySorted (fun a b => key a <= key b) l ->
  StronglySorted Rle (map key l).
Proof.
  induction l as [|a l IH]; intros Hs; cbn [map]; constructor;
    apply StronglySorted_inv in Hs; destruct Hs as [Hs Ha].
  - now apply IH.
  - now apply Forall_map_iff.
Qed.

Lemma sortBy_key_sorted {A} (key : A -> R) l :
  StronglySorted Rle
    (map key (sortBy (fun a b => ltb (key a) (key b)) l)).
Proof. apply sorted_map_key. apply (sortBy_sorted key). Qed.

End OrderFacts.

(** ** Initial guesses *)

Module InitializerProperties.

Import JS JSFacts ArrayFacts Baseline Initializers OrderFacts SumFacts.

(** The numbers [1, 2, ..., n]. *)
Definition oneTo (n : nat) : list Z :=
  map (fun i => (Z.of_nat i + 1)%Z) (range 0 n).

(** A component as the initializers make it: of the profile asked for,
    of weight 1 and without overrides. *)
Definition fresh (profile_ : Profile) (c : PeakComponent) : Prop :=
  profile c = profile_ /\ weight c = 1 /\ sigma c = None /\ gamma c = None.

Section EvenlySpaced.

Variable data : list DataPoint.
Variable nPeaks : Z.
Variable profile_ : Profile.

Hypothesis Hdata : data <> [].
Hypothesis HnPeaks : (1 <= nPeaks)%Z.

Let xMin := minList (map x data).
Let xMax := maxList (map x data).
Let n := Z.to_nat nPeaks.

Lemma span_nonneg : xMin <= xMax.
Proof.
  apply minList_le_maxList. destruct data; [congruence | discriminate].
Qed.

Lemma xRange_pos : 0 < orNum (xMax - xMin) 1.
Proof.
  pose proof span_nonneg. unfold orNum.
  destruct (Req_dec_T (xMax - xMin) 0); lra.
Qed.

Lemma initEvenlySpaced_unfold :
  initEvenlySpaced data nPeaks profile_
  = map (fun i =>
           mkComponent (Z.of_nat i + 1) profile_
             (xMin + ((INR i + 1) / (IZR nPeaks + 1)) * orNum (xMax - xMin) 1)
             (Rmax ((maxList (map y data) - minList (map y data)) / IZR nPeaks)
                   (maxList (map y data) * 0.5))
             (orNum (xMax - xMin) 1 / (4 * IZR nPeaks)) 1.0 None None)
        (range 0 n).
Proof.
  unfold initEvenlySpaced.
  rewrite (FitFacts.nonempty_length data Hdata).
  replace (nPeaks <? 1)%Z with false by (symmetry; apply Z.ltb_ge; lia).
  reflexivity.
Qed.

Lemma nPeaks_pos : 1 <= IZR nPeaks.
Proof. now apply IZR_le. Qed.

Lemma evenlySpaced_shape :
  let cs := initEvenlySpaced data nPeaks profile_ in
  length cs = n
  /\ map id cs = oneTo n
  /\ Forall (fresh profile_) cs
  /\ Forall (fun c => 0 < width c /\ 0 <= amplitude c) cs.
Proof.
  cbv zeta. rewrite initEvenlySpaced_unfold.
  pose proof xRange_pos as Hrange. pose proof nPeaks_pos as Hn.
  repeat split.
  - now rewrite length_map, length_range, Nat.sub_0_r.
  - unfold oneTo. rewrite map_map. reflexivity.
  - apply Forall_map_iff, Forall_forall. intros i _.
    unfold fresh. cbn. repeat split. lra.
  - apply Forall_map_iff, Forall_forall. intros i _. cbn [width amplitude].
    split.
    + apply Rdiv_lt_0_compat; lra.
    + eapply Rle_trans; [|apply Rmax_l].
      apply Rmult_le_pos.
      * pose proof (minList_le_maxList (map y data)
                      ltac:(destruct data; [congruence | discriminate])).
        lra.
      * left. apply Rinv_0_lt_compat. lra.
Qed.

(** The centres, from left to right. *)
Lemma evenlySpaced_centers :
  map center (initEvenlySpaced data nPeaks profile_)
  = map (fun i => xMin + ((INR i + 1) / (IZR nPeaks + 1))
                         * orNum (xMax - xMin) 1)
        (range 0 n).
Proof. rewrite initEvenlySpaced_unfold, map_map. reflexivity. Qed.

Lemma fraction_increasing i j :
  (i < j)%nat ->
  (INR i + 1) / (IZR nPeaks + 1) < (INR j + 1) / (IZR nPeaks + 1).
Proof.
  intros Hij. pose proof nPeaks_pos.
  unfold Rdiv. apply Rmult_lt_compat_r.
  - apply Rinv_0_lt_compat. lra.
  - apply lt_INR in Hij. lra.
Qed.

Lemma fraction_inside i :
  (i < n)%nat -> 0 < (INR i + 1) / (IZR nPeaks + 1) < 1.
Proof.
  intros Hi. pose proof nPeaks_pos. pose proof (pos_INR i).
  assert (Hin : INR i + 1 <= IZR nPeaks).
  { rewrite <- (Z2Nat.id nPeaks) by lia. fold n.
    rewrite <- INR_IZR_INZ. rewrite <- S_INR. apply le_INR. lia. }
  split.
  - apply Rdiv_lt_0_compat; lra.
  - apply (Rmult_lt_reg_r (IZR nPeaks + 1)); [lra|].
    unfold Rdiv. rewrite Rmult_assoc, Rinv_l by lra. lra.
Qed.

Lemma sorted_map_range (f : nat -> R) m :
  (forall i j, (i < j < m)%nat -> f i < f j) ->
  StronglySorted Rlt (map f (range 0 m)).
Proof.
  intros Hf. unfold range. rewrite Nat.sub_0_r.
  assert (H : forall len s, (s + len <= m)%nat ->
            StronglySorted Rlt (map f (seq s len))).
  { induction len as [|len IH]; intros s Hs; cbn [seq map]; constructor.
    - apply IH. lia.
    - apply Forall_map_iff, Forall_forall. intros j Hj.
      apply in_seq in Hj. apply Hf. lia. }
  apply H. lia.
Qed.

Lemma evenlySpaced_increasing :
  StronglySorted Rlt (map center (initEvenlySpaced data nPeaks profile_)).
Proof.
  rewrite evenlySpaced_centers. apply sorted_map_range.
  intros i j Hij. pose proof xRange_pos.
  pose proof (fraction_increasing i j ltac:(lia)). nra.
Qed.

End EvenlySpaced.

(** X19.  On data and for a count of at least one, [initEvenlySpaced]
    returns exactly [nPeaks] components, numbered 1 to [nPeaks] in
    order, each of the profile asked for and of weight 1, with a
    positive width and an amplitude that is not negative. *)
Theorem X19_evenly_spaced_guesses_are_well_formed (data : list DataPoint)
    (nPeaks : Z) (profile_ : Profile) :
  data <> [] ->
  (1 <= nPeaks)%Z ->
  let cs := initEvenlySpaced data nPeaks profile_ in
  length cs = Z.to_nat nPeaks
  /\ map id cs = oneTo (Z.to_nat nPeaks)
  /\ Forall (fresh profile_) cs
  /\ Forall (fun c => 0 < width c /\ 0 <= amplitude c) cs.
Proof. intros Hd Hn. now apply evenlySpaced_shape. Qed.

Definition fourSamples : list DataPoint :=
  [mkPoint 0 1; mkPoint 1 5; mkPoint 2 2; mkPoint 4 1].

Lemma X19_witness :
  let cs := initEvenlySpaced fourSamples 3 lorentzianP in
  length cs = Z.to_nat 3
  /\ map id cs = oneTo (Z.to_nat 3)
  /\ Forall (fresh lorentzianP) cs
  /\ Forall (fun c => 0 < width c /\ 0 <= amplitude c) cs.
Proof.
  apply (X19_evenly_spaced_guesses_are_well_formed fourSamples 3 lorentzianP).
  - discriminate.
  - lia.
Defined.

(** X20.  The centres that [initEvenlySpaced] places are strictly
    increasing, and when the samples span a range of abscissae they lie
    strictly inside it. *)
Theorem X20_evenly_spaced_centres_lie_inside_the_data (data : list DataPoint)
    (nPeaks : Z) (profile_ : Profile) :
  data <> [] ->
  (1 <= nPeaks)%Z ->
  let cs := initEvenlySpaced data nPeaks profile_ in
  StronglySorted Rlt (map center cs)
  /\ (minList (map x data) < maxList (map x data) ->
      Forall (fun c => minList (map x data) < center c
                       < maxList (map x data)) cs).
Proof.
  intros Hd Hn cs. split; [now apply evenlySpaced_increasing|].
  intros Hspan. apply Forall_map_iff with (P := fun v => _ < v < _)
                                          (f := center).
  unfold cs. rewrite evenlySpaced_centers by assumption.
  apply Forall_map_iff, Forall_forall. intros i Hi. apply in_range in Hi.
  pose proof (fraction_inside nPeaks Hn i ltac:(lia)) as Hfrac.
  unfold orNum. destruct (Req_dec_T _ 0) as [Hz|_]; [lra|]. nra.
Qed.

Lemma X20_witness :
  let cs := initEvenlySpaced fourSamples 3 lorentzianP in
  StronglySorted Rlt (map center cs)
  /\ (minList (map x fourSamples) < maxList (map x fourSamples) ->
      Forall (fun c => minList (map x fourSamples) < center c
                       < maxList (map x fourSamples)) cs).
Proof.
  apply (X20_evenly_spaced_centres_lie_inside_the_data
           fourSamples 3 lorentzianP).
  - discriminate.
  - lia.
Defined.

(** *** Maxima *)

Lemma estimateWidth_pos data c :
  data <> [] ->
  minList (map x data) < maxList (map x data) ->
  0 < estimateWidth data c.
Proof.
  intros Hd Hspan. unfold estimateWidth. cbv zeta.
  eapply Rlt_le_trans; [|apply Rmax_r].
  assert (0 < INR (length data))
    by (apply lt_0_INR; destruct data; [congruence | simpl; lia]).
  apply Rdiv_lt_0_compat; [lra|]. apply Rdiv_lt_0_compat; lra.
Qed.

Lemma sorted_Rlt_Rle l : StronglySorted Rlt l -> StronglySorted Rle l.
Proof.
  induction 1 as [|a l Hs IH Ha]; constructor; [exact IH|].
  rewrite Forall_forall in *. intros b Hb. left. now apply Ha.
Qed.

Section Maxima.

Variable data : list DataPoint.
Variable nPeaks : Z.
Variable profile_ : Profile.

Hypothesis Hdata : data <> [].
Hypothesis HnPeaks : (1 <= nPeaks)%Z.

Let n := Z.to_nat nPeaks.

(** What holds of the guesses, whichever branch makes them. *)
Definition wellFormed (cs : list PeakComponent) : Prop :=
  length cs = n
  /\ map id cs = oneTo n
  /\ Forall (fresh profile_) cs
  /\ StronglySorted Rle (map center cs)
  /\ (minList (map x data) < maxList (map x data) ->
      Forall (fun c => 0 < width c) cs).

Lemma evenlySpaced_wellFormed :
  wellFormed (initEvenlySpaced data nPeaks profile_).
Proof.
  destruct (evenlySpaced_shape data nPeaks profile_ Hdata HnPeaks)
    as (Hlen & Hid & Hfresh & Hpos).
  repeat split; try assumption.
  - apply sorted_Rlt_Rle. now apply evenlySpaced_increasing.
  - intros _. revert Hpos. apply Forall_impl. intros c [Hw _]. exact Hw.
Qed.

Lemma fromCandidate_wellFormed selected :
  length selected = n ->
  StronglySorted Rle (map cx selected) ->
  wellFormed (mapi (fun peak i =>
                      fromCandidate data profile_ (Z.of_nat i + 1) peak)
                   selected).
Proof.
  intros Hlen Hsorted. repeat split.
  - now rewrite length_mapi.
  - unfold oneTo. rewrite <- Hlen. now apply map_mapi_index.
  - unfold mapi. apply Forall_map_iff, Forall_forall. intros iv _.
    unfold fresh. cbn. repeat split. lra.
  - rewrite (map_mapi_value center _ cx); [exact Hsorted | reflexivity].
  - intros Hspan. unfold mapi. apply Forall_map_iff, Forall_forall.
    intros iv _. cbn [width fromCandidate].
    now apply estimateWidth_pos.
Qed.

Lemma initWithGMM_wellFormed : wellFormed (initWithGMM data nPeaks profile_).
Proof.
  unfold initWithGMM.
  replace (nPeaks <? 1)%Z with false by (symmetry; apply Z.ltb_ge; lia).
  rewrite orb_false_r.
  destruct (length data <? 3)%nat; [apply evenlySpaced_wellFormed|].
  cbv zeta. destruct (Req_dec_T _ 0); [apply evenlySpaced_wellFormed|].
  set (peaks := sortBy _ (findPeaks _ _ _)).
  set (selected := sortBy _ (firstn (Z.to_nat nPeaks) peaks)).
  assert (Hsel : (length selected <= n)%nat).
  { unfold selected. rewrite length_sortBy, length_firstn. fold n. lia. }
  assert (Hsorted : StronglySorted Rle (map cx selected)).
  { unfold selected. apply (sortBy_key_sorted cx). }
  destruct (Z.ltb_spec (Z.of_nat (length selected)) nPeaks) as [Hfew|Hall].
  - (* too few maxima: the rest is spaced evenly *)
    set (k := length selected) in *.
    assert (Hrest : (1 <= nPeaks - Z.of_nat k)%Z) by lia.
    destruct (evenlySpaced_shape data (nPeaks - Z.of_nat k) profile_
                Hdata Hrest) as (Hlen & _ & Hfresh & Hpos).
    cbv zeta in Hlen, Hfresh, Hpos.
    set (spaced := initEvenlySpaced data (nPeaks - Z.of_nat k) profile_) in *.
    set (found := mapi (fun peak i =>
                          fromCandidate data profile_ (Z.of_nat i + 1) peak)
                       selected).
    set (numbered := mapi (fun comp i => withId comp (Z.of_nat (k + i) + 1))
                          spaced).
    set (result := sortBy (fun a b => ltb (center a) (center b))
                          (found ++ numbered)).
    assert (Hperm : Permutation result (found ++ numbered))
      by apply sortBy_permutation.
    assert (Hall : Forall (fun c => fresh profile_ c
                                    /\ (minList (map x data)
                                        < maxList (map x data) ->
                                        0 < width c))
                          (found ++ numbered)).
    { apply Forall_app. split.
      - unfold found, mapi. apply Forall_map_iff, Forall_forall.
        intros iv _. split.
        + unfold fresh. cbn. repeat split. lra.
        + intros Hspan. cbn [width fromCandidate].
          now apply estimateWidth_pos.
      - unfold numbered, mapi. apply Forall_map_iff, Forall_forall.
        intros [i c] Hic. cbn [fst snd].
        assert (Hc : In c spaced).
        { apply in_combine_r in Hic. exact Hic. }
        rewrite Forall_forall in Hfresh, Hpos.
        destruct (Hfresh c Hc) as (Hp & Hw & Hs & Hg).
        destruct (Hpos c Hc) as [Hwidth _].
        split; [|intros _; exact Hwidth].
        unfold fresh. cbn. auto. }
    apply (Permutation_Forall (Permutation_sym Hperm)) in Hall.
    repeat split.
    + rewrite length_mapi. rewrite (Permutation_length Hperm), length_app.
      unfold found, numbered. rewrite !length_mapi, Hlen. fold k. lia.
    + unfold oneTo.
      replace n with (length result).
      * now apply map_mapi_index.
      * rewrite (Permutation_length Hperm), length_app.
        unfold found, numbered. rewrite !length_mapi, Hlen. fold k. lia.
    + unfold mapi. apply Forall_map_iff, Forall_forall.
      intros [i c] Hic. cbn [fst snd].
      apply in_combine_r in Hic. rewrite Forall_forall in Hall.
      destruct (Hall c Hic) as [(Hp & Hw & Hs & Hg) _].
      unfold fresh. cbn. auto.
    + rewrite (map_mapi_value center _ center) by reflexivity.
      unfold result. apply (sortBy_key_sorted center).
    + intros Hspan. unfold mapi. apply Forall_map_iff, Forall_forall.
      intros [i c] Hic. cbn [fst snd width withId].
      apply in_combine_r in Hic. rewrite Forall_forall in Hall.
      destruct (Hall c Hic) as [_ Hw]. now apply Hw.
  - apply fromCandidate_wellFormed; [|exact Hsorted]. lia.
Qed.

End Maxima.

(** X21.  On data and for a count of at least one, [initWithGMM]
    returns exactly [nPeaks] components whether or not it finds that
    many maxima: numbered 1 to [nPeaks] in order, each of the profile
    asked for, of weight 1 and without overrides, and of positive width
    when the samples span a range of abscissae. *)
Theorem X21_maxima_guesses_are_well_formed (data : list DataPoint)
    (nPeaks : Z) (profile_ : Profile) :
  data <> [] ->
  (1 <= nPeaks)%Z ->
  let cs := initWithGMM data nPeaks profile_ in
  length cs = Z.to_nat nPeaks
  /\ map id cs = oneTo (Z.to_nat nPeaks)
  /\ Forall (fresh profile_) cs
  /\ (minList (map x data) < maxList (map x data) ->
      Forall (fun c => 0 < width c) cs).
Proof.
  intros Hd Hn cs.
  destruct (initWithGMM_wellFormed data nPeaks profile_ Hd Hn)
    as (Hlen & Hid & Hfresh & _ & Hwidth).
  repeat split; assumption.
Qed.

Lemma X21_witness :
  let cs := initWithGMM fourSamples 3 lorentzianP in
  length cs = Z.to_nat 3
  /\ map id cs = oneTo (Z.to_nat 3)
  /\ Forall (fresh lorentzianP) cs
  /\ (minList (map x fourSamples) < maxList (map x fourSamples) ->
      Forall (fun c => 0 < width c) cs).
Proof.
  apply (X21_maxima_guesses_are_well_formed fourSamples 3 lorentzianP).
  - discriminate.
  - lia.
Defined.

(** X22.  The components that [initWithGMM] returns are ordered by
    centre, from left to right, whether they come from maxima, from the
    even spacing or from both. *)
Theorem X22_maxima_guesses_are_ordered_by_centre (data : list DataPoint)
    (nPeaks : Z) (profile_ : Profile) :
  data <> [] ->
  (1 <= nPeaks)%Z ->
  StronglySorted Rle (map center (initWithGMM data nPeaks profile_)).
Proof.
  intros Hd Hn.
  destruct (initWithGMM_wellFormed data nPeaks profile_ Hd Hn)
    as (_ & _ & _ & Hsorted & _).
  exact Hsorted.
Qed.

Lemma X22_witness :
  StronglySorted Rle (map center (initWithGMM fourSamples 3 lorentzianP)).
Proof.
  apply (X22_maxima_guesses_are_ordered_by_centre fourSamples 3 lorentzianP).
  - discriminate.
  - lia.
Defined.

End InitializerProperties.

(** ** Preprocessing *)

Module ProcessingProperties.

Import JS JSFacts ArrayFacts Baseline Initializers Processing OrderFacts
       SumFacts AlignmentFacts.

(** *** Outliers by z-score *)

Lemma filter_nil {A} (f : A -> bool) l :
  filter f l = [] -> forall a, In a l -> f a = false.
Proof.
  intros Hnil a Ha. destruct (f a) eqn:Hf; [|reflexivity].
  assert (Hin : In a (filter f l)) by (apply filter_In; now split).
  rewrite Hnil in Hin. contradiction.
Qed.

Lemma fold_sum_from {A} (f : A -> R) l : forall acc,
  fold_left (fun s v => s + f v) l acc
  = acc + fold_left (fun s v => s + f v) l 0.
Proof.
  induction l as [|a t IH]; intros acc; simpl; [ring|].
  rewrite IH, (IH (0 + f a)). ring.
Qed.

Lemma fold_sum_ge {A} (f : A -> R) (c : R) l :
  (forall v, In v l -> c <= f v) ->
  INR (length l) * c <= fold_left (fun s v => s + f v) l 0.
Proof.
  induction l as [|a t IH]; intros H.
  - simpl. lra.
  - cbn [fold_left]. rewrite fold_sum_from.
    change (length (a :: t)) with (S (length t)). rewrite S_INR.
    assert (c <= f a) by (apply H; now left).
    assert (INR (length t) * c <= fold_left (fun s v => s + f v) t 0)
      by (apply IH; intros; apply H; now right).
    lra.
Qed.

Lemma fold_sum_nonneg {A} (f : A -> R) l :
  (forall v, 0 <= f v) -> 0 <= fold_left (fun s v => s + f v) l 0.
Proof.
  intros H. pose proof (fold_sum_ge f 0 l (fun v _ => H v)). lra.
Qed.

(** X23.  Z-score filtering with a threshold above 1 never empties a
    dataset: some sample always lies within one standard deviation of
    the mean. *)
Theorem X23_zscore_filter_keeps_a_sample (data : list DataPoint)
    (threshold : R) :
  1 < threshold ->
  data <> [] ->
  removeOutliersZScore data threshold <> [].
Proof.
  intros Ht Hd. unfold removeOutliersZScore.
  destruct (length data <? 3)%nat; [exact Hd|]. cbv zeta.
  set (ys := map y data).
  set (mean := JS.sum ys / INR (length ys)).
  set (S := fold_left (fun sum val => sum + (val - mean) ^ 2) ys 0).
  destruct (Req_dec_T (sqrt (S / INR (length ys))) 0) as [|Hstd];
    [exact Hd|].
  set (std := sqrt (S / INR (length ys))) in *.
  intros Hnil.
  assert (Hn : 0 < INR (length ys)).
  { apply lt_0_INR. unfold ys. rewrite length_map.
    destruct data; [congruence | simpl; lia]. }
  assert (HS : 0 <= S)
    by (apply (fold_sum_nonneg (fun val => (val - mean) ^ 2));
        intros v; apply pow2_ge_0).
  assert (Hstd0 : 0 < std).
  { pose proof (sqrt_pos (S / INR (length ys))). fold std in H. lra. }
  assert (Hsq : std * std = S / INR (length ys)).
  { unfold std. apply sqrt_sqrt. apply Rmult_le_pos; [exact HS|].
    left. now apply Rinv_0_lt_compat. }
  assert (Hfar : forall v, In v ys ->
            threshold * threshold * (std * std) <= (v - mean) ^ 2).
  { intros v Hv. unfold ys in Hv. apply in_map_iff in Hv.
    destruct Hv as (d & <- & Hd').
    pose proof (filter_nil _ _ Hnil d Hd') as Hout.
    apply ltb_false in Hout.
    unfold Rdiv in Hout. rewrite Rabs_mult in Hout.
    rewrite (Rabs_pos_eq (/ std)) in Hout
      by (left; now apply Rinv_0_lt_compat).
    assert (Hd2 : threshold * std <= Rabs (y d - mean)).
    { apply (Rmult_le_compat_r std) in Hout; [|lra].
      rewrite Rmult_assoc, Rinv_l in Hout by lra. lra. }
    replace ((y d - mean) ^ 2) with (Rabs (y d - mean) * Rabs (y d - mean)).
    - assert (0 <= threshold * std) by (apply Rmult_le_pos; lra).
      replace (threshold * threshold * (std * std))
        with ((threshold * std) * (threshold * std)) by ring.
      apply Rmult_le_compat; assumption.
    - rewrite <- Rabs_mult, Rabs_pos_eq; [ring | apply Rle_0_sqr]. }
  pose proof (fold_sum_ge (fun val => (val - mean) ^ 2) _ ys Hfar) as Hsum.
  fold S in Hsum. rewrite Hsq in Hsum.
  assert (HSn : INR (length ys) * (threshold * threshold
                                   * (S / INR (length ys)))
                = threshold * threshold * S) by (field; lra).
  rewrite HSn in Hsum.
  assert (0 < S).
  { destruct HS as [|<-]; [assumption|].
    unfold Rdiv in Hsq. rewrite Rmult_0_l in Hsq. nra. }
  assert (Ht2 : 1 < threshold * threshold) by nra.
  assert (0 < (threshold * threshold - 1) * S)
    by (apply Rmult_lt_0_compat; lra).
  change (fold_left _ ys 0) with S in Hsum.
  lra.
Qed.

Definition spiky : list DataPoint :=
  [mkPoint 0 1; mkPoint 1 1; mkPoint 2 9; mkPoint 3 1].

Lemma X23_witness : removeOutliersZScore spiky 1.5 <> [].
Proof.
  apply (X23_zscore_filter_keeps_a_sample spiky 1.5).
  - lra.
  - discriminate.
Defined.

(** *** Outliers by interquartile range *)

Lemma sorted_get l i j :
  StronglySorted Rle l -> (i <= j < length l)%nat -> get 0 l i <= get 0 l j.
Proof.
  unfold get. intros Hs. revert i j.
  induction Hs as [|a l Hs IH Ha]; intros i j Hij; [simpl in Hij; lia|].
  destruct i as [|i], j as [|j]; simpl in *; try lia.
  - lra.
  - rewrite Forall_forall in Ha. apply Ha, nth_In. lia.
  - apply IH. lia.
Qed.

Lemma quantileIndex_bounds n :
  (0 < n)%nat ->
  (quantileIndex n 0.25 <= quantileIndex n 0.75 < n)%nat.
Proof.
  intros Hn. unfold quantileIndex.
  assert (Hpos : 0 < INR n) by now apply lt_0_INR.
  assert (H1 : (0 <= Zfloor (INR n * 0.25))%Z)
    by (apply Zfloor_lub; simpl; lra).
  assert (H2 : (Zfloor (INR n * 0.25) <= Zfloor (INR n * 0.75))%Z)
    by (apply Zfloor_le; lra).
  assert (H3 : (Zfloor (INR n * 0.75) < Z.of_nat n)%Z).
  { apply lt_IZR. rewrite <- INR_IZR_INZ.
    pose proof (Zfloor_bound (INR n * 0.75)). lra. }
  lia.
Qed.

(** The two quartiles as [removeOutliersIQR] reads them. *)
Definition quartile (data : list DataPoint) (q : R) : R :=
  let sorted := sortBy (fun a b => ltb a b) (map y data) in
  get 0 sorted (quantileIndex (length sorted) q).

Lemma sorted_ys data :
  StronglySorted Rle (sortBy (fun a b => ltb a b) (map y data)).
Proof.
  pose proof (sortBy_key_sorted (fun v : R => v) (map y data)) as H.
  now rewrite map_id in H.
Qed.

Lemma quartiles_ordered data :
  data <> [] -> quartile data 0.25 <= quartile data 0.75.
Proof.
  intros Hd. unfold quartile. cbv zeta.
  apply sorted_get; [apply sorted_ys|].
  apply quantileIndex_bounds.
  rewrite length_sortBy, length_map. destruct data; [congruence | simpl; lia].
Qed.

Lemma quartile_is_a_sample data q :
  (quantileIndex (length data) q < length data)%nat ->
  exists d, In d data /\ y d = quartile data q.
Proof.
  intros Hq. unfold quartile. cbv zeta.
  rewrite length_sortBy, length_map.
  assert (Hin : In (get 0 (sortBy (fun a b => ltb a b) (map y data))
                        (quantileIndex (length data) q))
                   (map y data)).
  { apply (Permutation_in _ (sortBy_permutation (fun a b => ltb a b)
                                                (map y data))).
    apply nth_In. now rewrite length_sortBy, length_map. }
  apply in_map_iff in Hin. destruct Hin as (d & Hy & Hd). now exists d.
Qed.

(** X24.  With a factor that is not negative, the interquartile filter
    keeps every sample whose intensity lies between the two quartiles,
    and never empties a dataset. *)
Theorem X24_iqr_filter_keeps_the_middle (data : list DataPoint)
    (factor : R) :
  0 <= factor ->
  data <> [] ->
  (forall d, In d data ->
     quartile data 0.25 <= y d <= quartile data 0.75 ->
     In d (removeOutliersIQR data factor))
  /\ removeOutliersIQR data factor <> [].
Proof.
  intros Hf Hd.
  assert (Hkeep : forall d, In d data ->
            quartile data 0.25 <= y d <= quartile data 0.75 ->
            In d (removeOutliersIQR data factor)).
  { intros d Hin Hmid. unfold removeOutliersIQR.
    destruct (length data <? 4)%nat; [exact Hin|]. cbv zeta.
    pose proof (quartiles_ordered data Hd) as Hord.
    unfold quartile in Hmid, Hord. cbv zeta in Hmid, Hord.
    set (q1 := get 0 _ (quantileIndex _ 0.25)) in *.
    set (q3 := get 0 _ (quantileIndex _ 0.75)) in *.
    assert (0 <= factor * (q3 - q1)) by (apply Rmult_le_pos; lra).
    apply filter_In. split; [exact Hin|].
    apply andb_true_iff. split.
    - destruct (Rge_dec (y d) (q1 - factor * (q3 - q1))); [reflexivity | lra].
    - apply leb_true. lra. }
  split; [exact Hkeep|].
  destruct (quartile_is_a_sample data 0.25) as (d & Hin & Hy).
  { assert (Hlen : (0 < length data)%nat)
      by (destruct data; [congruence | simpl; lia]).
    pose proof (quantileIndex_bounds (length data) Hlen). lia. }
  intros Hnil.
  assert (Hd' : In d (removeOutliersIQR data factor)).
  { apply Hkeep; [exact Hin|]. rewrite Hy.
    pose proof (quartiles_ordered data Hd). lra. }
  rewrite Hnil in Hd'. contradiction.
Qed.

Lemma X24_witness :
  (forall d, In d spiky ->
     quartile spiky 0.25 <= y d <= quartile spiky 0.75 ->
     In d (removeOutliersIQR spiky 1.5))
  /\ removeOutliersIQR spiky 1.5 <> [].
Proof.
  apply (X24_iqr_filter_keeps_the_middle spiky 1.5).
  - lra.
  - discriminate.
Defined.

(** *** Normalization *)

Lemma fold_Rmax_attained t : forall h, In (fold_left Rmax t h) (h :: t).
Proof.
  induction t as [|a t IH]; intros h; simpl; [now left|].
  destruct (IH (Rmax h a)) as [Heq|Hin].
  - destruct (Rle_dec h a).
    + right. left. rewrite <- Heq. symmetry. apply Rmax_right. lra.
    + left. rewrite <- Heq. symmetry. apply Rmax_left. lra.
  - right. right. exact Hin.
Qed.

Lemma maxList_attained l : l <> [] -> In (maxList l) l.
Proof.
  destruct l as [|h t]; [congruence|]. intros _. apply fold_Rmax_attained.
Qed.

Lemma all_zero_or_not (l : list DataPoint) :
  (forall d, In d l -> y d = 0) \/ (exists d, In d l /\ y d <> 0).
Proof.
  induction l as [|a t IH].
  - left. intros d [].
  - destruct (Req_dec (y a) 0) as [Ha|Ha].
    + destruct IH as [Hall|(d & Hd & Hy)].
      * left. intros d [<-|Hd]; [exact Ha | now apply Hall].
      * right. exists d. split; [now right | exact Hy].
    + right. exists a. split; [now left | exact Ha].
Qed.

Lemma normalized_spec options processed :
  normalize options = true ->
  let out := normalized options processed in
  map x out = map x processed
  /\ ((exists d, In d processed /\ y d <> 0) ->
      Forall (fun d => Rabs (y d) <= 1) out
      /\ exists d, In d out /\ Rabs (y d) = 1)
  /\ ((forall d, In d processed -> y d = 0) -> out = processed).
Proof.
  intros Hnorm. cbv zeta. unfold normalized. rewrite Hnorm. cbn [andb].
  destruct processed as [|p0 rest] eqn:Hp.
  { cbn. split; [reflexivity|].
    split; [intros (d & [] & _) | intros _; reflexivity]. }
  rewrite <- Hp. replace (0 <? length processed)%nat with true
    by (rewrite Hp; reflexivity).
  set (abs := map (fun d => Rabs (y d)) processed).
  assert (Habs : abs <> []) by (unfold abs; rewrite Hp; discriminate).
  pose proof (maxList_attained abs Habs) as Hatt.
  assert (Hmax : forall d, In d processed -> Rabs (y d) <= maxList abs).
  { intros d Hd. apply maxList_ge. unfold abs.
    apply (in_map (fun d => Rabs (y d))). exact Hd. }
  destruct (Rgt_dec (maxList abs) 0) as [Hpos|Hzero].
  - split; [|split].
    + rewrite map_map. now apply map_ext.
    + intros _. split.
      * apply Forall_map_iff, Forall_forall. intros d Hd. cbn [y].
        unfold Rdiv. rewrite Rabs_mult.
        rewrite (Rabs_pos_eq (/ maxList abs))
          by (left; now apply Rinv_0_lt_compat).
        apply (Rmult_le_reg_r (maxList abs)); [lra|].
        rewrite Rmult_assoc, Rinv_l by lra.
        pose proof (Hmax d Hd). lra.
      * unfold abs in Hatt at 2. apply in_map_iff in Hatt.
        destruct Hatt as (d & Hval & Hd).
        exists (mkPoint (x d) (y d / maxList abs)). split.
        -- apply (in_map (fun d => mkPoint (x d) (y d / maxList abs))).
           exact Hd.
        -- cbn [y]. unfold Rdiv. rewrite Rabs_mult.
           rewrite (Rabs_pos_eq (/ maxList abs))
             by (left; now apply Rinv_0_lt_compat).
           rewrite Hval. field. lra.
    + intros Hall. exfalso.
      unfold abs in Hatt at 2. apply in_map_iff in Hatt.
      destruct Hatt as (d & Hval & Hd).
      rewrite (Hall d Hd), Rabs_R0 in Hval. lra.
  - split; [reflexivity|]. split; [|reflexivity].
    intros (d & Hd & Hnz). exfalso.
    pose proof (Hmax d Hd). pose proof (Rabs_pos_lt (y d) Hnz). lra.
Qed.

(** X25.  With [normalize] set, the data that [processData] returns
    reach 1 in absolute intensity and nowhere exceed it, unless every
    intensity is zero (the data are then left as they are). *)
Theorem X25_normalized_data_peak_at_one (data : list DataPoint)
    (options : ProcessingOptions) :
  normalize options = true ->
  let out := processData data options in
  (exists d, In d out /\ y d <> 0) ->
  Forall (fun d => Rabs (y d) <= 1) out
  /\ exists d, In d out /\ Rabs (y d) = 1.
Proof.
  intros Hnorm out Hnz. unfold out, processData in *. cbv zeta in *.
  set (processed := smooth options _) in *.
  destruct (normalized_spec options processed Hnorm) as (_ & Hscaled & Hzero).
  cbv zeta in Hscaled, Hzero.
  apply Hscaled.
  destruct (all_zero_or_not processed) as [Hall|Hsome]; [|exact Hsome].
  exfalso. rewrite (Hzero Hall) in Hnz.
  destruct Hnz as (d & Hd & Hy). apply Hy. now apply Hall.
Qed.

Definition normalizeOnly : ProcessingOptions :=
  mkProcessing None None None true None None.

Lemma processData_spiky :
  processData spiky normalizeOnly
  = [mkPoint 0 (1 / 9); mkPoint 1 (1 / 9); mkPoint 2 (9 / 9);
     mkPoint 3 (1 / 9)].
Proof.
  unfold processData, normalized, spiky. run_arrays. settle_comparisons.
  reflexivity.
Qed.

Lemma X25_witness :
  Forall (fun d => Rabs (y d) <= 1) (processData spiky normalizeOnly)
  /\ exists d, In d (processData spiky normalizeOnly) /\ Rabs (y d) = 1.
Proof.
  apply (X25_normalized_data_peak_at_one spiky normalizeOnly);
    [reflexivity|].
  rewrite processData_spiky. exists (mkPoint 0 (1 / 9)).
  split; [now left | cbn; lra].
Defined.

(** *** Steps that keep the abscissae *)

Lemma normalized_x options processed :
  map x (normalized options processed) = map x processed.
Proof.
  unfold normalized.
  destruct (normalize options && (0 <? length processed)%nat);
    [|reflexivity].
  cbv zeta. destruct (Rgt_dec _ 0); [|reflexivity].
  rewrite map_map. now apply map_ext.
Qed.

Lemma smooth_x options processed :
  map x (smooth options processed) = map x processed.
Proof.
  unfold smooth. destruct (smoothing options) as [s|]; [|reflexivity].
  cbv zeta. destruct (enabled s && _); [|reflexivity].
  apply aligned_withY.
Qed.

Lemma filter_filter {A} (f g : A -> bool) l :
  filter f (filter g l) = filter (fun a => g a && f a) l.
Proof.
  induction l as [|a t IH]; simpl; [reflexivity|].
  destruct (g a); simpl; [destruct (f a)|]; now rewrite IH.
Qed.

Lemma filter_true {A} (l : list A) : filter (fun _ => true) l = l.
Proof. induction l as [|a t IH]; simpl; [reflexivity | now rewrite IH]. Qed.

Lemma removeOutliers_filters options data :
  exists keep, removeOutliers options data = filter keep data.
Proof.
  unfold removeOutliers, removeOutliersZScore, removeOutliersIQR.
  destruct (outlierRemoval options) as [o|];
    [|exists (fun _ => true); now rewrite filter_true].
  destruct (outlierMethod o).
  - exists (fun _ => true). now rewrite filter_true.
  - destruct (length data <? 3)%nat;
      [exists (fun _ => true); now rewrite filter_true|].
    cbv zeta. destruct (Req_dec_T _ 0);
      [exists (fun _ => true); now rewrite filter_true|].
    eexists. reflexivity.
  - destruct (length data <? 4)%nat;
      [exists (fun _ => true); now rewrite filter_true|].
    eexists. reflexivity.
Qed.

(** The test of the cropping step. *)
Definition insideCrop (options : ProcessingOptions) (d : DataPoint) : bool :=
  match xMin options with
  | None => true
  | Some lo => if Rge_dec (x d) lo then true else false
  end
  && match xMax options with
     | None => true
     | Some hi => leb (x d) hi
     end.

Lemma crop_filters options processed :
  crop options processed = filter (insideCrop options) processed.
Proof.
  unfold crop, insideCrop.
  destruct (xMin options), (xMax options); try reflexivity.
  now rewrite filter_true.
Qed.

(** X26.  Without resampling, [processData] only drops samples and
    rescales intensities: the abscissae it returns are those of the
    samples kept by a filter, in their order, and none of them lies
    outside the bounds [xMin] and [xMax] that are set. *)
Theorem X26_without_resampling_samples_are_only_dropped
    (data : list DataPoint) (options : ProcessingOptions) :
  interpolationStep options = None ->
  let out := processData data options in
  (exists keep, map x out = map x (filter keep data))
  /\ (forall lo, xMin options = Some lo -> Forall (fun d => lo <= x d) out)
  /\ (forall hi, xMax options = Some hi -> Forall (fun d => x d <= hi) out).
Proof.
  intros Hstep out.
  assert (Hx : map x out
               = map x (filter (insideCrop options)
                               (removeOutliers options data))).
  { unfold out, processData. cbv zeta.
    rewrite normalized_x, smooth_x. unfold interpolate. rewrite Hstep.
    now rewrite crop_filters. }
  assert (Hin : Forall (fun v => exists d, x d = v
                                           /\ insideCrop options d = true)
                       (map x out)).
  { rewrite Hx. apply Forall_map_iff, Forall_forall. intros d Hd.
    apply filter_In in Hd. now exists d. }
  split; [|split].
  - destruct (removeOutliers_filters options data) as (keep & Hkeep).
    rewrite Hx, Hkeep, filter_filter. eexists. reflexivity.
  - intros lo Hlo. apply Forall_map_iff with (P := fun v => lo <= v) (f := x).
    revert Hin. apply Forall_impl. intros v (d & <- & Hd).
    unfold insideCrop in Hd. rewrite Hlo in Hd.
    apply andb_true_iff in Hd. destruct Hd as [Hd _].
    destruct (Rge_dec (x d) lo); [lra | discriminate].
  - intros hi Hhi. apply Forall_map_iff with (P := fun v => v <= hi) (f := x).
    revert Hin. apply Forall_impl. intros v (d & <- & Hd).
    unfold insideCrop in Hd. rewrite Hhi in Hd.
    apply andb_true_iff in Hd. destruct Hd as [_ Hd].
    now apply leb_true in Hd.
Qed.

Definition cropOnly : ProcessingOptions :=
  mkProcessing (Some 1) (Some 2) None false None None.

Lemma X26_witness :
  let out := processData spiky cropOnly in
  (exists keep, map x out = map x (filter keep spiky))
  /\ (forall lo, xMin cropOnly = Some lo -> Forall (fun d => lo <= x d) out)
  /\ (forall hi, xMax cropOnly = Some hi -> Forall (fun d => x d <= hi) out).
Proof.
  apply (X26_without_resampling_samples_are_only_dropped spiky cropOnly).
  reflexivity.
Defined.

(** *** Resampling *)

(** While the grid stays at or below the bound, every pass left adds
    one grid point. *)
Lemma resample_grid processed step bound : forall remaining x0 newData,
  (forall k, (k < remaining)%nat -> x0 + INR k * step <= bound) ->
  resample remaining processed step bound x0 newData
  = newData
    ++ map (fun k => mkPoint (x0 + INR k * step)
                             (interpolateAt processed (x0 + INR k * step)))
           (range 0 remaining).
Proof.
  induction remaining as [|remaining IH]; intros x0 newData Hgrid;
    cbn [resample].
  - cbn. now rewrite app_nil_r.
  - assert (H0 : x0 <= bound).
    { specialize (Hgrid 0%nat ltac:(lia)). simpl in Hgrid. lra. }
    destruct (Rle_dec x0 bound); [|contradiction].
    rewrite IH.
    + rewrite <- app_assoc. f_equal. unfold range. rewrite !Nat.sub_0_r.
      cbn [seq map app]. f_equal.
      * simpl. replace (x0 + 0 * step) with x0 by ring. reflexivity.
      * rewrite <- seq_shift, map_map. apply map_ext. intros k.
        rewrite S_INR.
        replace (x0 + step + INR k * step) with (x0 + (INR k + 1) * step)
          by ring.
        reflexivity.
    + intros k Hk. specialize (Hgrid (S k) ltac:(lia)).
      rewrite S_INR in Hgrid. lra.
Qed.

(** Once the grid has passed the bound, further passes add nothing. *)
Lemma resample_stops processed step bound x0 newData remaining :
  bound < x0 ->
  resample remaining processed step bound x0 newData = newData.
Proof.
  intros Hpast. destruct remaining; cbn [resample]; [reflexivity|].
  destruct (Rle_dec x0 bound); [lra | reflexivity].
Qed.

Lemma resample_more processed step bound : forall remaining more x0 newData,
  bound < x0 + INR remaining * step ->
  (forall k, (k < remaining)%nat -> x0 + INR k * step <= bound) ->
  resample (remaining + more) processed step bound x0 newData
  = resample remaining processed step bound x0 newData.
Proof.
  induction remaining as [|remaining IH]; intros more x0 newData Hpast Hgrid.
  - cbn [Nat.add resample]. apply resample_stops. simpl in Hpast. lra.
  - cbn [Nat.add resample].
    destruct (Rle_dec x0 bound); [|reflexivity].
    apply IH.
    + rewrite S_INR in Hpast. lra.
    + intros k Hk. specialize (Hgrid (S k) ltac:(lia)).
      rewrite S_INR in Hgrid. lra.
Qed.

(** [gridSize] counts the grid points up to the bound. *)
Lemma gridSize_spec interpMin bound step :
  0 < step ->
  let N := gridSize interpMin bound step in
  (forall k, (k < N)%nat -> interpMin + INR k * step <= bound)
  /\ bound < interpMin + INR N * step.
Proof.
  intros Hstep N. unfold N, gridSize.
  set (q := (bound - interpMin) / step).
  pose proof (Zfloor_bound q) as [Hlow Hhigh].
  assert (Hq : q * step = bound - interpMin) by (unfold q; field; lra).
  split.
  - intros k Hk.
    assert (Hkz : (Z.of_nat k <= Zfloor q)%Z) by lia.
    apply IZR_le in Hkz. rewrite <- INR_IZR_INZ in Hkz.
    assert (INR k * step <= q * step)
      by (apply Rmult_le_compat_r; lra).
    lra.
  - assert (Hn : IZR (Zfloor q) + 1 <= INR (Z.to_nat (Zfloor q + 1))).
    { rewrite INR_IZR_INZ. rewrite <- plus_IZR. apply IZR_le. lia. }
    assert (q * step < INR (Z.to_nat (Zfloor q + 1)) * step)
      by (apply Rmult_lt_compat_r; lra).
    lra.
Qed.

(** X27.  Resampling lays the data on an even grid: the abscissae that
    [processData] returns are [interpMin + k * step] for
    [k = 0, 1, ...], every one of them at or below
    [interpMax + step / 1000] and the next one above it (so that more
    passes of the loop add nothing). *)
Theorem X27_resampling_lays_an_even_grid (data : list DataPoint)
    (options : ProcessingOptions) (step : R) :
  interpolationStep options = Some step ->
  0 < step ->
  let processed := crop options (removeOutliers options data) in
  (2 <= length processed)%nat ->
  let interpMin := coalesce (xMin options) (x (get origin processed 0)) in
  let interpMax :=
    coalesce (xMax options)
             (x (get origin processed (length processed - 1))) in
  let bound := interpMax + step * 0.001 in
  let N := gridSize interpMin bound step in
  map x (processData data options)
  = map (fun k => interpMin + INR k * step) (range 0 N)
  /\ (forall k, (k < N)%nat -> interpMin + INR k * step <= bound)
  /\ bound < interpMin + INR N * step
  /\ forall more,
       resample (N + more) processed step bound interpMin []
       = resample N processed step bound interpMin [].
Proof.
  intros Hsome Hstep processed Hlen interpMin interpMax bound N.
  destruct (gridSize_spec interpMin bound step Hstep) as [Hgrid Hpast].
  fold N in Hgrid, Hpast.
  split; [|split; [exact Hgrid | split; [exact Hpast|]]].
  - unfold processData. cbv zeta. rewrite normalized_x, smooth_x.
    fold processed. unfold interpolate. rewrite Hsome.
    destruct (Rgt_dec step 0); [|lra].
    replace (2 <=? length processed)%nat with true
      by (symmetry; now apply Nat.leb_le).
    cbv zeta. fold interpMin interpMax bound N.
    rewrite resample_grid by exact Hgrid.
    cbn [app]. rewrite map_map. reflexivity.
  - intros more. now apply resample_more.
Qed.

Definition resampleOnly : ProcessingOptions :=
  mkProcessing None None (Some 1) false None None.

Lemma X27_witness :
  let processed := crop resampleOnly (removeOutliers resampleOnly spiky) in
  let interpMin := coalesce (xMin resampleOnly) (x (get origin processed 0)) in
  let interpMax :=
    coalesce (xMax resampleOnly)
             (x (get origin processed (length processed - 1))) in
  let bound := interpMax + 1 * 0.001 in
  let N := gridSize interpMin bound 1 in
  map x (processData spiky resampleOnly)
  = map (fun k => interpMin + INR k * 1) (range 0 N)
  /\ (forall k, (k < N)%nat -> interpMin + INR k * 1 <= bound)
  /\ bound < interpMin + INR N * 1
  /\ forall more,
       resample (N + more) processed 1 bound interpMin []
       = resample N processed 1 bound interpMin [].
Proof.
  apply (X27_resampling_lays_an_even_grid spiky resampleOnly 1).
  - reflexivity.
  - lra.
  - simpl. lia.
Defined.

(** *** Resampling at a sample *)

Lemma find_first (f : nat -> bool) k : forall len s,
  (s <= k < s + len)%nat ->
  (forall i, (s <= i < k)%nat -> f i = false) ->
  f k = true ->
  find f (seq s len) = Some k.
Proof.
  induction len as [|len IH]; intros s Hs Hbefore Hk; [lia|].
  cbn [seq find].
  destruct (Nat.eq_dec s k) as [->|Hne]; [now rewrite Hk|].
  rewrite Hbefore by lia. apply IH; [lia | | exact Hk].
  intros i Hi. apply Hbefore. lia.
Qed.

Section AtSamples.

Variable processed : list DataPoint.

Let n := length processed.
Let g := get origin processed.

Hypothesis Hincreasing : forall i j, (i < j < n)%nat -> x (g i) < x (g j).
Hypothesis Hn : (2 <= n)%nat.

Lemma interpolateAt_sample k :
  (k < n)%nat -> interpolateAt processed (x (g k)) = y (g k).
Proof.
  intros Hk. unfold interpolateAt. fold n. cbv zeta. fold g.
  destruct (Rle_dec (x (g k)) (x (g 0%nat))) as [Hle|Hgt].
  - destruct (Nat.eq_dec k 0) as [->|Hne].
    + pose proof (Hincreasing 0 1 ltac:(lia)). field. lra.
    + pose proof (Hincreasing 0 k ltac:(lia)). lra.
  - assert (Hk0 : (0 < k)%nat).
    { destruct k; [|lia]. exfalso. apply Hgt. lra. }
    destruct (Rge_dec (x (g k)) (x (g (n - 1)%nat))) as [Hge|Hlt].
    + destruct (Nat.eq_dec k (n - 1)) as [->|Hne].
      * pose proof (Hincreasing (n - 2)%nat (n - 1)%nat ltac:(lia)).
        field. lra.
      * pose proof (Hincreasing k (n - 1)%nat ltac:(lia)). lra.
    + assert (Hkn : (k < n - 1)%nat).
      { destruct (Nat.eq_dec k (n - 1)) as [->|Hne]; [|lia].
        exfalso. apply Hlt. lra. }
      unfold range.
      rewrite (find_first _ (k - 1)).
      * replace (k - 1 + 1)%nat with k by lia.
        pose proof (Hincreasing (k - 1)%nat k ltac:(lia)).
        field. lra.
      * lia.
      * intros i Hi.
        pose proof (Hincreasing (i + 1)%nat k ltac:(lia)) as Hlt'.
        apply negb_false_iff. now apply ltb_true.
      * replace (k - 1 + 1)%nat with k by lia.
        apply negb_true_iff. apply ltb_false. lra.
Qed.

End AtSamples.

Lemma in_resample processed step bound d : forall remaining x0 newData,
  In d (resample remaining processed step bound x0 newData) ->
  In d newData \/ y d = interpolateAt processed (x d).
Proof.
  induction remaining as [|remaining IH]; intros x0 newData Hd;
    cbn [resample] in Hd; [now left|].
  destruct (Rle_dec x0 bound); [|now left].
  apply IH in Hd. destruct Hd as [Hd|Hd]; [|now right].
  apply in_app_or in Hd. destruct Hd as [Hd|[<-|[]]]; [now left|].
  right. reflexivity.
Qed.

(** X28.  Resampling is exact at the samples: when the samples that
    reach the resampling step have strictly increasing abscissae, a grid
    point that falls on the abscissa of one of them is given that
    sample's intensity. *)
Theorem X28_resampling_is_exact_at_the_samples
    (options : ProcessingOptions) (processed : list DataPoint) (step : R)
    (d : DataPoint) (k : nat) :
  interpolationStep options = Some step ->
  0 < step ->
  (2 <= length processed)%nat ->
  (forall i j, (i < j < length processed)%nat ->
     x (get origin processed i) < x (get origin processed j)) ->
  In d (interpolate options processed) ->
  (k < length processed)%nat ->
  x d = x (get origin processed k) ->
  y d = y (get origin processed k).
Proof.
  intros Hsome Hstep Hlen Hinc Hd Hk Hx.
  unfold interpolate in Hd. rewrite Hsome in Hd.
  destruct (Rgt_dec step 0); [|lra].
  replace (2 <=? length processed)%nat with true in Hd
    by (symmetry; now apply Nat.leb_le).
  cbv zeta in Hd. apply in_resample in Hd.
  destruct Hd as [[]|Hd]. rewrite Hd, Hx.
  now apply interpolateAt_sample.
Qed.

Definition ramp3 : list DataPoint :=
  [mkPoint 0 1; mkPoint 1 5; mkPoint 2 2].

Lemma X28_witness :
  y (mkPoint 1 (interpolateAt ramp3 1)) = y (get origin ramp3 1).
Proof.
  apply (X28_resampling_is_exact_at_the_samples resampleOnly ramp3 1
           (mkPoint 1 (interpolateAt ramp3 1)) 1).
  - reflexivity.
  - lra.
  - simpl. lia.
  - intros [|[|[|i]]] [|[|[|j]]] Hij; simpl in *; try lia; lra.
  - unfold interpolate, resampleOnly, ramp3.
    cbn [interpolationStep xMin xMax coalesce length Nat.leb get nth x
         Nat.sub].
    destruct (Rgt_dec 1 0); [|lra].
    rewrite resample_grid.
    + cbn [app]. apply in_map_iff. exists 1%nat. split.
      * simpl. replace (0 + 1 * 1) with 1 by ring. reflexivity.
      * apply in_range.
        assert (Hsize : (2 <= gridSize 0 (2 + 1 * 0.001) 1)%nat).
        { unfold gridSize.
          assert ((2 <= Zfloor ((2 + 1 * 0.001 - 0) / 1))%Z)
            by (apply Zfloor_lub; lra).
          lia. }
        lia.
    + apply gridSize_spec. lra.
  - simpl. lia.
  - reflexivity.
Defined.

End ProcessingProperties.

(** ** The gradient-descent fit *)

Module LegacyProperties.

Import JS JSFacts ArrayFacts Baseline Legacy.















(** *** The curves returned *)






End LegacyProperties.
